(** * Extendible hashing: a model of [hashing.cpp] and its properties

    The C++ program keeps a directory ([vector<DataBucket *>]) of pointers
    into the free store; several directory slots may hold the same
    pointer.  The model below keeps that sharing: the free store is a
    list of cells, a pointer is an index into it, and the directory is a
    list of (possibly null) pointers.

    Platform assumptions, as on the usual LP64 targets: [int] has 32
    bits, [size_t] has 64 bits.  An execution that would run into
    undefined behaviour (a shift by a negative amount, an index outside
    the vector, a dereference of a released or null pointer, signed
    overflow) stops with a [Fault] that names the cause. *)

From stdpp Require Import base list numbers strings pretty.
From Stdlib Require Import ZArith Lia.

Open Scope Z_scope.

(** ** Results of executions *)

Inductive fault : Type :=
  | BadShift (amount : Z)       (* 1 << amount with amount outside 0..30 *)
  | BadIndex (index : Z)        (* buckets[index] outside the vector *)
  | NullDeref                   (* p->... with p == nullptr *)
  | WildPointer (p : nat)       (* p->... with p never allocated *)
  | UseAfterFree (p : nat)      (* p->... after delete p *)
  | IntOverflow (value : Z).    (* signed arithmetic leaving the int range *)

Inductive result (A : Type) : Type :=
  | Ok (a : A)
  | Fault (f : fault)
  | OutOfFuel.

Arguments Ok {A} a.
Arguments Fault {A} f.
Arguments OutOfFuel {A}.

#[global] Instance result_ret : MRet result := fun A a => Ok a.
#[global] Instance result_bind : MBind result := fun A B k r =>
  match r with
  | Ok a => k a
  | Fault f => Fault f
  | OutOfFuel => OutOfFuel
  end.

(** ** Machine integers *)

Definition INT_MIN : Z := - 2 ^ 31.
Definition INT_MAX : Z := 2 ^ 31 - 1.

(** Conversion of an [int] to [size_t], and of a [size_t] to [int]. *)
Definition to_size_t (z : Z) : Z := z mod 2 ^ 64.
Definition to_int (z : Z) : Z := (z + 2 ^ 31) mod 2 ^ 32 - 2 ^ 31.

(** The value of a signed [int] expression, when it fits. *)
Definition int_chk (z : Z) : result Z :=
  if (INT_MIN <=? z) && (z <=? INT_MAX) then Ok z else Fault (IntOverflow z).

(** [1 << n] on [int]: a positive int for n in 0..30.  At 31 the result
    is not a positive int any more (and [resize] rejects it as a length);
    outside the width, and for negative n, the shift is undefined. *)
Definition shl1 (n : Z) : result Z :=
  if (0 <=? n) && (n <? 31) then Ok (2 ^ n) else Fault (BadShift n).

(** ** [std::set<int>] as a strictly ascending list *)

Fixpoint set_find (x : Z) (l : list Z) : bool :=
  match l with
  | [] => false
  | y :: l' => (x =? y) || set_find x l'
  end.

Fixpoint set_insert (x : Z) (l : list Z) : list Z :=
  match l with
  | [] => [x]
  | y :: l' =>
      if x <? y then x :: l
      else if x =? y then l
      else y :: set_insert x l'
  end.

Fixpoint set_erase (x : Z) (l : list Z) : list Z :=
  match l with
  | [] => []
  | y :: l' => if x =? y then set_erase x l' else y :: set_erase x l'
  end.

(** ** class DataBucket *)

Module DataBucket.

Record t : Type := mk {
  size : Z;             (* capacity of the bucket *)
  localDepth : Z;
  data : list Z
}.

Definition with_data (d : list Z) (b : t) : t :=
  mk (size b) (localDepth b) d.

Definition with_localDepth (ld : Z) (b : t) : t :=
  mk (size b) ld (data b).

(** [int insert(int _data)]: 1 when present, 0 when inserted, 2 when the
    bucket overflowed (the element stays in the bucket). *)
Definition insert (_data : Z) (b : t) : Z * t :=
  if set_find _data (data b) then (1, b)
  else
    let b' := with_data (set_insert _data (data b)) b in
    if Z.of_nat (length (data b')) <=? to_size_t (size b)
    then (0, b')
    else (2, b').

(** [void erase(int _key)] *)
Definition erase (_key : Z) (b : t) : t :=
  with_data (set_erase _key (data b)) b.

End DataBucket.

(** ** The free store *)

Record cell : Type := Cell {
  obj : DataBucket.t;
  released : bool         (* set by [delete] *)
}.

Abbreviation ptr := (option nat).   (* [None] is the null pointer *)

(** ** class ExtendibleHashMap *)

Record ExtendibleHashMap : Type := EHM {
  globalDepth : Z;
  bucketSize : Z;
  buckets : list ptr;
  heap : list cell
}.

Definition with_globalDepth (gd : Z) (s : ExtendibleHashMap) :=
  EHM gd (bucketSize s) (buckets s) (heap s).
Definition with_buckets (bs : list ptr) (s : ExtendibleHashMap) :=
  EHM (globalDepth s) (bucketSize s) bs (heap s).
Definition with_heap (h : list cell) (s : ExtendibleHashMap) :=
  EHM (globalDepth s) (bucketSize s) (buckets s) h.

(** [buckets.size()] *)
Definition buckets_size (s : ExtendibleHashMap) : Z :=
  Z.of_nat (length (buckets s)).

(** [buckets[i]] read: the index is converted to [size_t], so a negative
    index is as far outside as a large one. *)
Definition vec_get (i : Z) (s : ExtendibleHashMap) : result ptr :=
  if (0 <=? i) && (i <? buckets_size s)
  then match buckets s !! Z.to_nat i with
       | Some p => Ok p
       | None => Fault (BadIndex i)
       end
  else Fault (BadIndex i).

(** [buckets[i] = p] *)
Definition vec_set (i : Z) (p : ptr) (s : ExtendibleHashMap)
  : result ExtendibleHashMap :=
  if (0 <=? i) && (i <? buckets_size s)
  then Ok (with_buckets (<[Z.to_nat i := p]> (buckets s)) s)
  else Fault (BadIndex i).

(** [p->...]: the object behind a pointer. *)
Definition deref (p : ptr) (s : ExtendibleHashMap) : result DataBucket.t :=
  match p with
  | None => Fault NullDeref
  | Some a =>
      match heap s !! a with
      | None => Fault (WildPointer a)
      | Some c => if released c then Fault (UseAfterFree a) else Ok (obj c)
      end
  end.

(** Write the object behind a pointer that [deref] accepted. *)
Definition store (p : ptr) (b : DataBucket.t) (s : ExtendibleHashMap)
  : ExtendibleHashMap :=
  match p with
  | None => s
  | Some a => with_heap (<[a := Cell b false]> (heap s)) s
  end.

(** [new DataBucket(_size, _localDepth)] *)
Definition new_bucket (_size _localDepth : Z) (s : ExtendibleHashMap)
  : ptr * ExtendibleHashMap :=
  (Some (length (heap s)),
   with_heap (heap s ++ [Cell (DataBucket.mk _size _localDepth []) false]) s).

(** [delete p]: runs the destructor (which clears the data) and releases
    the cell.  [delete nullptr] does nothing. *)
Definition delete (p : ptr) (s : ExtendibleHashMap)
  : result ExtendibleHashMap :=
  match p with
  | None => Ok s
  | Some a =>
      b ← deref p s;
      Ok (with_heap (<[a := Cell (DataBucket.with_data [] b) true]> (heap s)) s)
  end.

(** [int _getBucketIndex(int _key, int _globalDepth)]; [%] truncates
    towards zero. *)
Definition _getBucketIndex2 (_key _globalDepth : Z) : result Z :=
  m ← shl1 _globalDepth;
  Ok (Z.rem _key m).

(** [int _getBucketIndex(int key)] *)
Definition _getBucketIndex (key : Z) (s : ExtendibleHashMap) : result Z :=
  _getBucketIndex2 key (globalDepth s).

(** The loop of [extend]: [buckets[i] = buckets[_getBucketIndex(i, oldDepth)]]
    for the [count] indices from [i] on. *)
Fixpoint extend_loop (oldDepth : Z) (count : nat) (i : Z)
    (s : ExtendibleHashMap) : result ExtendibleHashMap :=
  match count with
  | O => Ok s
  | S count' =>
      j ← _getBucketIndex2 i oldDepth;
      p ← vec_get j s;
      s' ← vec_set i p s;
      extend_loop oldDepth count' (i + 1) s'
  end.

(** [void extend()] *)
Definition extend (s : ExtendibleHashMap) : result ExtendibleHashMap :=
  let oldDepth := globalDepth s in
  gd ← int_chk (globalDepth s + 1);
  n ← shl1 gd;
  let s1 := with_buckets (resize (Z.to_nat n) None (buckets s))
                         (with_globalDepth gd s) in
  first ← shl1 oldDepth;
  extend_loop oldDepth (Z.to_nat (buckets_size s1 - first)) first s1.

(** The two index computations shared by [splitImage] and
    [getImageIndex]: [buckets.size() - (half - i)] is computed in
    [size_t] and converted back to [int]. *)
Definition upper_image (half i : Z) (s : ExtendibleHashMap) : result Z :=
  d ← int_chk (half - i);
  Ok (to_int ((buckets_size s - to_size_t d) mod 2 ^ 64)).

(** [int getImageIndex(int splitIndex)] *)
Definition getImageIndex (splitIndex : Z) (s : ExtendibleHashMap) : result Z :=
  e ← int_chk (globalDepth s - 1);
  oldSize ← shl1 e;
  if splitIndex <? oldSize
  then upper_image oldSize splitIndex s
  else d ← int_chk (splitIndex - oldSize); Ok (to_int (to_size_t d)).

(** The re-insertion loop of [splitImage]; [add] is the insertion it
    calls back. *)
Fixpoint reinsert (add : Z → ExtendibleHashMap → result (Z * ExtendibleHashMap))
    (bucketData : list Z) (s : ExtendibleHashMap) : result ExtendibleHashMap :=
  match bucketData with
  | [] => Ok s
  | element :: rest =>
      bucketIndex ← _getBucketIndex element s;
      _ ← vec_get bucketIndex s;
      '(_, s') ← add element s;
      reinsert add rest s'
  end.

(** [void splitImage(int splitIndex)], with the insertion it calls back
    as a parameter. *)
Definition splitImage_with
    (add : Z → ExtendibleHashMap → result (Z * ExtendibleHashMap))
    (splitIndex : Z) (s : ExtendibleHashMap) : result ExtendibleHashMap :=
  e ← int_chk (globalDepth s - 1);
  halfSize ← shl1 e;
  newBucketIndex ←
    (if splitIndex <? halfSize
     then upper_image halfSize splitIndex s
     else Ok (to_int (to_size_t splitIndex)));
  dataCopy ←
    (if splitIndex <? halfSize
     then Ok splitIndex
     else int_chk (splitIndex - halfSize));
  let '(q, s1) := new_bucket (bucketSize s) (globalDepth s) s in
  s2 ← vec_set newBucketIndex q s1;
  p ← vec_get dataCopy s2;
  b ← deref p s2;
  let bucketData := DataBucket.data b in
  let s3 := store p (DataBucket.with_data [] b) s2 in
  ld ← int_chk (DataBucket.localDepth b + 1);
  let s4 := store p (DataBucket.with_localDepth ld (DataBucket.with_data [] b)) s3 in
  reinsert add bucketData s4.

(** [int add(int key)].  The recursion through [splitImage] is bounded by
    [fuel], the nesting depth still allowed. *)
Fixpoint add (fuel : nat) (key : Z) (s : ExtendibleHashMap)
  : result (Z * ExtendibleHashMap) :=
  match fuel with
  | O => OutOfFuel
  | S fuel' =>
      bucketIndex ← _getBucketIndex key s;
      bucket ← vec_get bucketIndex s;
      b ← deref bucket s;
      let '(ret, b') := DataBucket.insert key b in
      let s1 := store bucket b' s in
      if ret =? 2 then
        s2 ← (if DataBucket.localDepth b' =? globalDepth s1
              then extend s1 else Ok s1);
        s3 ← splitImage_with (add fuel') bucketIndex s2;
        Ok (bucketIndex, s3)
      else Ok (bucketIndex, s1)
  end.


(** [void reduceDirectory()] *)
Definition reduceDirectory (s : ExtendibleHashMap) : result ExtendibleHashMap :=
  gd ← int_chk (globalDepth s - 1);
  n ← shl1 gd;
  Ok (with_buckets (resize (Z.to_nat n) None (buckets s)) (with_globalDepth gd s)).

(** The constructor's loop: [buckets[i] = new DataBucket(_size, depth)]. *)
Fixpoint init_loop (_size depth : Z) (count : nat) (i : Z)
    (s : ExtendibleHashMap) : result ExtendibleHashMap :=
  match count with
  | O => Ok s
  | S count' =>
      let '(q, s1) := new_bucket _size depth s in
      s2 ← vec_set i q s1;
      init_loop _size depth count' (i + 1) s2
  end.

(** [ExtendibleHashMap(int _globalDepth, int _size)] *)
Definition create (_globalDepth _size : Z) : result ExtendibleHashMap :=
  n ← shl1 _globalDepth;
  let s := EHM _globalDepth _size (resize (Z.to_nat n) None []) [] in
  init_loop _size _globalDepth (length (buckets s)) 0 s.

(** [ExtendibleHashMap(int _size)]: initial global depth 0. *)
Definition create0 (_size : Z) : result ExtendibleHashMap :=
  n ← shl1 0;
  let s := EHM 0 _size (resize (Z.to_nat n) None []) [] in
  init_loop _size 0 (length (buckets s)) 0 s.

(** The merge loop of [remove]:
    [for (int element : buckets[image]->data) buckets[bucketIndex]->insert(element)] *)
Fixpoint merge_loop (elements : list Z) (bucketIndex : Z)
    (s : ExtendibleHashMap) : result ExtendibleHashMap :=
  match elements with
  | [] => Ok s
  | element :: rest =>
      p ← vec_get bucketIndex s;
      b ← deref p s;
      merge_loop rest bucketIndex (store p (DataBucket.insert element b).2 s)
  end.

(** The four statements of the merge branch, for [bucketIndex] the
    smaller and [image] the larger index. *)
Definition merge_move (bucketIndex image : Z) (s : ExtendibleHashMap)
  : result ExtendibleHashMap :=
  pi ← vec_get image s;
  bi ← deref pi s;
  merge_loop (DataBucket.data bi) bucketIndex s.

Definition merge_release (image : Z) (s : ExtendibleHashMap)
  : result ExtendibleHashMap :=
  pi ← vec_get image s;
  delete pi s.

Definition merge_repoint (bucketIndex image : Z) (s : ExtendibleHashMap)
  : result ExtendibleHashMap :=
  p ← vec_get bucketIndex s;
  vec_set image p s.

Definition merge_decrement (bucketIndex : Z) (s : ExtendibleHashMap)
  : result ExtendibleHashMap :=
  p ← vec_get bucketIndex s;
  b ← deref p s;
  ld ← int_chk (DataBucket.localDepth b - 1);
  Ok (store p (DataBucket.with_localDepth ld b) s).

Definition merge (bucketIndex image : Z) (s : ExtendibleHashMap)
  : result ExtendibleHashMap :=
  s1 ← merge_move bucketIndex image s;
  s2 ← merge_release image s1;
  s3 ← merge_repoint bucketIndex image s2;
  merge_decrement bucketIndex s3.

(** [buckets[i]->data.size() <= bucketSize / 2], compared in [size_t]. *)
Definition at_most_half (i : Z) (s : ExtendibleHashMap) : result bool :=
  p ← vec_get i s;
  b ← deref p s;
  Ok (Z.of_nat (length (DataBucket.data b)) <=? to_size_t (Z.quot (bucketSize s) 2)).

(** The condition of the merge branch, with the short-circuit of [&&]. *)
Definition merge_condition (bucketIndex image : Z) (s : ExtendibleHashMap)
  : result bool :=
  if image =? bucketIndex then Ok false
  else
    c1 ← at_most_half bucketIndex s;
    if c1 : bool then at_most_half image s else Ok false.

(** The scan of [remove]: are all local depths equal to that of
    [buckets[0]]?  It stops at the first difference. *)
Fixpoint depths_equal_loop (count : nat) (i : Z) (s : ExtendibleHashMap)
  : result bool :=
  match count with
  | O => Ok true
  | S count' =>
      pi ← vec_get i s;
      bi ← deref pi s;
      p0 ← vec_get 0 s;
      b0 ← deref p0 s;
      if DataBucket.localDepth bi =? DataBucket.localDepth b0
      then depths_equal_loop count' (i + 1) s
      else Ok false
  end.

(** The tail of [remove]: scan, then halve the directory when all local
    depths are one below the global depth. *)
Definition shrink_check (s : ExtendibleHashMap) : result ExtendibleHashMap :=
  areLocalDepthsEqual ← depths_equal_loop (Z.to_nat (buckets_size s - 1)) 1 s;
  if areLocalDepthsEqual : bool then
    e ← int_chk (globalDepth s - 1);
    p0 ← vec_get 0 s;
    b0 ← deref p0 s;
    if e =? DataBucket.localDepth b0 then reduceDirectory s else Ok s
  else Ok s.

(** The first statements of [remove], up to the erase. *)
Definition remove_erase (key : Z) (s : ExtendibleHashMap)
  : result (Z * Z * ExtendibleHashMap) :=
  bucketIndex ← _getBucketIndex key s;
  image ← getImageIndex bucketIndex s;
  p ← vec_get bucketIndex s;
  b ← deref p s;
  Ok (bucketIndex, image, store p (DataBucket.erase key b) s).

(** [void remove(int key)] *)
Definition remove (key : Z) (s : ExtendibleHashMap) : result ExtendibleHashMap :=
  '(bucketIndex, image, s1) ← remove_erase key s;
  c ← merge_condition bucketIndex image s1;
  s2 ← (if c : bool
        then if bucketIndex >? image
             then merge image bucketIndex s1
             else merge bucketIndex image s1
        else Ok s1);
  shrink_check s2.

(** ** The destructor *)

(** The loop of the destructor: [delete bucket] for each directory entry,
    in order. *)
Fixpoint destructor_loop (bs : list ptr) (s : ExtendibleHashMap)
  : result ExtendibleHashMap :=
  match bs with
  | [] => Ok s
  | bucket :: rest => s' ← delete bucket s; destructor_loop rest s'
  end.

(** [~ExtendibleHashMap()]: every entry is deleted, then the directory is
    cleared. *)
Definition destructor (s : ExtendibleHashMap) : result ExtendibleHashMap :=
  s' ← destructor_loop (buckets s) s;
  Ok (with_buckets [] s').

(** ** [print] *)

(** What [endl] and the tab after the data label put on [cout]. *)
Definition endl : string := String (Ascii.ascii_of_nat 10) EmptyString.
Definition tab : string := String (Ascii.ascii_of_nat 9) EmptyString.

(** The inner loop of [print]: each element, followed by a blank. *)
Fixpoint print_data (elements : list Z) : string :=
  match elements with
  | [] => EmptyString
  | el :: rest => pretty el +:+ " " +:+ print_data rest
  end.

(** What one round of the outer loop writes: the number [id] (the slot
    index plus one), the number [n] of slots, and the keys of bucket [b]. *)
Definition print_bucket (id : Z) (n : Z) (b : DataBucket.t) : string :=
  "Bucket " +:+ pretty id +:+ " / " +:+ pretty n +:+ endl
  +:+ "Data:" +:+ tab +:+ print_data (DataBucket.data b) +:+ endl +:+ endl.

(** The outer loop of [print], for the [count] slots from [id] on. *)
Fixpoint print_loop (count : nat) (id : Z) (s : ExtendibleHashMap)
  : result string :=
  match count with
  | O => Ok EmptyString
  | S count' =>
      id1 ← int_chk (id + 1);
      p ← vec_get id s;
      b ← deref p s;
      rest ← print_loop count' id1 s;
      Ok (print_bucket id1 (buckets_size s) b +:+ rest)
  end.

(** [void print()]: the text written to [cout]. *)
Definition print (s : ExtendibleHashMap) : result string :=
  out ← print_loop (length (buckets s)) 0 s;
  Ok (endl +:+ out).

(** ** Runs of the public operations *)

Inductive op : Type :=
  | Add (key : Z)
  | Remove (key : Z).

Definition step (fuel : nat) (o : op) (s : ExtendibleHashMap)
  : result ExtendibleHashMap :=
  match o with
  | Add key => '(_, s') ← add fuel key s; Ok s'
  | Remove key => remove key s
  end.

Fixpoint run (fuel : nat) (os : list op) (s : ExtendibleHashMap)
  : result ExtendibleHashMap :=
  match os with
  | [] => Ok s
  | o :: os' => s' ← step fuel o s; run fuel os' s'
  end.

(** The table of [main]: [new ExtendibleHashMap(0, 2)]. *)
Definition main_table : result ExtendibleHashMap := create 0 2.

Definition run_main (fuel : nat) (os : list op) : result ExtendibleHashMap :=
  s ← main_table; run fuel os s.

(** ** Observations used in the statements *)

(** Is [key] in the bucket that directory slot [i] points to? *)
Definition resides (key i : Z) (s : ExtendibleHashMap) : bool :=
  match vec_get i s with
  | Ok p => match deref p s with
            | Ok b => set_find key (DataBucket.data b)
            | _ => false
            end
  | _ => false
  end.

(** Is [key] in some bucket that the directory points to? *)
Definition present (key : Z) (s : ExtendibleHashMap) : bool :=
  existsb (fun i => resides key (Z.of_nat i) s) (seq 0 (length (buckets s))).

(** The directory slots that hold pointer [a]. *)
Definition refs (a : nat) (s : ExtendibleHashMap) : list nat :=
  filter (fun i => buckets s !! i = Some (Some a)) (seq 0 (length (buckets s))).

(** The reference-counting invariant for one cell: when some slot points
    to it, it is not released, the number of slots is
    [2 ^ (globalDepth - localDepth)], and the slots agree on their low
    [localDepth] bits. *)
Definition cell_refs_ok (s : ExtendibleHashMap) (a : nat) (c : cell) : bool :=
  let r := refs a s in
  let d := DataBucket.localDepth (obj c) in
  match r with
  | [] => true
  | i :: _ =>
      negb (released c)
      && (Z.of_nat (length r) =? 2 ^ (globalDepth s - d))
      && forallb (fun j => Z.of_nat j mod 2 ^ d =? Z.of_nat i mod 2 ^ d) r
  end.

Definition refcount_inv (s : ExtendibleHashMap) : bool :=
  forallb (fun '(a, c) => cell_refs_ok s a c) (imap pair (heap s)).

(** The directory has [2 ^ globalDepth] slots. *)
Definition dir_ok (s : ExtendibleHashMap) : Prop :=
  buckets_size s = 2 ^ globalDepth s.

(** The outcome of a run, seen through an observation [f]. *)
Definition observe {A} (f : ExtendibleHashMap → A) (r : result ExtendibleHashMap)
  : result A :=
  s ← r; Ok (f s).

(** What the cell at address [a] holds, released or not. *)
Definition stale (a : nat) (s : ExtendibleHashMap) : option DataBucket.t :=
  obj <$> heap s !! a.

(** Global depth, directory, and for each cell its local depth, keys and
    release flag. *)
Definition summary (s : ExtendibleHashMap)
  : Z * list ptr * list (Z * list Z * bool) :=
  (globalDepth s, buckets s,
   map (fun c => (DataBucket.localDepth (obj c), DataBucket.data (obj c), released c))
       (heap s)).

(** The slot that receives the new bucket in [splitImage], and the slot
    whose bucket is emptied, for a directory of [2 * half] slots. *)
Definition newBucketIndex_of (half splitIndex : Z) : Z :=
  if splitIndex <? half then splitIndex + half else splitIndex.
Definition dataCopy_of (half splitIndex : Z) : Z :=
  if splitIndex <? half then splitIndex else splitIndex - half.

(** The table that [splitImage] hands to its re-insertion loop: slot
    [newBucketIndex] points to a new empty bucket of local depth
    [globalDepth], and the bucket [b] in cell [a] is emptied and one
    deeper. *)
Definition split_state (newBucketIndex : Z) (a : nat) (b : DataBucket.t)
    (s : ExtendibleHashMap) : ExtendibleHashMap :=
  EHM (globalDepth s) (bucketSize s)
      (<[Z.to_nat newBucketIndex := Some (length (heap s))]> (buckets s))
      (<[a := Cell (DataBucket.mk (DataBucket.size b) (DataBucket.localDepth b + 1) []) false]>
         (heap s ++ [Cell (DataBucket.mk (bucketSize s) (globalDepth s) []) false])).


(** Every directory slot points to a cell that is not released. *)
Definition live_dir (s : ExtendibleHashMap) : Prop :=
  ∀ i p, buckets s !! i = Some p →
         ∃ a b, p = Some a ∧ heap s !! a = Some (Cell b false).

(** The local depth found through directory slot [i]. *)
Definition depth_at (i : nat) (s : ExtendibleHashMap) : option Z :=
  match buckets s !! i with
  | Some (Some a) => (fun c => DataBucket.localDepth (obj c)) <$> heap s !! a
  | _ => None
  end.

(** Every slot leads to local depth [d]. *)
Definition all_depths (d : Z) (s : ExtendibleHashMap) : bool :=
  forallb (fun i => bool_decide (depth_at i s = Some d))
          (seq 0 (length (buckets s))).

(** The number of keys found through directory slot [i]. *)
Definition keys_at (i : Z) (s : ExtendibleHashMap) : Z :=
  match buckets s !! Z.to_nat i with
  | Some (Some a) =>
      match heap s !! a with
      | Some c => Z.of_nat (length (DataBucket.data (obj c)))
      | None => 0
      end
  | _ => 0
  end.

(** The table with the upper half of the directory dropped. *)
Definition halved (s : ExtendibleHashMap) : ExtendibleHashMap :=
  EHM (globalDepth s - 1) (bucketSize s)
      (take (Z.to_nat (2 ^ (globalDepth s - 1))) (buckets s)) (heap s).

(** The surviving bucket [bl] after the merge loop fed it the keys of [bh]. *)
Definition merged_bucket (bl bh : DataBucket.t) : DataBucket.t :=
  fold_left (fun b x => (DataBucket.insert x b).2) (DataBucket.data bh) bl.

(** A table in which one full-depth bucket of capacity 2, holding 0 and 2,
    is shared by the slots 0, 2 and 6. *)
Definition stuck (s : ExtendibleHashMap) : Prop :=
  ∃ a,
    3 <= globalDepth s <= 30 ∧ dir_ok s
    ∧ buckets s !! 0%nat = Some (Some a)
    ∧ buckets s !! 2%nat = Some (Some a)
    ∧ buckets s !! 6%nat = Some (Some a)
    ∧ heap s !! a = Some (Cell (DataBucket.mk 2 (globalDepth s) [0; 2]) false).

(** The table of [main] after the insertions 1, 2, 3, 4, 5; the same
    after 4 is erased from the bucket of slot 0; and after the cell behind
    slot 2 (which is also the cell behind slot 0) is released. *)
Definition table_1_to_5 : ExtendibleHashMap :=
  EHM 2 2 [Some 0; Some 1; Some 0; Some 2]%nat
      [Cell (DataBucket.mk 2 1 [2; 4]) false;
       Cell (DataBucket.mk 2 2 [1; 5]) false;
       Cell (DataBucket.mk 2 2 [3]) false].
Definition table_erased_4 : ExtendibleHashMap :=
  EHM 2 2 [Some 0; Some 1; Some 0; Some 2]%nat
      [Cell (DataBucket.mk 2 1 [2]) false;
       Cell (DataBucket.mk 2 2 [1; 5]) false;
       Cell (DataBucket.mk 2 2 [3]) false].
Definition table_released : ExtendibleHashMap :=
  EHM 2 2 [Some 0; Some 1; Some 0; Some 2]%nat
      [Cell (DataBucket.mk 2 1 []) true;
       Cell (DataBucket.mk 2 2 [1; 5]) false;
       Cell (DataBucket.mk 2 2 [3]) false].

(** Three more tables of [main]: holding 1 and 2; after the insertions
    1..5 with 6 just put into the bucket shared by slots 0 and 2; and
    after the insertions 1, 2, 3. *)
Definition table_1_2 : ExtendibleHashMap :=
  EHM 0 2 [Some 0]%nat [Cell (DataBucket.mk 2 0 [1; 2]) false].
Definition table_1_2_3 : ExtendibleHashMap :=
  EHM 1 2 [Some 0; Some 1]%nat
      [Cell (DataBucket.mk 2 1 [2]) false;
       Cell (DataBucket.mk 2 1 [1; 3]) false].
Definition table_1_2_3_erased_3 : ExtendibleHashMap :=
  EHM 1 2 [Some 0; Some 1]%nat
      [Cell (DataBucket.mk 2 1 [2]) false;
       Cell (DataBucket.mk 2 1 [1]) false].

(** [live_dir], computed. *)
Definition live_dirb (s : ExtendibleHashMap) : bool :=
  forallb (fun p : ptr =>
             match p with
             | Some a => match heap s !! a with
                         | Some c => negb (released c)
                         | None => false
                         end
             | None => false
             end) (buckets s).

(** The table after [extend]. *)
Definition extended (s : ExtendibleHashMap) : ExtendibleHashMap :=
  EHM (globalDepth s + 1) (bucketSize s) (buckets s ++ buckets s) (heap s).

(** ** The invariant of the tables that the public operations produce *)

(** The pointer in directory slot [i]. *)
Definition slot (i : Z) (s : ExtendibleHashMap) : option ptr :=
  buckets s !! Z.to_nat i.

(** What holds of a table between two public operations, and also inside
    [add] while one bucket is over its capacity:
    - the directory has [2 ^ globalDepth] slots, each pointing to a live
      bucket of capacity [bucketSize];
    - a slot [i] with highest bit [2 ^ t] that does not repeat the pointer
      of slot [i - 2 ^ t] holds a bucket found only in slots congruent to
      [i] modulo [2 ^ (t + 1)];
    - in the upper half of the directory such a slot holds a bucket of
      local depth [globalDepth];
    - every key sits in the bucket of the slot [key mod 2 ^ globalDepth]. *)
Record struct_inv (s : ExtendibleHashMap) : Prop := {
  si_gd : 0 <= globalDepth s <= 30;
  si_dir : dir_ok s;
  si_cap : 0 < bucketSize s <= INT_MAX;
  si_live : ∀ i, 0 <= i < 2 ^ globalDepth s →
    ∃ a b, slot i s = Some (Some a)
           ∧ heap s !! a = Some (Cell b false)
           ∧ DataBucket.size b = bucketSize s;
  si_own : ∀ t i j,
    0 <= t → 2 ^ t <= i < 2 ^ (t + 1) → i < 2 ^ globalDepth s →
    0 <= j < 2 ^ globalDepth s →
    slot i s ≠ slot (i - 2 ^ t) s → slot j s = slot i s →
    j mod 2 ^ (t + 1) = i;
  si_depth : ∀ i a c,
    2 ^ (globalDepth s - 1) <= i < 2 ^ globalDepth s →
    slot i s ≠ slot (i - 2 ^ (globalDepth s - 1)) s →
    slot i s = Some (Some a) → heap s !! a = Some c →
    DataBucket.localDepth (obj c) = globalDepth s;
  si_addr : ∀ i a c key,
    0 <= i < 2 ^ globalDepth s →
    slot i s = Some (Some a) → heap s !! a = Some c →
    key ∈ DataBucket.data (obj c) →
    slot (key mod 2 ^ globalDepth s) s = Some (Some a)
}.

(** No bucket in the directory, except possibly cell [x], holds more keys
    than [bucketSize]. *)
Definition cap_inv_but (x : option nat) (s : ExtendibleHashMap) : Prop :=
  ∀ i a c, 0 <= i < 2 ^ globalDepth s →
    slot i s = Some (Some a) → heap s !! a = Some c → Some a ≠ x →
    Z.of_nat (length (DataBucket.data (obj c))) <= bucketSize s.

Definition table_inv (s : ExtendibleHashMap) : Prop :=
  struct_inv s ∧ cap_inv_but None s.

(** [key] is in the live bucket of the slot that [_getBucketIndex] gives. *)
Definition at_addr (key : Z) (s : ExtendibleHashMap) : Prop :=
  ∃ i a b, _getBucketIndex key s = Ok i
           ∧ vec_get i s = Ok (Some a)
           ∧ heap s !! a = Some (Cell b false)
           ∧ key ∈ DataBucket.data b.

(** What a returning [add] with [fuel] achieves on a table satisfying the
    invariant: the invariant again, the key at its address, and, when the
    bucket overflowed, all keys of that bucket at their addresses. *)
Definition add_keeps (fuel : nat) : Prop :=
  ∀ key s r s',
    table_inv s → add fuel key s = Ok (r, s') →
    table_inv s' ∧ at_addr key s'
    ∧ ∀ a b b',
        vec_get r s = Ok (Some a) → heap s !! a = Some (Cell b false) →
        DataBucket.insert key b = (2, b') →
        ∀ x, x ∈ DataBucket.data b' → at_addr x s'.

(** The tables that a program can build: constructed with a positive
    capacity, then changed by [add] and [remove] calls that return. *)
Inductive reachable : ExtendibleHashMap → Prop :=
  | reachable_create _globalDepth _size s :
      0 < _size <= INT_MAX →
      create _globalDepth _size = Ok s → reachable s
  | reachable_create0 _size s :
      0 < _size <= INT_MAX →
      create0 _size = Ok s → reachable s
  | reachable_add fuel key r s s' :
      reachable s → add fuel key s = Ok (r, s') → reachable s'
  | reachable_remove key s s' :
      reachable s → remove key s = Ok s' → reachable s'.

(** ** Keys, order and growth *)

(** Strictly ascending, as [std::set<int>] keeps its elements. *)
Fixpoint ascending (l : list Z) : bool :=
  match l with
  | [] => true
  | x :: l' => forallb (Z.ltb x) l' && ascending l'
  end.

(** Every bucket in the free store keeps its keys strictly ascending. *)
Definition ascending_heap (s : ExtendibleHashMap) : Prop :=
  Forall (fun c => ascending (DataBucket.data (obj c)) = true) (heap s).

(** [key] is in a live bucket that some directory slot points to
    ([present], as a proposition). *)
Definition stored (key : Z) (s : ExtendibleHashMap) : Prop :=
  ∃ i a b, buckets s !! i = Some (Some a)
           ∧ heap s !! a = Some (Cell b false)
           ∧ key ∈ DataBucket.data b.

(** [s'] has the depth of [s] or more, the same capacity, and every cell
    of [s], released or not as in [s], with the capacity it had. *)
Definition grows (s s' : ExtendibleHashMap) : Prop :=
  globalDepth s <= globalDepth s' ∧ bucketSize s' = bucketSize s
  ∧ ∀ a c, heap s !! a = Some c →
      ∃ c', heap s' !! a = Some c' ∧ released c' = released c
            ∧ DataBucket.size (obj c') = DataBucket.size (obj c).

(** Slot [j] without its highest bit: the slot that [extend] copied into
    slot [j]. *)
Definition parent (j : Z) : Z := j - 2 ^ Z.log2 j.

(** Slot [j] does not hold the bucket [a] any more that the slot it was
    copied from holds: a split has put a new bucket into slot [j]. *)
Definition diverged (a : nat) (s : ExtendibleHashMap) (j : Z) : Prop :=
  slot j s ≠ Some (Some a) ∧ slot (parent j) s = Some (Some a).

#[global] Instance diverged_dec a s j : Decision (diverged a s j) := and_dec _ _.

(** The number of slots that have diverged from the bucket [a]. *)
Definition diverged_count (a : nat) (s : ExtendibleHashMap) : Z :=
  Z.of_nat (length (filter (diverged a s) (seqZ 1 (2 ^ globalDepth s - 1)))).

(** The local depth of every bucket in the directory is at most the
    global depth, and at least the number of slots that have diverged
    from the bucket: every split that raises it gives one slot away, and
    every merge that lowers it takes one back. *)
Definition depth_inv (s : ExtendibleHashMap) : Prop :=
  ∀ i a c, 0 <= i < 2 ^ globalDepth s →
    slot i s = Some (Some a) → heap s !! a = Some c →
    diverged_count a s <= DataBucket.localDepth (obj c) <= globalDepth s.

(** How many nested calls of [add] an insertion can still need when it
    overflows a bucket of local depth [ld]: each nested overflow raises
    the global depth, or brings a local depth closer to it. *)
Definition rank (ld : Z) (s : ExtendibleHashMap) : Z :=
  32 * (30 - globalDepth s) + (globalDepth s - ld).

(** [rank] for the bucket in cell [a]. *)
Definition cell_rank (a : nat) (s : ExtendibleHashMap) : Z :=
  match heap s !! a with
  | Some c => rank (DataBucket.localDepth (obj c)) s
  | None => 0
  end.

(** [rank] for the bucket behind the slot of [key]. *)
Definition key_rank (key : Z) (s : ExtendibleHashMap) : Z :=
  match slot (key mod 2 ^ globalDepth s) s with
  | Some (Some a) => cell_rank a s
  | _ => 0
  end.

(** The ways in which an insertion ends: the nesting allowed by the fuel
    is used up (only when the fuel is not [enough]), the directory can not
    be doubled any more ([1 << 31]), a negative key (one of those that
    satisfy [Q]) gives a negative index, or it returns a value that
    satisfies [post]. *)
Definition ends {A} (enough : Prop) (Q : Z → Prop) (post : A → Prop)
    (r : result A) : Prop :=
  (r = OutOfFuel ∧ ¬ enough)
  ∨ r = Fault (BadShift 31)
  ∨ (∃ x i, Q x ∧ x < 0 ∧ i < 0 ∧ r = Fault (BadIndex i))
  ∨ ∃ v, r = Ok v ∧ post v.

(** [add] with [fuel], on a table that satisfies the invariants, ends in
    one of these ways, the negative key being the added one or one of the
    table, and fuel above the rank of the key's bucket being enough; the
    table it returns has its local depths bounded again. *)
Definition add_safe (fuel : nat) : Prop :=
  ∀ key s, table_inv s → depth_inv s →
    ends (key_rank key s < Z.of_nat fuel)
         (fun x => x = key ∨ stored x s) (fun v => depth_inv v.2)
         (add fuel key s).

(** The text of [print] for the directory entries [ps], numbered from
    [id + 1] on, read from the free store [h] without any check. *)
Fixpoint listing (id : Z) (n : Z) (ps : list ptr) (h : list cell) : string :=
  match ps with
  | [] => EmptyString
  | p :: rest =>
      print_bucket (id + 1) n
        (match p with
         | Some a => match h !! a with
                     | Some c => obj c
                     | None => DataBucket.mk 0 0 []
                     end
         | None => DataBucket.mk 0 0 []
         end)
      +:+ listing (id + 1) n rest h
  end.

(** The table of [main] after the insertions 0, 1, 2, 5, 9, 4, and the
    same after the insertion of 8: slot 4 has a new bucket, and the bucket
    that held 4 is behind no slot. *)
Definition table_before_8 : ExtendibleHashMap :=
  EHM 3 2 [Some 0; Some 1; Some 0; Some 2; Some 4; Some 3; Some 0; Some 2]%nat
      [Cell (DataBucket.mk 2 2 [0; 2]) false;
       Cell (DataBucket.mk 2 3 [1; 9]) false;
       Cell (DataBucket.mk 2 2 []) false;
       Cell (DataBucket.mk 2 3 [5]) false;
       Cell (DataBucket.mk 2 3 [4]) false].
Definition table_after_8 : ExtendibleHashMap :=
  EHM 4 2 [Some 0; Some 1; Some 0; Some 2; Some 5; Some 3; Some 0; Some 2;
           Some 6; Some 1; Some 0; Some 2; Some 5; Some 3; Some 0; Some 2]%nat
      [Cell (DataBucket.mk 2 4 [0; 2]) false;
       Cell (DataBucket.mk 2 3 [1; 9]) false;
       Cell (DataBucket.mk 2 2 []) false;
       Cell (DataBucket.mk 2 3 [5]) false;
       Cell (DataBucket.mk 2 3 [4]) false;
       Cell (DataBucket.mk 2 3 []) false;
       Cell (DataBucket.mk 2 4 [8]) false].

(** Three more tables: the new table of capacity 0; the table of [main]
    after the insertions 1, 2, 3 and the removal of 3; and after the
    insertions 1, 2, 3, 4. *)
Definition table_capacity_0 : ExtendibleHashMap :=
  EHM 0 0 [Some 0]%nat [Cell (DataBucket.mk 0 0 []) false].
Definition table_1_2_merged : ExtendibleHashMap :=
  EHM 0 2 [Some 0]%nat
      [Cell (DataBucket.mk 2 0 [1; 2]) false;
       Cell (DataBucket.mk 2 1 []) true].
Definition table_1_2_3_4 : ExtendibleHashMap :=
  EHM 1 2 [Some 0; Some 1]%nat
      [Cell (DataBucket.mk 2 1 [2; 4]) false;
       Cell (DataBucket.mk 2 1 [1; 3]) false].

(** * Properties *)

(** ** Basic facts about the primitives *)

Lemma bind_Ok {A B} (a : A) (k : A → result B) : (Ok a ≫= k) = k a.
Proof. reflexivity. Qed.

Lemma bind_inv_Ok {A B} (r : result A) (k : A → result B) (b : B) :
  (r ≫= k) = Ok b → ∃ a, r = Ok a ∧ k a = Ok b.
Proof. destruct r as [a| |]; simpl; intros H; try discriminate. eauto. Qed.

Lemma int_chk_Ok z : INT_MIN <= z <= INT_MAX → int_chk z = Ok z.
Proof.
  intros [H1 H2]. unfold int_chk.
  apply Z.leb_le in H1, H2. rewrite H1, H2. reflexivity.
Qed.

Lemma int_chk_inv z r : int_chk z = Ok r → r = z ∧ INT_MIN <= z <= INT_MAX.
Proof.
  unfold int_chk. destruct (INT_MIN <=? z) eqn:H1; simpl; try discriminate.
  destruct (z <=? INT_MAX) eqn:H2; try discriminate.
  intros [= <-]. apply Z.leb_le in H1, H2. auto.
Qed.

Lemma shl1_Ok n : 0 <= n < 31 → shl1 n = Ok (2 ^ n).
Proof.
  intros [H1 H2]. unfold shl1.
  apply Z.leb_le in H1. apply Z.ltb_lt in H2. rewrite H1, H2. reflexivity.
Qed.

Lemma shl1_inv n r : shl1 n = Ok r → r = 2 ^ n ∧ 0 <= n < 31.
Proof.
  unfold shl1. destruct (0 <=? n) eqn:H1; simpl; try discriminate.
  destruct (n <? 31) eqn:H2; try discriminate.
  intros [= <-]. apply Z.leb_le in H1. apply Z.ltb_lt in H2. auto.
Qed.

Lemma pow2_pos n : 0 <= n → 0 < 2 ^ n.
Proof. intros. apply Z.pow_pos_nonneg; lia. Qed.

Lemma pow2_le_30 n : 0 <= n <= 30 → 2 ^ n <= 2 ^ 30.
Proof. intros. apply Z.pow_le_mono_r; lia. Qed.

Lemma pow2_succ n : 0 <= n → 2 ^ (n + 1) = 2 * 2 ^ n.
Proof. intros. rewrite Z.pow_add_r by lia. lia. Qed.

Lemma pow2_pred n : 1 <= n → 2 ^ n = 2 * 2 ^ (n - 1).
Proof. intros. rewrite <- pow2_succ by lia. f_equal. lia. Qed.

Lemma to_int_to_size_t z : INT_MIN <= z <= INT_MAX → 0 <= z → to_int (to_size_t z) = z.
Proof.
  unfold INT_MIN, INT_MAX, to_int, to_size_t. intros H H0.
  rewrite (Z.mod_small z) by lia. rewrite Z.mod_small by lia. lia.
Qed.

Lemma vec_get_Ok i s p :
  0 <= i → buckets s !! Z.to_nat i = Some p → vec_get i s = Ok p.
Proof.
  intros Hi Hp. unfold vec_get, buckets_size.
  apply lookup_lt_Some in Hp as Hlt.
  replace (0 <=? i) with true by (symmetry; apply Z.leb_le; lia).
  replace (i <? Z.of_nat (length (buckets s))) with true
    by (symmetry; apply Z.ltb_lt; lia).
  simpl. rewrite Hp. reflexivity.
Qed.

Lemma vec_get_inv i s p :
  vec_get i s = Ok p → 0 <= i < buckets_size s ∧ buckets s !! Z.to_nat i = Some p.
Proof.
  unfold vec_get. destruct (0 <=? i) eqn:H1; simpl; try discriminate.
  destruct (i <? buckets_size s) eqn:H2; try discriminate.
  destruct (buckets s !! Z.to_nat i) eqn:H3; try discriminate.
  intros [= <-]. apply Z.leb_le in H1. apply Z.ltb_lt in H2. auto.
Qed.

Lemma vec_set_Ok i p s :
  0 <= i < buckets_size s →
  vec_set i p s = Ok (with_buckets (<[Z.to_nat i := p]> (buckets s)) s).
Proof.
  intros [H1 H2]. unfold vec_set.
  apply Z.leb_le in H1. apply Z.ltb_lt in H2. rewrite H1, H2. reflexivity.
Qed.

Lemma vec_set_inv i p s s' :
  vec_set i p s = Ok s' →
  0 <= i < buckets_size s ∧ s' = with_buckets (<[Z.to_nat i := p]> (buckets s)) s.
Proof.
  unfold vec_set. destruct (0 <=? i) eqn:H1; simpl; try discriminate.
  destruct (i <? buckets_size s) eqn:H2; try discriminate.
  intros [= <-]. apply Z.leb_le in H1. apply Z.ltb_lt in H2. auto.
Qed.

Lemma deref_Ok a s c :
  heap s !! a = Some c → released c = false → deref (Some a) s = Ok (obj c).
Proof. intros H1 H2. unfold deref. rewrite H1, H2. reflexivity. Qed.

Lemma deref_inv p s b :
  deref p s = Ok b →
  ∃ a, p = Some a ∧ heap s !! a = Some (Cell b false).
Proof.
  destruct p as [a|]; simpl; try discriminate.
  destruct (heap s !! a) as [[o r]|] eqn:H; try discriminate.
  simpl. destruct r; try discriminate. intros [= <-]. eauto.
Qed.

(** ** The directory after [extend] *)

Lemma extend_loop_spec oldDepth (B : list ptr) :
  ∀ count done i s,
    0 <= oldDepth < 31 →
    Z.of_nat (length B) = 2 ^ oldDepth →
    (done + count = length B)%nat →
    i = Z.of_nat (length B + done) →
    buckets s = B ++ take done B ++ replicate count None →
    extend_loop oldDepth count i s = Ok (with_buckets (B ++ B) s).
Proof.
  induction count as [|count IH]; intros done i s Hd HB Hsum -> Hs.
  - simpl. f_equal. destruct s; unfold with_buckets; simpl in *.
    rewrite Hs. rewrite take_ge by lia. simpl. rewrite app_nil_r. reflexivity.
  - simpl. unfold _getBucketIndex2. rewrite (shl1_Ok oldDepth) by lia.
    rewrite bind_Ok, bind_Ok.
    assert (Hrem : Z.rem (Z.of_nat (length B + done)) (2 ^ oldDepth) = Z.of_nat done).
    { rewrite Z.rem_mod_nonneg by lia. rewrite <- HB.
      rewrite Nat2Z.inj_add.
      rewrite <- (Z.mul_1_l (Z.of_nat (length B))) at 1.
      rewrite Z.add_comm, Z.mod_add by lia.
      apply Z.mod_small. lia. }
    rewrite Hrem.
    destruct (B !! done) as [p|] eqn:Hp;
      [|apply lookup_ge_None in Hp; lia].
    rewrite (vec_get_Ok _ _ p); [|lia|].
    2:{ rewrite Nat2Z.id, Hs. rewrite lookup_app_l by lia. exact Hp. }
    rewrite bind_Ok.
    rewrite vec_set_Ok.
    2:{ unfold buckets_size. rewrite Hs. rewrite !length_app, length_take, length_replicate. lia. }
    rewrite bind_Ok.
    rewrite (IH (S done)); try lia.
    + reflexivity.
    + simpl. rewrite Hs. rewrite Nat2Z.id.
      rewrite insert_app_r_alt by lia.
      rewrite insert_app_r_alt by (rewrite length_take; lia).
      rewrite length_take.
      replace (length B + done - length B - done `min` length B)%nat with 0%nat by lia.
      simpl. rewrite (take_S_r _ _ p) by exact Hp.
      rewrite <- !app_assoc. reflexivity.
Qed.

Lemma extend_spec s :
  dir_ok s → 0 <= globalDepth s < 30 →
  extend s = Ok (EHM (globalDepth s + 1) (bucketSize s)
                     (buckets s ++ buckets s) (heap s)).
Proof.
  intros Hdir Hgd. unfold dir_ok, buckets_size in Hdir. unfold extend.
  rewrite int_chk_Ok by (unfold INT_MIN, INT_MAX; lia).
  rewrite bind_Ok. rewrite (shl1_Ok (globalDepth s + 1)) by lia. rewrite bind_Ok.
  rewrite (shl1_Ok (globalDepth s)) by lia. rewrite bind_Ok.
  assert (Hpos := pow2_pos (globalDepth s) ltac:(lia)).
  rewrite (extend_loop_spec (globalDepth s) (buckets s) _ 0%nat).
  - reflexivity.
  - lia.
  - exact Hdir.
  - unfold buckets_size. simpl. rewrite length_resize.
    rewrite pow2_succ by lia. lia.
  - lia.
  - unfold buckets_size. simpl. rewrite length_resize.
    rewrite resize_ge by (rewrite pow2_succ by lia; lia).
    rewrite pow2_succ by lia. simpl. do 2 f_equal. lia.
Qed.

(** ** Runs from the table of [main] *)

(** C1.  The reference-counting invariant is not preserved by the public
    operations.  After the insertions 1, 2, 3, 4, 5, 9 into the table of
    [main] the invariant holds; the insertion of 6 then splits a bucket of
    local depth 1 in a directory of depth 3, and leaves that bucket with
    local depth 2 behind the three slots 0, 2 and 4.  And the removal of 4
    after the insertions 1..5 does not complete: it releases a bucket that
    two slots share and then uses it. *)
Theorem C1_refcount_invariant_not_preserved :
  observe refcount_inv
    (run_main 8 [Add 1; Add 2; Add 3; Add 4; Add 5; Add 9]) = Ok true
  ∧ observe (fun s => (refcount_inv s, globalDepth s, refs 0 s,
                       DataBucket.localDepth <$> stale 0 s))
      (run_main 8 [Add 1; Add 2; Add 3; Add 4; Add 5; Add 9; Add 6])
    = Ok (false, 3, [0; 2; 4]%nat, Some 2)
  ∧ observe refcount_inv (run_main 8 [Add 1; Add 2; Add 3; Add 4; Add 5]) = Ok true
  ∧ run_main 8 [Add 1; Add 2; Add 3; Add 4; Add 5; Remove 4]
    = Fault (UseAfterFree 0).
Proof. repeat apply conj; vm_compute; reflexivity. Qed.

(** C2.  [add] returns the index computed before any extension.  In the
    table of [main] holding 1 and 2, [add 3] overflows the only bucket,
    the directory is extended, and 3 ends in slot 1 (its address under
    the new global depth), while the call returns 0, a slot whose bucket
    does not hold 3. *)
Theorem C2_add_returns_stale_index :
  (s ← run_main 4 [Add 1; Add 2];
   '(r, s') ← add 4 3 s;
   Ok (r, _getBucketIndex 3 s', resides 3 r s', resides 3 1 s'))
  = Ok (0, Ok 1, false, true).
Proof. vm_compute. reflexivity. Qed.

(** C3.  Removing an absent key can merge and shrink.  After the
    insertions 0, 2, 4 and the removals 2, 0 the table of [main] has
    global depth 1 and two slots; 8 is in no bucket; [remove 8] merges the
    two buckets and halves the directory. *)
Theorem C3_remove_absent_key_changes_table :
  observe (fun s => (present 8 s, summary s))
    (run_main 4 [Add 0; Add 2; Add 4; Remove 2; Remove 0])
  = Ok (false,
        (1, [Some 0; Some 1]%nat,
         [(1, [4], false); (1, [], false); (2, [], true)]))
  ∧ observe summary
      (run_main 4 [Add 0; Add 2; Add 4; Remove 2; Remove 0; Remove 8])
    = Ok (0, [Some 0]%nat,
          [(0, [4], false); (1, [], true); (2, [], true)]).
Proof. apply conj; vm_compute; reflexivity. Qed.

(** C4.  The public operations do reach invalid shifts, indices and
    released buckets.  On the fresh table of [main] (global depth 0),
    [remove] computes [1 << (globalDepth - 1)] with the shift amount -1.
    With global depth 1, [add (-1)] indexes the directory at -1.  After
    the insertions 1..5, [remove 4] releases the bucket shared by slots 0
    and 2 and then decrements its local depth. *)
Theorem C4_operations_reach_invalid_states :
  run_main 1 [Remove 0] = Fault (BadShift (-1))
  ∧ (s ← main_table; getImageIndex 0 s) = Fault (BadShift (-1))
  ∧ run_main 4 [Add 1; Add 2; Add 3; Add (-1)] = Fault (BadIndex (-1))
  ∧ run_main 4 [Add 1; Add 2; Add 3; Remove (-1)] = Fault (BadIndex (-1))
  ∧ run_main 4 [Add 1; Add 2; Add 3; Add 4; Add 5; Remove 4]
    = Fault (UseAfterFree 0).
Proof. repeat apply conj; vm_compute; reflexivity. Qed.


(** ** One overflow: [extend] and the first statements of [splitImage] *)

Lemma add_S fuel key s :
  add (S fuel) key s
  = (bucketIndex ← _getBucketIndex key s;
     bucket ← vec_get bucketIndex s;
     b ← deref bucket s;
     let '(ret, b') := DataBucket.insert key b in
     let s1 := store bucket b' s in
     if ret =? 2 then
       s2 ← (if DataBucket.localDepth b' =? globalDepth s1
             then extend s1 else Ok s1);
       s3 ← splitImage_with (add fuel) bucketIndex s2;
       Ok (bucketIndex, s3)
     else Ok (bucketIndex, s1)).
Proof. reflexivity. Qed.

Lemma getBucketIndex_small key s :
  0 <= key < 2 ^ globalDepth s → 0 <= globalDepth s < 31 →
  _getBucketIndex key s = Ok key.
Proof.
  intros Hk Hgd. unfold _getBucketIndex, _getBucketIndex2.
  rewrite shl1_Ok by lia. rewrite bind_Ok.
  rewrite Z.rem_small by lia. reflexivity.
Qed.

Lemma vec_get_buckets i s s' : buckets s = buckets s' → vec_get i s = vec_get i s'.
Proof. intros H. unfold vec_get, buckets_size. rewrite H. reflexivity. Qed.

Lemma upper_image_spec half i s :
  0 <= i < half → buckets_size s = 2 * half → half <= 2 ^ 29 →
  upper_image half i s = Ok (i + half).
Proof.
  intros Hi Hs Hh. unfold upper_image.
  rewrite int_chk_Ok by (unfold INT_MIN, INT_MAX; lia).
  rewrite bind_Ok. f_equal. unfold to_size_t, to_int.
  rewrite (Z.mod_small (half - i)) by lia.
  rewrite Hs. rewrite (Z.mod_small (2 * half - (half - i))) by lia.
  rewrite Z.mod_small by lia. lia.
Qed.

Lemma splitImage_prelude readd splitIndex s a b :
  dir_ok s → 1 <= globalDepth s <= 30 →
  0 <= splitIndex < 2 ^ globalDepth s →
  let half := 2 ^ (globalDepth s - 1) in
  buckets s !! Z.to_nat (dataCopy_of half splitIndex) = Some (Some a) →
  heap s !! a = Some (Cell b false) →
  splitImage_with readd splitIndex s
  = (_ ← int_chk (DataBucket.localDepth b + 1);
     reinsert readd (DataBucket.data b)
       (split_state (newBucketIndex_of half splitIndex) a b s)).
Proof.
  intros Hdir Hgd Hidx half Hdc Ha.
  assert (Hhalf : 0 < half) by (apply pow2_pos; lia).
  assert (Hpow : 2 ^ globalDepth s = 2 * half) by (apply pow2_pred; lia).
  assert (Hh29 : half <= 2 ^ 29) by (apply Z.pow_le_mono_r; lia).
  unfold dir_ok in Hdir.
  unfold splitImage_with.
  rewrite int_chk_Ok by (unfold INT_MIN, INT_MAX; lia). rewrite bind_Ok.
  rewrite shl1_Ok by lia. rewrite bind_Ok. fold half.
  assert (Hnb : (if splitIndex <? half then upper_image half splitIndex s
                 else Ok (to_int (to_size_t splitIndex)))
                = Ok (newBucketIndex_of half splitIndex)).
  { unfold newBucketIndex_of. destruct (splitIndex <? half) eqn:Hlt.
    - apply Z.ltb_lt in Hlt. apply upper_image_spec; lia.
    - rewrite to_int_to_size_t; [reflexivity| unfold INT_MIN, INT_MAX; lia | lia]. }
  rewrite Hnb, bind_Ok.
  assert (Hdc' : (if splitIndex <? half then Ok splitIndex
                  else int_chk (splitIndex - half))
                 = Ok (dataCopy_of half splitIndex)).
  { unfold dataCopy_of. destruct (splitIndex <? half) eqn:Hlt; [reflexivity|].
    apply Z.ltb_ge in Hlt. apply int_chk_Ok. unfold INT_MIN, INT_MAX; lia. }
  rewrite Hdc', bind_Ok.
  assert (Hnbr : half <= newBucketIndex_of half splitIndex < 2 * half).
  { unfold newBucketIndex_of. destruct (splitIndex <? half) eqn:Hlt.
    - apply Z.ltb_lt in Hlt. lia.
    - apply Z.ltb_ge in Hlt. lia. }
  assert (Hdcr : 0 <= dataCopy_of half splitIndex < half).
  { unfold dataCopy_of. destruct (splitIndex <? half) eqn:Hlt.
    - apply Z.ltb_lt in Hlt. lia.
    - apply Z.ltb_ge in Hlt. lia. }
  unfold new_bucket.
  rewrite vec_set_Ok by (unfold buckets_size in *; simpl; lia).
  rewrite bind_Ok.
  erewrite vec_get_Ok; [| lia |].
  2:{ simpl. rewrite list_lookup_insert_ne by lia. exact Hdc. }
  rewrite bind_Ok.
  apply lookup_lt_Some in Ha as Hlt.
  erewrite (deref_Ok a _ (Cell b false)); [| |reflexivity].
  2:{ simpl. rewrite lookup_app_l by exact Hlt. exact Ha. }
  rewrite bind_Ok. simpl obj.
  destruct (int_chk (DataBucket.localDepth b + 1)) as [ld| |] eqn:Hchk;
    try reflexivity.
  apply int_chk_inv in Hchk as [-> _]. rewrite !bind_Ok.
  f_equal. unfold split_state, store, with_heap, with_buckets. simpl.
  rewrite list_insert_insert_eq. reflexivity.
Qed.


Lemma getImageIndex_lower splitIndex s :
  dir_ok s → 1 <= globalDepth s <= 30 →
  0 <= splitIndex < 2 ^ (globalDepth s - 1) →
  getImageIndex splitIndex s = Ok (splitIndex + 2 ^ (globalDepth s - 1)).
Proof.
  intros Hdir Hgd Hi. unfold getImageIndex.
  rewrite int_chk_Ok by (unfold INT_MIN, INT_MAX; lia). rewrite bind_Ok.
  rewrite shl1_Ok by lia. rewrite bind_Ok.
  replace (splitIndex <? 2 ^ (globalDepth s - 1)) with true
    by (symmetry; apply Z.ltb_lt; lia).
  apply upper_image_spec; [lia| |apply Z.pow_le_mono_r; lia].
  unfold dir_ok in Hdir. rewrite Hdir. apply pow2_pred. lia.
Qed.

Lemma getImageIndex_upper splitIndex s :
  1 <= globalDepth s <= 30 →
  2 ^ (globalDepth s - 1) <= splitIndex <= INT_MAX →
  getImageIndex splitIndex s = Ok (splitIndex - 2 ^ (globalDepth s - 1)).
Proof.
  intros Hgd Hi. unfold getImageIndex.
  assert (Hpos := pow2_pos (globalDepth s - 1) ltac:(lia)).
  rewrite int_chk_Ok by (unfold INT_MIN, INT_MAX; lia). rewrite bind_Ok.
  rewrite shl1_Ok by lia. rewrite bind_Ok.
  replace (splitIndex <? 2 ^ (globalDepth s - 1)) with false
    by (symmetry; apply Z.ltb_ge; lia).
  rewrite int_chk_Ok by (unfold INT_MIN, INT_MAX in *; lia). rewrite bind_Ok.
  rewrite to_int_to_size_t; [reflexivity|unfold INT_MIN, INT_MAX in *; lia|lia].
Qed.



(** ** The steps of [remove] *)

Lemma set_find_insert x y l :
  set_find x (set_insert y l) = (x =? y) || set_find x l.
Proof.
  induction l as [|z l IH]; simpl.
  - reflexivity.
  - destruct (y <? z) eqn:Hlt; simpl; [reflexivity|].
    destruct (y =? z) eqn:Heq; simpl.
    + apply Z.eqb_eq in Heq. subst.
      destruct (x =? z); reflexivity.
    + rewrite IH. destruct (x =? y), (x =? z); reflexivity.
Qed.

Lemma insert_snd_fields x b :
  DataBucket.size (DataBucket.insert x b).2 = DataBucket.size b
  ∧ DataBucket.localDepth (DataBucket.insert x b).2 = DataBucket.localDepth b
  ∧ ∀ y, set_find y (DataBucket.data (DataBucket.insert x b).2)
         = (y =? x) || set_find y (DataBucket.data b).
Proof.
  unfold DataBucket.insert.
  destruct (set_find x (DataBucket.data b)) eqn:Hf; simpl.
  - repeat split. intros y. destruct (y =? x) eqn:E; [|reflexivity].
    apply Z.eqb_eq in E. subst. exact Hf.
  - destruct (_ <=? _); simpl; repeat split; intros y; apply set_find_insert.
Qed.

Lemma merged_bucket_fields bl bh :
  DataBucket.size (merged_bucket bl bh) = DataBucket.size bl
  ∧ DataBucket.localDepth (merged_bucket bl bh) = DataBucket.localDepth bl
  ∧ ∀ y, set_find y (DataBucket.data (merged_bucket bl bh))
         = set_find y (DataBucket.data bl) || set_find y (DataBucket.data bh).
Proof.
  unfold merged_bucket. generalize (DataBucket.data bh) as l. intros l.
  revert bl. induction l as [|x l IH]; intros bl; simpl.
  - repeat split. intros y. rewrite orb_false_r. reflexivity.
  - destruct (IH (DataBucket.insert x bl).2) as (H1 & H2 & H3).
    destruct (insert_snd_fields x bl) as (G1 & G2 & G3).
    rewrite H1, H2, G1, G2. repeat split.
    intros y. rewrite H3, G3.
    destruct (y =? x), (set_find y (DataBucket.data bl)), (set_find y l); reflexivity.
Qed.

Lemma merge_loop_spec elements : ∀ bucketIndex s pl bl,
  vec_get bucketIndex s = Ok (Some pl) →
  heap s !! pl = Some (Cell bl false) →
  merge_loop elements bucketIndex s
  = Ok (store (Some pl)
          (fold_left (fun b x => (DataBucket.insert x b).2) elements bl) s).
Proof.
  induction elements as [|x l IH]; intros i s pl bl Hget Hpl; simpl.
  - f_equal. destruct s; unfold with_heap; simpl in *.
    rewrite list_insert_id by exact Hpl. reflexivity.
  - rewrite Hget, bind_Ok. rewrite (deref_Ok pl s _ Hpl) by reflexivity.
    rewrite bind_Ok. simpl obj.
    apply lookup_lt_Some in Hpl as Hlt.
    rewrite (IH i _ pl (DataBucket.insert x bl).2).
    + f_equal. unfold store, with_heap. simpl.
      rewrite list_insert_insert_eq. reflexivity.
    + rewrite <- Hget. apply vec_get_buckets. reflexivity.
    + simpl. apply list_lookup_insert_eq. exact Hlt.
Qed.

Lemma merge_distinct lo hi e pl ph bl bh :
  lo ≠ hi →
  vec_get lo e = Ok (Some pl) → vec_get hi e = Ok (Some ph) →
  pl ≠ ph →
  heap e !! pl = Some (Cell bl false) → heap e !! ph = Some (Cell bh false) →
  merge lo hi e
  = (ld ← int_chk (DataBucket.localDepth bl - 1);
     Ok (EHM (globalDepth e) (bucketSize e)
           (<[Z.to_nat hi := Some pl]> (buckets e))
           (<[pl := Cell (DataBucket.with_localDepth ld (merged_bucket bl bh)) false]>
              (<[ph := Cell (DataBucket.with_data [] bh) true]> (heap e))))).
Proof.
  intros Hne Hlo Hhi Hp Hpl Hph.
  apply lookup_lt_Some in Hpl as Hltl. apply lookup_lt_Some in Hph as Hlth.
  destruct (vec_get_inv _ _ _ Hlo) as [Hlor Hlo'].
  destruct (vec_get_inv _ _ _ Hhi) as [Hhir Hhi'].
  unfold merge, merge_move.
  rewrite Hhi, bind_Ok. rewrite (deref_Ok ph e _ Hph) by reflexivity.
  rewrite bind_Ok. simpl obj.
  rewrite (merge_loop_spec _ lo e pl bl Hlo Hpl). rewrite bind_Ok.
  fold (merged_bucket bl bh).
  unfold merge_release.
  rewrite (vec_get_buckets hi _ e) by reflexivity. rewrite Hhi, bind_Ok.
  unfold delete.
  erewrite (deref_Ok ph _ (Cell bh false)); [| |reflexivity].
  2:{ simpl. rewrite list_lookup_insert_ne by auto. exact Hph. }
  rewrite !bind_Ok. simpl obj.
  unfold merge_repoint.
  rewrite (vec_get_buckets lo _ e) by reflexivity. rewrite Hlo, bind_Ok.
  rewrite vec_set_Ok by (unfold buckets_size in *; simpl; lia).
  rewrite bind_Ok.
  unfold merge_decrement.
  erewrite (vec_get_Ok lo _ (Some pl)); [|lia|].
  2:{ simpl. rewrite list_lookup_insert_ne by lia. exact Hlo'. }
  rewrite bind_Ok.
  erewrite (deref_Ok pl _ (Cell (merged_bucket bl bh) false)); [| |reflexivity].
  2:{ simpl. rewrite list_lookup_insert_ne by auto.
      apply list_lookup_insert_eq. exact Hltl. }
  rewrite bind_Ok. simpl obj.
  destruct (merged_bucket_fields bl bh) as (_ & Hmld & _). rewrite Hmld.
  destruct (int_chk (DataBucket.localDepth bl - 1)) as [ld| |]; try reflexivity.
  rewrite !bind_Ok. f_equal.
  unfold store, with_heap, with_buckets. simpl. f_equal.
  rewrite (list_insert_insert_ne (heap e) ph pl) by auto.
  rewrite list_insert_insert_eq. reflexivity.
Qed.

Lemma live_dir_get s i p :
  live_dir s → buckets s !! i = Some p →
  ∃ a b, p = Some a ∧ heap s !! a = Some (Cell b false)
         ∧ vec_get (Z.of_nat i) s = Ok (Some a)
         ∧ deref (Some a) s = Ok b
         ∧ depth_at i s = Some (DataBucket.localDepth b).
Proof.
  intros Hlive Hp. destruct (Hlive i p Hp) as (a & b & -> & Ha).
  exists a, b. repeat split; auto.
  - apply vec_get_Ok; [lia|]. rewrite Nat2Z.id. exact Hp.
  - apply (deref_Ok a s _ Ha). reflexivity.
  - unfold depth_at. rewrite Hp, Ha. reflexivity.
Qed.

Lemma depths_equal_loop_spec s d0 :
  live_dir s → depth_at 0 s = Some d0 →
  ∀ count i,
    (i + count = length (buckets s))%nat →
    depths_equal_loop count (Z.of_nat i) s
    = Ok (forallb (fun j => bool_decide (depth_at j s = Some d0)) (seq i count)).
Proof.
  intros Hlive H0 count. induction count as [|count IH]; intros i Hlen.
  - reflexivity.
  - simpl.
    destruct (buckets s !! i) as [p|] eqn:Hp;
      [|apply lookup_ge_None in Hp; lia].
    destruct (live_dir_get s i p Hlive Hp) as (a & b & -> & Ha & Hget & Hd & Hdep).
    destruct (buckets s !! 0%nat) as [p0|] eqn:Hp0;
      [|apply lookup_ge_None in Hp0; lia].
    destruct (live_dir_get s 0 p0 Hlive Hp0) as (a0 & b0 & -> & Ha0 & Hget0 & Hd0 & Hdep0).
    rewrite Hget, bind_Ok, Hd, bind_Ok. change (Z.of_nat 0) with 0 in Hget0.
    rewrite Hget0, bind_Ok, Hd0, bind_Ok.
    rewrite Hdep. rewrite H0 in Hdep0. injection Hdep0 as <-.
    destruct (DataBucket.localDepth b =? d0) eqn:Heq.
    + apply Z.eqb_eq in Heq. rewrite Heq.
      rewrite bool_decide_eq_true_2 by reflexivity. simpl.
      replace (Z.of_nat i + 1) with (Z.of_nat (S i)) by lia.
      apply IH. lia.
    + apply Z.eqb_neq in Heq.
      rewrite bool_decide_eq_false_2 by congruence. reflexivity.
Qed.

Lemma reduceDirectory_spec s :
  dir_ok s → 1 <= globalDepth s <= 31 →
  reduceDirectory s = Ok (halved s).
Proof.
  intros Hdir Hgd. unfold reduceDirectory.
  rewrite int_chk_Ok by (unfold INT_MIN, INT_MAX; lia). rewrite bind_Ok.
  rewrite shl1_Ok by lia. rewrite bind_Ok.
  unfold halved, with_buckets, with_globalDepth. simpl. f_equal. f_equal.
  apply resize_le. unfold dir_ok, buckets_size in Hdir.
  assert (2 ^ (globalDepth s - 1) <= 2 ^ globalDepth s)
    by (apply Z.pow_le_mono_r; lia).
  lia.
Qed.

Lemma shrink_check_spec s :
  live_dir s → dir_ok s → 1 <= globalDepth s <= 31 →
  shrink_check s
  = Ok (if all_depths (globalDepth s - 1) s then halved s else s).
Proof.
  intros Hlive Hdir Hgd.
  assert (Hpos := pow2_pos (globalDepth s) ltac:(lia)).
  unfold dir_ok, buckets_size in Hdir.
  destruct (buckets s !! 0%nat) as [p0|] eqn:Hp0;
    [|apply lookup_ge_None in Hp0; lia].
  destruct (live_dir_get s 0 p0 Hlive Hp0) as (a0 & b0 & -> & Ha0 & Hget0 & Hd0 & Hdep0).
  change (Z.of_nat 0) with 0 in Hget0.
  unfold shrink_check.
  replace (Z.to_nat (buckets_size s - 1)) with (length (buckets s) - 1)%nat
    by (unfold buckets_size; lia).
  rewrite (depths_equal_loop_spec s _ Hlive Hdep0 _ 1%nat) by lia.
  rewrite bind_Ok.
  unfold all_depths.
  replace (length (buckets s)) with (S (length (buckets s) - 1)) at 2 by lia.
  simpl seq. simpl forallb. rewrite Hdep0.
  destruct (decide (globalDepth s - 1 = DataBucket.localDepth b0)) as [Heq|Hne].
  - rewrite <- Heq. rewrite bool_decide_eq_true_2 by reflexivity. simpl.
    destruct (forallb _ _) eqn:Hall; [|reflexivity].
    rewrite int_chk_Ok by (unfold INT_MIN, INT_MAX; lia). rewrite bind_Ok.
    rewrite Hget0, bind_Ok, Hd0, bind_Ok.
    rewrite <- Heq, Z.eqb_refl. apply reduceDirectory_spec; auto.
  - rewrite (bool_decide_eq_false_2 (Some _ = Some _)) by congruence. simpl.
    destruct (forallb _ _) eqn:Hall; [|reflexivity].
    rewrite int_chk_Ok by (unfold INT_MIN, INT_MAX; lia). rewrite bind_Ok.
    rewrite Hget0, bind_Ok, Hd0, bind_Ok.
    replace (globalDepth s - 1 =? DataBucket.localDepth b0) with false
      by (symmetry; apply Z.eqb_neq; exact Hne).
    reflexivity.
Qed.

Lemma at_most_half_spec i s :
  live_dir s → 0 <= i < buckets_size s →
  at_most_half i s = Ok (keys_at i s <=? to_size_t (Z.quot (bucketSize s) 2)).
Proof.
  intros Hlive Hi. unfold at_most_half, keys_at.
  destruct (buckets s !! Z.to_nat i) as [p|] eqn:Hp;
    [|apply lookup_ge_None in Hp; unfold buckets_size in Hi; lia].
  destruct (live_dir_get s _ p Hlive Hp) as (a & b & -> & Ha & Hget & Hd & _).
  rewrite Z2Nat.id in Hget by lia.
  rewrite Hget, bind_Ok, Hd, bind_Ok, Ha. reflexivity.
Qed.

Lemma remove_erase_inv key s bucketIndex image e :
  dir_ok s →
  remove_erase key s = Ok (bucketIndex, image, e) →
  let half := 2 ^ (globalDepth s - 1) in
  1 <= globalDepth s <= 30
  ∧ bucketIndex = Z.rem key (2 ^ globalDepth s)
  ∧ 0 <= bucketIndex < 2 ^ globalDepth s
  ∧ image = (if bucketIndex <? half then bucketIndex + half else bucketIndex - half)
  ∧ ∃ a b, buckets s !! Z.to_nat bucketIndex = Some (Some a)
           ∧ heap s !! a = Some (Cell b false)
           ∧ e = store (Some a) (DataBucket.erase key b) s.
Proof.
  intros Hdir Herase half. unfold remove_erase in Herase.
  apply bind_inv_Ok in Herase as (i & Hi & Herase).
  apply bind_inv_Ok in Herase as (j & Hj & Herase).
  apply bind_inv_Ok in Herase as (p & Hget & Herase).
  apply bind_inv_Ok in Herase as (b & Hb & Herase).
  injection Herase as <- <- <-.
  unfold _getBucketIndex, _getBucketIndex2 in Hi.
  apply bind_inv_Ok in Hi as (m & Hm & Hi). injection Hi as <-.
  apply shl1_inv in Hm as [-> Hgd].
  apply vec_get_inv in Hget as [Hr Hp].
  apply deref_inv in Hb as (a & -> & Ha).
  assert (Hgd1 : 1 <= globalDepth s).
  { unfold getImageIndex in Hj.
    apply bind_inv_Ok in Hj as (x & Hx & Hj). apply int_chk_inv in Hx as [-> _].
    apply bind_inv_Ok in Hj as (y & Hy & _). apply shl1_inv in Hy. lia. }
  unfold dir_ok in Hdir. rewrite Hdir in Hr.
  assert (Hhalf : 0 < half) by (apply pow2_pos; lia).
  assert (Hpow : 2 ^ globalDepth s = 2 * half) by (apply pow2_pred; lia).
  assert (H30 : 2 ^ globalDepth s <= 2 ^ 30) by (apply pow2_le_30; lia).
  split; [lia|]. split; [reflexivity|]. split; [exact Hr|]. split.
  - destruct (_ <? half) eqn:Hlt.
    + apply Z.ltb_lt in Hlt.
      rewrite getImageIndex_lower in Hj by (auto; fold half; lia).
      injection Hj as <-. reflexivity.
    + apply Z.ltb_ge in Hlt.
      rewrite getImageIndex_upper in Hj by (fold half; unfold INT_MAX; lia).
      injection Hj as <-. reflexivity.
  - exists a, b. auto.
Qed.

(** C8.  In the table of [main] after the insertions 1, 2, 3, 4, 5,
    [remove 4] takes the merge branch: slot 0 and its image, slot 2,
    differ, and both lead to a single key, which is at most
    [bucketSize / 2].  The survivor, [buckets[0]], and the bucket to
    release, [buckets[2]], are one and the same bucket, cell 0.  The move
    loop of the merge changes nothing; its [delete] releases the survivor
    itself; slot 2 is repointed to it; and the decrement of the survivor's
    local depth finds the bucket released.  [remove] returns no table:
    there is no surviving bucket that holds the keys of both, one local
    depth lower. *)
Theorem C8_merge_releases_the_survivor :
  run_main 4 [Add 1; Add 2; Add 3; Add 4; Add 5] = Ok table_1_to_5
  ∧ remove_erase 4 table_1_to_5 = Ok (0, 2, table_erased_4)
  ∧ merge_condition 0 2 table_erased_4 = Ok true
  ∧ vec_get (Z.min 0 2) table_erased_4 = Ok (Some 0%nat)
  ∧ vec_get (Z.max 0 2) table_erased_4 = Ok (Some 0%nat)
  ∧ (s1 ← merge_move 0 2 table_erased_4;
     s2 ← merge_release 2 s1;
     merge_repoint 0 2 s2) = Ok table_released
  ∧ vec_get 0 table_released = Ok (Some 0%nat)
  ∧ vec_get 2 table_released = Ok (Some 0%nat)
  ∧ deref (Some 0%nat) table_released = Fault (UseAfterFree 0)
  ∧ merge 0 2 table_erased_4 = Fault (UseAfterFree 0)
  ∧ remove 4 table_1_to_5 = Fault (UseAfterFree 0)
  ∧ ¬ (∃ s', remove 4 table_1_to_5 = Ok s').
Proof.
  repeat apply conj; try (vm_compute; reflexivity).
  intros [s' H]. vm_compute in H. discriminate.
Qed.

(** X27.  [remove], once the key is erased from the bucket of its slot
    ([remove_erase] gives the slot, its image and the table [e] after the
    erase), in a directory [e] all of whose slots point to live buckets
    (as it is when [remove] is called on a reachable table, see
    [reachable_erase_live]).
    - The merge branch is taken exactly when the image differs from the
      slot and both slots lead to at most [bucketSize / 2] keys.
    - [remove] is: at most one merge, of the smaller index [lo] with the
      larger [hi], followed by the shrink check.
    - When the two slots hold different buckets, the merge leaves the
      global depth and every slot but [hi] as they were, makes [hi] point
      to the bucket of [lo], releases the bucket that [hi] held, and
      leaves in the bucket of [lo] the keys of both, one local depth
      lower; no other cell changes.  (Nothing is said here of two slots
      that share one bucket.)
    - The shrink check, on a directory [m] of live buckets, halves the
      directory and decrements the global depth exactly when every slot
      leads to local depth [globalDepth - 1]; otherwise it leaves [m]. *)
Theorem X27_remove_merges_once_then_shrinks key s bucketIndex image e :
  remove_erase key s = Ok (bucketIndex, image, e) →
  live_dir e → dir_ok e →
  let lo := Z.min bucketIndex image in
  let hi := Z.max bucketIndex image in
  let fits i := keys_at i e <=? to_size_t (Z.quot (bucketSize e) 2) in
  let c := negb (image =? bucketIndex) && fits bucketIndex && fits image in
  merge_condition bucketIndex image e = Ok c
  ∧ remove key s = (m ← (if c then merge lo hi e else Ok e); shrink_check m)
  ∧ (∀ pl ph bl bh,
       lo ≠ hi →
       vec_get lo e = Ok (Some pl) → vec_get hi e = Ok (Some ph) →
       pl ≠ ph →
       deref (Some pl) e = Ok bl → deref (Some ph) e = Ok bh →
       INT_MIN < DataBucket.localDepth bl <= INT_MAX →
       ∃ m, merge lo hi e = Ok m
         ∧ globalDepth m = globalDepth e
         ∧ buckets_size m = buckets_size e
         ∧ vec_get hi m = Ok (Some pl)
         ∧ (∀ i, i ≠ hi → vec_get i m = vec_get i e)
         ∧ heap m !! ph = Some (Cell (DataBucket.with_data [] bh) true)
         ∧ (∃ bm, deref (Some pl) m = Ok bm
              ∧ DataBucket.localDepth bm = DataBucket.localDepth bl - 1
              ∧ DataBucket.size bm = DataBucket.size bl
              ∧ ∀ x, set_find x (DataBucket.data bm)
                     = set_find x (DataBucket.data bl)
                       || set_find x (DataBucket.data bh))
         ∧ (∀ a, a ≠ pl → a ≠ ph → heap m !! a = heap e !! a))
  ∧ (∀ m, live_dir m → dir_ok m → 1 <= globalDepth m <= 31 →
       shrink_check m
       = Ok (if all_depths (globalDepth m - 1) m then halved m else m)).
Proof.
  intros Herase Hlive Hdir lo hi fits c.
  assert (Hrange : 0 <= bucketIndex < buckets_size e ∧ 0 <= image < buckets_size e).
  { assert (Hds : dir_ok s ∧ buckets_size e = 2 ^ globalDepth s).
    { unfold remove_erase in Herase.
      apply bind_inv_Ok in Herase as (i & _ & Herase).
      apply bind_inv_Ok in Herase as (j & _ & Herase).
      apply bind_inv_Ok in Herase as (p & _ & Herase).
      apply bind_inv_Ok in Herase as (b & _ & Herase).
      injection Herase as <- <- <-. unfold dir_ok in *.
      destruct p; simpl in *; auto. }
    destruct Hds as [Hds Hsz].
    destruct (remove_erase_inv key s bucketIndex image e Hds Herase)
      as (Hgd & _ & Hr & Him & _).
    rewrite Hsz.
    assert (0 < 2 ^ (globalDepth s - 1)) by (apply pow2_pos; lia).
    assert (2 ^ globalDepth s = 2 * 2 ^ (globalDepth s - 1)) by (apply pow2_pred; lia).
    split; [exact Hr|]. rewrite Him.
    destruct (_ <? _) eqn:Hlt;
      [apply Z.ltb_lt in Hlt|apply Z.ltb_ge in Hlt]; lia. }
  destruct Hrange as [Hidx Himg].
  assert (Hcond : merge_condition bucketIndex image e = Ok c).
  { unfold merge_condition, c.
    destruct (image =? bucketIndex); [reflexivity|]. simpl.
    rewrite (at_most_half_spec bucketIndex e Hlive Hidx), bind_Ok. fold (fits bucketIndex).
    destruct (fits bucketIndex); [|reflexivity]. simpl.
    apply at_most_half_spec; auto. }
  split; [exact Hcond|].
  split.
  { unfold remove. rewrite Herase, bind_Ok. rewrite Hcond, bind_Ok.
    destruct c; [|reflexivity].
    unfold lo, hi. destruct (bucketIndex >? image) eqn:Hgt.
    - apply Z.gtb_lt in Hgt. rewrite Z.min_r, Z.max_l by lia. reflexivity.
    - rewrite Z.gtb_ltb in Hgt. apply Z.ltb_ge in Hgt.
      rewrite Z.min_l, Z.max_r by lia. reflexivity. }
  split.
  { intros pl ph bl bh Hne Hlo Hhi Hp Hbl Hbh Hld.
    apply deref_inv in Hbl as (? & [= <-] & Hpl).
    apply deref_inv in Hbh as (? & [= <-] & Hph).
    apply lookup_lt_Some in Hpl as Hltl. apply lookup_lt_Some in Hph as Hlth.
    destruct (vec_get_inv _ _ _ Hhi) as [Hhir Hhi'].
    eexists. split.
    { rewrite (merge_distinct lo hi e pl ph bl bh); auto.
      rewrite int_chk_Ok by (unfold INT_MIN, INT_MAX in *; lia). reflexivity. }
    destruct (merged_bucket_fields bl bh) as (Hmsz & Hmld & Hmdata).
    simpl. repeat split.
    - unfold buckets_size. simpl. rewrite length_insert. reflexivity.
    - apply vec_get_Ok; [lia|]. simpl. apply list_lookup_insert_eq.
      unfold buckets_size in Hhir. lia.
    - intros i Hi. unfold vec_get, buckets_size. simpl. rewrite length_insert.
      destruct ((0 <=? i) && (i <? Z.of_nat (length (buckets e)))) eqn:Hr; [|reflexivity].
      apply andb_true_iff in Hr as [H0 _]. apply Z.leb_le in H0.
      rewrite list_lookup_insert_ne by lia. reflexivity.
    - rewrite list_lookup_insert_ne by auto. apply list_lookup_insert_eq. exact Hlth.
    - eexists. split.
      + unfold deref. simpl. rewrite list_lookup_insert_eq; [reflexivity|].
        rewrite length_insert. exact Hltl.
      + simpl. repeat split; auto.
    - intros a Hal Hah. rewrite !list_lookup_insert_ne by auto. reflexivity. }
  intros m Hlm Hdm Hgm. apply shrink_check_spec; auto.
Qed.

(** ** An insertion that never completes *)

Lemma add_plain fuel key s a b b' ret :
  0 <= key < 2 ^ globalDepth s → 0 <= globalDepth s < 31 →
  buckets s !! Z.to_nat key = Some (Some a) →
  heap s !! a = Some (Cell b false) →
  DataBucket.insert key b = (ret, b') → ret ≠ 2 →
  add (S fuel) key s = Ok (key, store (Some a) b' s).
Proof.
  intros Hk Hgd Hslot Ha Hins Hret. rewrite add_S.
  rewrite getBucketIndex_small by lia. rewrite bind_Ok.
  rewrite (vec_get_Ok key s (Some a)) by (auto; lia). rewrite bind_Ok.
  rewrite (deref_Ok a s _ Ha) by reflexivity. rewrite bind_Ok. simpl obj.
  rewrite Hins. cbv zeta.
  replace (ret =? 2) with false by (symmetry; apply Z.eqb_neq; exact Hret).
  reflexivity.
Qed.

Lemma stuck_add fuel : ∀ s,
  stuck s →
  add fuel 6 s = OutOfFuel ∨ add fuel 6 s = Fault (BadShift 31).
Proof.
  induction fuel as [|n IH]; intros s (a & Hgd & Hdir & H0 & H2 & H6 & Ha).
  { left. reflexivity. }
  assert (H8 : 2 ^ 3 <= 2 ^ globalDepth s) by (apply Z.pow_le_mono_r; lia).
  change (2 ^ 3) with 8 in H8.
  set (d := globalDepth s) in *.
  set (b' := DataBucket.mk 2 d [0; 2; 6]).
  set (s1 := store (Some a) b' s).
  assert (Hadd : add (S n) 6 s
                 = (s2 ← extend s1;
                    s3 ← splitImage_with (add n) 6 s2; Ok (6, s3))).
  { rewrite add_S. rewrite getBucketIndex_small by (fold d; lia).
    rewrite bind_Ok.
    rewrite (vec_get_Ok 6 s (Some a)) by (auto; lia). rewrite bind_Ok.
    rewrite (deref_Ok a s _ Ha) by reflexivity. rewrite bind_Ok.
    simpl obj.
    change (DataBucket.insert 6 (DataBucket.mk 2 d [0; 2])) with (2, b').
    cbv zeta iota beta. fold s1. change (2 =? 2) with true. cbv iota.
    change (DataBucket.localDepth b') with d.
    replace (globalDepth s1) with d by (unfold s1; reflexivity).
    rewrite Z.eqb_refl. reflexivity. }
  rewrite Hadd. clear Hadd.
  assert (Hdir1 : dir_ok s1) by exact Hdir.
  destruct (decide (d = 30)) as [H30|H30].
  { right. unfold extend.
    replace (globalDepth s1) with 30 by (unfold s1; simpl; fold d; lia).
    reflexivity. }
  rewrite (extend_spec s1 Hdir1) by (unfold s1; simpl; fold d; lia).
  rewrite bind_Ok.
  set (s2 := EHM _ _ _ _).
  apply lookup_lt_Some in Ha as Halt.
  assert (Hlen : Z.of_nat (length (buckets s)) = 2 ^ d) by exact Hdir.
  assert (Hdir2 : dir_ok s2).
  { unfold dir_ok, buckets_size, s2, s1. simpl. fold d.
    rewrite length_app, pow2_succ by lia. lia. }
  assert (Hhalf : 2 ^ (globalDepth s2 - 1) = 2 ^ d).
  { unfold s2, s1. simpl. fold d. f_equal. lia. }
  assert (Hslot : ∀ i, (i < 8)%nat → buckets s !! i = Some (Some a) →
                  (buckets s ++ buckets s) !! i = Some (Some a)).
  { intros i Hi Hs. rewrite lookup_app_l by lia. exact Hs. }
  rewrite (splitImage_prelude (add n) 6 s2 a b').
  2: exact Hdir2.
  2: unfold s2, s1; simpl; fold d; lia.
  2: unfold s2, s1; simpl; fold d; rewrite pow2_succ by lia; lia.
  2:{ rewrite Hhalf. unfold dataCopy_of.
      replace (6 <? 2 ^ d) with true by (symmetry; apply Z.ltb_lt; lia).
      unfold s2, s1. simpl. apply (Hslot 6%nat); [lia|exact H6]. }
  2:{ unfold s2, s1. simpl. apply list_lookup_insert_eq. exact Halt. }
  rewrite int_chk_Ok by (unfold b', INT_MIN, INT_MAX; simpl; lia).
  rewrite bind_Ok.
  rewrite Hhalf. unfold newBucketIndex_of.
  replace (6 <? 2 ^ d) with true by (symmetry; apply Z.ltb_lt; lia).
  set (t := split_state _ _ _ _).
  assert (Hgt : globalDepth t = d + 1) by reflexivity.
  assert (Hbt : ∀ i, (i < 8)%nat → buckets s !! i = Some (Some a) →
                buckets t !! i = Some (Some a)).
  { intros i Hi Hs. unfold t, split_state, s2, s1. simpl.
    rewrite list_lookup_insert_ne by lia. apply Hslot; auto. }
  assert (Hat : heap t !! a = Some (Cell (DataBucket.mk 2 (d + 1) []) false)).
  { unfold t, split_state, s2, s1. simpl. apply list_lookup_insert_eq.
    rewrite length_app, length_insert. lia. }
  assert (Hp1 : 2 ^ (d + 1) = 2 * 2 ^ d) by (apply pow2_succ; lia).
  (* the loop: 0, 2, then 6 *)
  cbn [DataBucket.data b' reinsert].
  rewrite (getBucketIndex_small 0 t) by (rewrite Hgt; lia). rewrite bind_Ok.
  rewrite (vec_get_Ok 0 t (Some a)); [|lia|apply (Hbt 0%nat); [lia|exact H0]].
  rewrite bind_Ok.
  destruct n as [|m]; [left; reflexivity|].
  rewrite (add_plain m 0 t a (DataBucket.mk 2 (d + 1) []) (DataBucket.mk 2 (d + 1) [0]) 0).
  2: rewrite Hgt; lia.
  2: rewrite Hgt; lia.
  2: apply (Hbt 0%nat); [lia|exact H0].
  2: exact Hat.
  2: reflexivity.
  2: lia.
  rewrite bind_Ok.
  set (t1 := store _ _ t).
  assert (Hgt1 : globalDepth t1 = d + 1) by reflexivity.
  assert (Hat1 : heap t1 !! a = Some (Cell (DataBucket.mk 2 (d + 1) [0]) false)).
  { unfold t1. simpl. apply list_lookup_insert_eq.
    apply lookup_lt_Some in Hat. exact Hat. }
  cbn [reinsert].
  rewrite (getBucketIndex_small 2 t1) by (rewrite Hgt1; lia). rewrite bind_Ok.
  rewrite (vec_get_Ok 2 t1 (Some a)); [|lia|apply (Hbt 2%nat); [lia|exact H2]].
  rewrite bind_Ok.
  rewrite (add_plain m 2 t1 a (DataBucket.mk 2 (d + 1) [0]) (DataBucket.mk 2 (d + 1) [0; 2]) 0).
  2: rewrite Hgt1; lia.
  2: rewrite Hgt1; lia.
  2: apply (Hbt 2%nat); [lia|exact H2].
  2: exact Hat1.
  2: reflexivity.
  2: lia.
  rewrite bind_Ok.
  set (t2 := store _ _ t1).
  assert (Hgt2 : globalDepth t2 = d + 1) by reflexivity.
  cbn [reinsert].
  rewrite (getBucketIndex_small 6 t2) by (rewrite Hgt2; lia). rewrite bind_Ok.
  rewrite (vec_get_Ok 6 t2 (Some a)); [|lia|apply (Hbt 6%nat); [lia|exact H6]].
  rewrite bind_Ok.
  assert (Hstuck : stuck t2).
  { exists a. rewrite Hgt2. split; [lia|]. split.
    - unfold dir_ok, buckets_size, t2, t1, t, split_state. simpl.
      rewrite length_insert. exact Hdir2.
    - split; [apply (Hbt 0%nat); [lia|exact H0]|].
      split; [apply (Hbt 2%nat); [lia|exact H2]|].
      split; [apply (Hbt 6%nat); [lia|exact H6]|].
      unfold t2. simpl. apply list_lookup_insert_eq.
      apply lookup_lt_Some in Hat1. exact Hat1. }
  destruct (IH t2 Hstuck) as [-> | ->]; [left|right]; reflexivity.
Qed.

(** C10.  An insertion whose cascade does not come to an end.  After the
    insertions 0, 1, 2, 5, 9, 8 the table of [main] has global depth 4 and
    a bucket of local depth 4, holding 0 and 2, behind the slots 0, 2, 6
    (and 10, 14).  [add 6] overflows it; the local depth equals the global
    depth, so the directory is extended, the bucket is emptied, and 0, 2
    and 6 are re-inserted: their slots 0, 2 and 6 still hold that one
    bucket, which overflows again at 6, one level deeper.  No amount of
    fuel lets [add 6] return: it is still recursing when the fuel ends, or
    it has reached [1 << 31]. *)
Theorem C10_add_cascade_without_end :
  ∃ s, run_main 8 [Add 0; Add 1; Add 2; Add 5; Add 9; Add 8] = Ok s
    ∧ summary s
      = (4, [Some 0; Some 1; Some 0; Some 2; Some 5; Some 3; Some 0; Some 2;
             Some 6; Some 1; Some 0; Some 2; Some 5; Some 3; Some 0; Some 2]%nat,
         [(4, [0; 2], false); (3, [1; 9], false); (2, [], false);
          (3, [5], false); (3, [], false); (3, [], false); (4, [8], false)])
    ∧ ∀ fuel, add fuel 6 s = OutOfFuel ∨ add fuel 6 s = Fault (BadShift 31).
Proof.
  eexists. split; [vm_compute; reflexivity|].
  split; [vm_compute; reflexivity|].
  intros fuel. apply stuck_add.
  exists 0%nat. repeat split; vm_compute; congruence.
Qed.

(** ** Keys of a bucket *)

Lemma set_find_elem x l : set_find x l = true ↔ x ∈ l.
Proof.
  induction l as [|y l IH]; simpl.
  - split; [discriminate|]. intros H. inversion H.
  - rewrite orb_true_iff, IH, elem_of_cons, Z.eqb_eq. tauto.
Qed.

Lemma elem_set_insert x k l : x ∈ set_insert k l ↔ x = k ∨ x ∈ l.
Proof.
  rewrite <- !set_find_elem, set_find_insert, orb_true_iff, Z.eqb_eq. tauto.
Qed.

Lemma elem_set_erase x k l : x ∈ set_erase k l → x ∈ l.
Proof.
  induction l as [|y l IH]; simpl; [auto|].
  destruct (k =? y).
  - intros H. apply elem_of_cons. right. auto.
  - rewrite !elem_of_cons. intros [H|H]; auto.
Qed.

Lemma length_set_insert k l : (length (set_insert k l) <= S (length l))%nat.
Proof.
  induction l as [|y l IH]; simpl; [lia|].
  destruct (k <? y); simpl; [lia|].
  destruct (k =? y); simpl; lia.
Qed.

Lemma length_set_erase k l : (length (set_erase k l) <= length l)%nat.
Proof.
  induction l as [|y l IH]; simpl; [lia|].
  destruct (k =? y); simpl; lia.
Qed.

Lemma insert_cases key b ret b' :
  DataBucket.insert key b = (ret, b') →
  (ret = 1 ∧ b' = b ∧ key ∈ DataBucket.data b)
  ∨ (b' = DataBucket.with_data (set_insert key (DataBucket.data b)) b
     ∧ ((ret = 0
         ∧ Z.of_nat (length (DataBucket.data b')) <= to_size_t (DataBucket.size b))
        ∨ (ret = 2
           ∧ to_size_t (DataBucket.size b) < Z.of_nat (length (DataBucket.data b'))))).
Proof.
  unfold DataBucket.insert.
  destruct (set_find key (DataBucket.data b)) eqn:Hf.
  - intros [= <- <-]. left. rewrite <- set_find_elem. auto.
  - destruct (_ <=? _) eqn:Hle; intros [= <- <-]; right; split; auto.
    + left. apply Z.leb_le in Hle. auto.
    + right. apply Z.leb_gt in Hle. auto.
Qed.

(** ** Slots and cells *)

Lemma slot_vec_get i s p : 0 <= i → slot i s = Some p → vec_get i s = Ok p.
Proof. apply vec_get_Ok. Qed.

Lemma vec_get_slot i s p :
  vec_get i s = Ok p → 0 <= i < buckets_size s ∧ slot i s = Some p.
Proof. apply vec_get_inv. Qed.

Lemma slot_store i p b s : slot i (store p b s) = slot i s.
Proof. destruct p; reflexivity. Qed.

Lemma heap_store s a b' x c c0 :
  heap s !! a = Some c0 →
  heap (store (Some a) b' s) !! x = Some c →
  (x = a ∧ c = Cell b' false) ∨ (x ≠ a ∧ heap s !! x = Some c).
Proof.
  intros Ha Hx. simpl in Hx. apply lookup_lt_Some in Ha.
  destruct (decide (x = a)) as [->|Hne].
  - rewrite list_lookup_insert_eq in Hx by exact Ha. left. split; congruence.
  - rewrite list_lookup_insert_ne in Hx by auto. right. auto.
Qed.

Lemma heap_store_eq s a b' c0 :
  heap s !! a = Some c0 →
  heap (store (Some a) b' s) !! a = Some (Cell b' false).
Proof.
  intros Ha. simpl. apply list_lookup_insert_eq. eapply lookup_lt_Some. eauto.
Qed.

Lemma struct_store s i a b b' :
  struct_inv s →
  0 <= i < 2 ^ globalDepth s →
  slot i s = Some (Some a) → heap s !! a = Some (Cell b false) →
  DataBucket.size b' = DataBucket.size b →
  DataBucket.localDepth b' = DataBucket.localDepth b →
  (∀ x, x ∈ DataBucket.data b' →
        x ∈ DataBucket.data b ∨ slot (x mod 2 ^ globalDepth s) s = Some (Some a)) →
  struct_inv (store (Some a) b' s).
Proof.
  intros [Hgd Hdir Hcap Hlive Hown Hdepth Haddr] Hi Hs Ha Hsz Hld Hkeys.
  constructor; try assumption.
  - intros j Hj. destruct (Hlive j Hj) as (a' & b0 & Hs' & Ha' & Hsz').
    destruct (decide (a' = a)) as [->|Hne].
    + exists a, b'. split; [exact Hs'|]. split; [eapply heap_store_eq; eauto|].
      rewrite Ha in Ha'. injection Ha' as <-. simpl. congruence.
    + exists a', b0. split; [exact Hs'|]. split; [|exact Hsz'].
      simpl. rewrite list_lookup_insert_ne by auto. exact Ha'.
  - intros j a' c Hj Hne Hs' Hc.
    destruct (heap_store _ _ _ _ _ _ Ha Hc) as [[-> ->]|[Hx Hc']].
    + simpl. rewrite Hld.
      apply (Hdepth j a (Cell b false) Hj Hne Hs' Ha).
    + apply (Hdepth j a' c Hj Hne Hs' Hc').
  - intros j a' c key Hj Hs' Hc Hkey.
    destruct (heap_store _ _ _ _ _ _ Ha Hc) as [[-> ->]|[Hx Hc']].
    + simpl in Hkey. destruct (Hkeys key Hkey) as [Hold|Hnew]; [|exact Hnew].
      apply (Haddr j a (Cell b false) key Hj Hs' Ha Hold).
    + apply (Haddr j a' c key Hj Hs' Hc' Hkey).
Qed.

Lemma cap_store s a b b' x :
  cap_inv_but x s →
  heap s !! a = Some (Cell b false) →
  (Some a ≠ x → Z.of_nat (length (DataBucket.data b')) <= bucketSize s) →
  cap_inv_but x (store (Some a) b' s).
Proof.
  intros Hcap Ha Hlen j a' c Hj Hs' Hc Hx.
  destruct (heap_store _ _ _ _ _ _ Ha Hc) as [[-> ->]|[Hne Hc']].
  - simpl. auto.
  - apply (Hcap j a' c Hj Hs' Hc' Hx).
Qed.

(** ** Powers of two *)

Lemma mod_pow2_mod x u v :
  0 <= u <= v → (x mod 2 ^ v) mod 2 ^ u = x mod 2 ^ u.
Proof.
  intros H. replace v with (u + (v - u)) by lia.
  rewrite Z.pow_add_r by lia.
  assert (0 < 2 ^ u) by (apply pow2_pos; lia).
  assert (0 < 2 ^ (v - u)) by (apply pow2_pos; lia).
  rewrite Z.rem_mul_r by lia.
  rewrite Z.mul_comm, Z.mod_add by lia.
  apply Z.mod_mod. lia.
Qed.

Lemma pow2_lt_mono u v : 0 <= u < v → 2 ^ u < 2 ^ v.
Proof. intros. apply Z.pow_lt_mono_r; lia. Qed.

Lemma pow2_le_mono u v : 0 <= u <= v → 2 ^ u <= 2 ^ v.
Proof. intros. apply Z.pow_le_mono_r; lia. Qed.

Lemma pow2_interval_unique t g i :
  0 <= t → 0 <= g →
  2 ^ t <= i < 2 ^ (t + 1) → 2 ^ g <= i < 2 ^ (g + 1) → t = g.
Proof.
  intros Ht Hg Hi Hi'.
  destruct (Z.lt_trichotomy t g) as [Hlt|[Heq|Hgt]]; [|exact Heq|].
  - assert (2 ^ (t + 1) <= 2 ^ g) by (apply pow2_le_mono; lia). lia.
  - assert (2 ^ (g + 1) <= 2 ^ t) by (apply pow2_le_mono; lia). lia.
Qed.

Lemma mod_pow2_range x g : 0 <= g → 0 <= x mod 2 ^ g < 2 ^ g.
Proof. intros. apply Z.mod_pos_bound. apply pow2_pos. lia. Qed.

Lemma mod_add_pow2 x u v :
  0 <= u <= v → (x + 2 ^ v) mod 2 ^ u = x mod 2 ^ u.
Proof.
  intros H.
  replace (2 ^ v) with (2 ^ (v - u) * 2 ^ u)
    by (rewrite <- Z.pow_add_r by lia; f_equal; lia).
  apply Z.mod_add. apply Z.pow_nonzero; lia.
Qed.

Lemma mod_upper x m : 0 < m → m <= x < 2 * m → x mod m = x - m.
Proof.
  intros Hm Hx. rewrite <- (Z.mod_small (x - m) m) by lia.
  replace x with (x - m + 1 * m) at 1 by lia. apply Z.mod_add. lia.
Qed.

(** ** The invariant across [extend] *)

Lemma extend_extended s :
  dir_ok s → 0 <= globalDepth s < 30 → extend s = Ok (extended s).
Proof. apply extend_spec. Qed.

Lemma slot_extended s i :
  dir_ok s → 0 <= globalDepth s →
  0 <= i < 2 ^ (globalDepth s + 1) →
  slot i (extended s) = slot (i mod 2 ^ globalDepth s) s.
Proof.
  intros Hdir Hgd Hi. unfold dir_ok, buckets_size in Hdir.
  assert (Hpos := pow2_pos (globalDepth s) Hgd).
  rewrite pow2_succ in Hi by lia.
  unfold slot, extended. simpl.
  destruct (decide (i < 2 ^ globalDepth s)) as [Hlt|Hge].
  - rewrite Z.mod_small by lia. apply lookup_app_l. lia.
  - rewrite mod_upper by lia. rewrite lookup_app_r by lia.
    f_equal. lia.
Qed.

Lemma struct_extended s :
  struct_inv s → globalDepth s < 30 → struct_inv (extended s).
Proof.
  intros [Hgd Hdir Hcap Hlive Hown Hdepth Haddr] H30.
  assert (Hpos := pow2_pos (globalDepth s) ltac:(lia)).
  assert (Hsucc := pow2_succ (globalDepth s) ltac:(lia)).
  assert (Hslot := slot_extended s).
  constructor.
  - simpl. lia.
  - unfold dir_ok, buckets_size in *. simpl. rewrite length_app. lia.
  - exact Hcap.
  - intros i Hi. simpl in Hi. rewrite Hslot by (auto; lia).
    apply Hlive. apply mod_pow2_range. lia.
  - intros t i j Ht Hi Hig Hj Hne Heq. simpl in Hig, Hj.
    destruct (decide (i < 2 ^ globalDepth s)) as [Hlt|Hge].
    + assert (Htg : t + 1 <= globalDepth s).
      { destruct (decide (t + 1 <= globalDepth s)); [assumption|].
        assert (2 ^ globalDepth s <= 2 ^ t) by (apply pow2_le_mono; lia). lia. }
      assert (0 < 2 ^ t) by (apply pow2_pos; lia).
      rewrite (Hslot i) in Hne, Heq by (auto; lia).
      rewrite (Hslot (i - 2 ^ t)) in Hne by (auto; lia).
      rewrite (Hslot j) in Heq by (auto; lia).
      rewrite !Z.mod_small in Hne by lia.
      rewrite (Z.mod_small i) in Heq by lia.
      rewrite <- (mod_pow2_mod j (t + 1) (globalDepth s)) by lia.
      apply (Hown t i (j mod 2 ^ globalDepth s)); auto.
      apply mod_pow2_range. lia.
    + assert (t = globalDepth s).
      { apply (pow2_interval_unique t (globalDepth s) i); auto; lia. }
      subst t. exfalso. apply Hne.
      rewrite (Hslot i) by (auto; lia).
      rewrite (Hslot (i - 2 ^ globalDepth s)) by (auto; lia).
      rewrite mod_upper by lia. rewrite Z.mod_small by lia. reflexivity.
  - intros i a c Hi Hne. simpl in Hi, Hne. exfalso. apply Hne.
    replace (globalDepth s + 1 - 1) with (globalDepth s) in * by lia.
    rewrite (Hslot i) by (auto; lia).
    rewrite (Hslot (i - 2 ^ globalDepth s)) by (auto; lia).
    rewrite mod_upper by lia. rewrite Z.mod_small by lia. reflexivity.
  - intros i a c key Hi Hs Hc Hkey. simpl in Hi.
    rewrite Hslot in Hs by (auto; lia).
    simpl globalDepth. rewrite Hslot; auto; try lia.
    2: apply mod_pow2_range; lia.
    rewrite mod_pow2_mod by lia.
    apply (Haddr (i mod 2 ^ globalDepth s) a c key); auto.
    apply mod_pow2_range. lia.
Qed.

Lemma cap_extended s x :
  struct_inv s → cap_inv_but x s → cap_inv_but x (extended s).
Proof.
  intros Hst Hcap i a c Hi Hs Hc Hx. simpl in Hi.
  destruct Hst as [Hgd Hdir _ _ _ _ _].
  rewrite slot_extended in Hs by (auto; lia).
  apply (Hcap (i mod 2 ^ globalDepth s) a c); auto.
  apply mod_pow2_range. lia.
Qed.

(** ** The invariant across the first statements of [splitImage] *)

Lemma slot_split_eq nb a b s :
  0 <= nb < buckets_size s →
  slot nb (split_state nb a b s) = Some (Some (length (heap s))).
Proof.
  intros H. unfold slot, split_state. simpl.
  apply list_lookup_insert_eq. unfold buckets_size in H. lia.
Qed.

Lemma slot_split_ne nb a b s i :
  0 <= nb → 0 <= i → i ≠ nb →
  slot i (split_state nb a b s) = slot i s.
Proof.
  intros Hnb Hi Hne. unfold slot, split_state. simpl.
  apply list_lookup_insert_ne. lia.
Qed.

Lemma heap_split nb a b s x c c0 :
  heap s !! a = Some c0 →
  heap (split_state nb a b s) !! x = Some c →
  (x = a ∧ c = Cell (DataBucket.mk (DataBucket.size b)
                       (DataBucket.localDepth b + 1) []) false)
  ∨ (x = length (heap s)
     ∧ c = Cell (DataBucket.mk (bucketSize s) (globalDepth s) []) false)
  ∨ (x ≠ a ∧ x ≠ length (heap s) ∧ heap s !! x = Some c).
Proof.
  intros Ha Hx. apply lookup_lt_Some in Ha as Hlt.
  unfold split_state in Hx. simpl in Hx.
  destruct (decide (x = a)) as [->|Hne].
  - rewrite list_lookup_insert_eq in Hx by (rewrite length_app; lia).
    left. split; congruence.
  - rewrite list_lookup_insert_ne in Hx by auto.
    destruct (decide (x = length (heap s))) as [->|Hnq].
    + rewrite lookup_app_r in Hx by lia. rewrite Nat.sub_diag in Hx.
      simpl in Hx. right. left. split; congruence.
    + right. right. split; [auto|]. split; [auto|].
      apply lookup_lt_Some in Hx as Hlx. rewrite length_app in Hlx. simpl in Hlx.
      rewrite lookup_app_l in Hx by lia. exact Hx.
Qed.

Lemma heap_split_old nb a b s x :
  x ≠ a → (x < length (heap s))%nat →
  heap (split_state nb a b s) !! x = heap s !! x.
Proof.
  intros Hne Hlt. unfold split_state. simpl.
  rewrite list_lookup_insert_ne by auto. apply lookup_app_l. exact Hlt.
Qed.

Lemma struct_split s dc a b :
  struct_inv s → cap_inv_but (Some a) s →
  1 <= globalDepth s →
  let half := 2 ^ (globalDepth s - 1) in
  0 <= dc < half →
  slot dc s = Some (Some a) → heap s !! a = Some (Cell b false) →
  struct_inv (split_state (dc + half) a b s)
  ∧ cap_inv_but None (split_state (dc + half) a b s).
Proof.
  intros [Hgd Hdir Hcap Hlive Hown Hdepth Haddr] Hcapinv Hgd1 half Hdc Hsdc Ha.
  assert (Hhalf : 0 < half) by (apply pow2_pos; lia).
  assert (Hpow : 2 ^ globalDepth s = 2 * half) by (apply pow2_pred; lia).
  assert (Hp1 : 2 ^ (globalDepth s - 1 + 1) = 2 * half)
    by (replace (globalDepth s - 1 + 1) with (globalDepth s) by lia; exact Hpow).
  set (nb := dc + half). set (q := length (heap s)).
  set (s4 := split_state nb a b s).
  assert (Hlen : buckets_size s = 2 * half) by (rewrite <- Hpow; exact Hdir).
  assert (Hnb : half <= nb < 2 * half) by (unfold nb; lia).
  assert (Hgd4 : globalDepth s4 = globalDepth s) by reflexivity.
  assert (Hq : slot nb s4 = Some (Some q)) by (apply slot_split_eq; lia).
  assert (Hsl : ∀ i, 0 <= i → i ≠ nb → slot i s4 = slot i s)
    by (intros; apply slot_split_ne; lia).
  assert (Hfresh : ∀ i, 0 <= i < 2 * half → slot i s ≠ Some (Some q)).
  { intros i Hi Hs. rewrite <- Hpow in Hi.
    destruct (Hlive i Hi) as (a' & b0 & Hs' & Ha' & _).
    rewrite Hs in Hs'. injection Hs' as <-.
    apply lookup_lt_Some in Ha'. unfold q in Ha'. lia. }
  assert (Hbuddy : ∀ t i, 0 <= t → 2 ^ t <= i < 2 ^ (t + 1) → i < 2 * half →
                          i - 2 ^ t ≠ nb).
  { intros t i Ht Hi Hlt Heq. rewrite pow2_succ in Hi by lia. lia. }
  assert (Hst : struct_inv s4).
  { constructor.
    - exact Hgd.
    - unfold dir_ok, buckets_size, s4, split_state in *. simpl.
      rewrite length_insert. exact Hdir.
    - exact Hcap.
    - intros i Hi. rewrite Hgd4, Hpow in Hi.
      destruct (decide (i = nb)) as [->|Hne].
      + exists q, (DataBucket.mk (bucketSize s) (globalDepth s) []).
        split; [exact Hq|]. split; [|reflexivity].
        unfold s4, split_state. simpl.
        apply lookup_lt_Some in Ha.
        rewrite list_lookup_insert_ne by (fold q; lia).
        rewrite lookup_app_r by lia. rewrite Nat.sub_diag. reflexivity.
      + rewrite Hsl by (auto; lia). rewrite <- Hpow in Hi.
        destruct (Hlive i Hi) as (a' & b0 & Hs' & Ha' & Hsz').
        destruct (decide (a' = a)) as [->|Hna].
        * exists a, (DataBucket.mk (DataBucket.size b) (DataBucket.localDepth b + 1) []).
          split; [exact Hs'|]. split.
          -- unfold s4, split_state. simpl. apply list_lookup_insert_eq.
             apply lookup_lt_Some in Ha. rewrite length_app. lia.
          -- simpl. rewrite Ha in Ha'. injection Ha' as <-. exact Hsz'.
        * exists a', b0. split; [exact Hs'|]. split; [|exact Hsz'].
          unfold s4. rewrite heap_split_old; auto.
          eapply lookup_lt_Some; eauto.
    - intros t i j Ht Hi Hig Hj Hne Heq. rewrite Hgd4, Hpow in Hig, Hj.
      assert (H2t : 0 < 2 ^ t) by (apply pow2_pos; lia).
      destruct (decide (i = nb)) as [->|Hni].
      + destruct (decide (j = nb)) as [->|Hnj].
        * apply Z.mod_small. lia.
        * exfalso. rewrite Hq in Heq. rewrite Hsl in Heq by (auto; lia).
          apply (Hfresh j); auto.
      + rewrite (Hsl i) in Hne, Heq by (auto; lia).
        rewrite (Hsl (i - 2 ^ t)) in Hne by (try lia; apply (Hbuddy t i); auto).
        destruct (decide (j = nb)) as [->|Hnj].
        * exfalso. rewrite Hq in Heq. apply (Hfresh i); [lia|]. auto.
        * rewrite (Hsl j) in Heq by (auto; lia).
          apply (Hown t i j); auto; rewrite Hpow; lia.
    - intros i a' c Hi Hne Hs Hc. rewrite Hgd4 in *. fold half in Hi, Hne.
      rewrite Hpow in Hi.
      destruct (decide (i = nb)) as [->|Hni].
      + rewrite Hq in Hs. injection Hs as <-.
        destruct (heap_split _ _ _ _ _ _ _ Ha Hc) as [[Hx _]|[[_ ->]|[_ [Hx _]]]].
        * apply lookup_lt_Some in Ha. unfold q in Hx. lia.
        * reflexivity.
        * unfold q in Hx. congruence.
      + rewrite (Hsl i) in Hne, Hs by (auto; lia).
        rewrite (Hsl (i - half)) in Hne by lia.
        destruct (heap_split _ _ _ _ _ _ _ Ha Hc) as [[-> _]|[[-> _]|[_ [_ Hc']]]].
        * exfalso.
          assert (Hmod : dc mod 2 ^ (globalDepth s - 1 + 1) = i).
          { apply (Hown (globalDepth s - 1) i dc);
              [lia | fold half; rewrite Hp1; lia | rewrite Hpow; lia
              | rewrite Hpow; lia | exact Hne | congruence]. }
          rewrite Hp1 in Hmod. rewrite Z.mod_small in Hmod by lia. lia.
        * exfalso. apply (Hfresh i); [lia|exact Hs].
        * apply (Hdepth i a' c); auto. fold half. rewrite Hpow. lia.
    - intros i a' c key Hi Hs Hc Hkey. rewrite Hgd4 in *. rewrite Hpow in Hi.
      destruct (heap_split _ _ _ _ _ _ _ Ha Hc) as [[_ ->]|[[_ ->]|[Hna [Hnq Hc']]]].
      + simpl in Hkey. inversion Hkey.
      + simpl in Hkey. inversion Hkey.
      + assert (Hni : i ≠ nb).
        { intros ->. rewrite Hq in Hs. injection Hs as <-. fold q in Hnq. lia. }
        rewrite (Hsl i) in Hs by (auto; lia).
        assert (Hold : slot (key mod 2 ^ globalDepth s) s = Some (Some a')).
        { apply (Haddr i a' c key); auto. rewrite Hpow. lia. }
        assert (Hkr : 0 <= key mod 2 ^ globalDepth s < 2 * half)
          by (rewrite <- Hpow; apply mod_pow2_range; lia).
        destruct (decide (key mod 2 ^ globalDepth s = nb)) as [Heq|Hneq].
        * exfalso. rewrite Heq in Hold.
          assert (Hmod : i mod 2 ^ (globalDepth s - 1 + 1) = nb).
          { apply (Hown (globalDepth s - 1) nb i);
              [lia | fold half; rewrite Hp1; lia | rewrite Hpow; lia
              | rewrite Hpow; lia | | congruence].
            fold half. replace (nb - half) with dc by (unfold nb; lia).
            rewrite Hold, Hsdc. congruence. }
          rewrite Hp1 in Hmod. rewrite Z.mod_small in Hmod by lia. lia.
        * rewrite Hsl by (auto; lia). exact Hold. }
  split; [exact Hst|].
  intros i a' c Hi Hs Hc _. rewrite Hgd4, Hpow in Hi.
  destruct (heap_split _ _ _ _ _ _ _ Ha Hc) as [[_ ->]|[[_ ->]|[Hna [Hnq Hc']]]].
  - simpl. lia.
  - simpl. lia.
  - assert (Hni : i ≠ nb).
    { intros ->. rewrite Hq in Hs. injection Hs as <-. fold q in Hnq. lia. }
    rewrite (Hsl i) in Hs by (auto; lia).
    apply (Hcapinv i a' c); auto; [rewrite Hpow; lia|congruence].
Qed.

(** ** The invariant across a merge of two different buckets *)

Lemma struct_merge e lo pl ph bl bh bm :
  struct_inv e → cap_inv_but None e →
  1 <= globalDepth e →
  let half := 2 ^ (globalDepth e - 1) in
  0 <= lo < half →
  slot lo e = Some (Some pl) → slot (lo + half) e = Some (Some ph) →
  pl ≠ ph →
  heap e !! pl = Some (Cell bl false) → heap e !! ph = Some (Cell bh false) →
  DataBucket.size bm = DataBucket.size bl →
  (∀ x, x ∈ DataBucket.data bm → x ∈ DataBucket.data bl ∨ x ∈ DataBucket.data bh) →
  Z.of_nat (length (DataBucket.data bm)) <= bucketSize e →
  let m := EHM (globalDepth e) (bucketSize e)
             (<[Z.to_nat (lo + half) := Some pl]> (buckets e))
             (<[pl := Cell bm false]>
                (<[ph := Cell (DataBucket.with_data [] bh) true]> (heap e))) in
  struct_inv m ∧ cap_inv_but None m.
Proof.
  intros [Hgd Hdir Hcap Hlive Hown Hdepth Haddr] Hcapinv Hgd1 half Hlo Hslo Hshi
         Hp Hpl Hph Hsz Hkeys Hlen m.
  assert (Hhalf : 0 < half) by (apply pow2_pos; lia).
  assert (Hpow : 2 ^ globalDepth e = 2 * half) by (apply pow2_pred; lia).
  assert (Hp1 : 2 ^ (globalDepth e - 1 + 1) = 2 * half)
    by (replace (globalDepth e - 1 + 1) with (globalDepth e) by lia; exact Hpow).
  set (hi := lo + half) in *.
  assert (Hblen : buckets_size e = 2 * half) by (rewrite <- Hpow; exact Hdir).
  assert (Hhi : half <= hi < 2 * half) by (unfold hi; lia).
  assert (Hshi' : slot hi m = Some (Some pl)).
  { unfold slot, m. simpl. apply list_lookup_insert_eq.
    unfold buckets_size in Hblen. lia. }
  assert (Hsl : ∀ i, 0 <= i → i ≠ hi → slot i m = slot i e).
  { intros i Hi Hne. unfold slot, m. simpl. apply list_lookup_insert_ne. lia. }
  assert (Hltl : (pl < length (heap e))%nat) by (eapply lookup_lt_Some; eauto).
  assert (Hlth : (ph < length (heap e))%nat) by (eapply lookup_lt_Some; eauto).
  assert (Hhpl : heap m !! pl = Some (Cell bm false)).
  { unfold m. simpl. apply list_lookup_insert_eq. rewrite length_insert. exact Hltl. }
  assert (Hhold : ∀ x, x ≠ pl → x ≠ ph → heap m !! x = heap e !! x).
  { intros x H1 H2. unfold m. simpl. rewrite !list_lookup_insert_ne by auto.
    reflexivity. }
  assert (Hhph : heap m !! ph = Some (Cell (DataBucket.with_data [] bh) true)).
  { unfold m. simpl. rewrite list_lookup_insert_ne by auto.
    apply list_lookup_insert_eq. exact Hlth. }
  (* slot [hi] is the only one that held [ph] *)
  assert (Hsingle : ∀ i, 0 <= i < 2 * half → slot i e = Some (Some ph) → i = hi).
  { intros i Hi Hs.
    assert (Hmod : i mod 2 ^ (globalDepth e - 1 + 1) = hi).
    { apply (Hown (globalDepth e - 1) hi i);
        [lia | fold half; rewrite Hp1; lia | rewrite Hpow; lia
        | rewrite Hpow; lia | | congruence].
      fold half. replace (hi - half) with lo by (unfold hi; lia).
      rewrite Hshi, Hslo. congruence. }
    rewrite Hp1 in Hmod. rewrite Z.mod_small in Hmod by lia. lia. }
  (* no slot of the upper half that differs from its buddy held [pl] *)
  assert (Hlower : ∀ i, half <= i < 2 * half →
                        slot i e ≠ slot (i - half) e → slot i e ≠ Some (Some pl)).
  { intros i Hi Hne Hs.
    assert (Hmod : lo mod 2 ^ (globalDepth e - 1 + 1) = i).
    { apply (Hown (globalDepth e - 1) i lo);
        [lia | fold half; rewrite Hp1; lia | rewrite Hpow; lia
        | rewrite Hpow; lia | exact Hne | congruence]. }
    rewrite Hp1 in Hmod. rewrite Z.mod_small in Hmod by lia. lia. }
  assert (Hbuddy : ∀ t i, 0 <= t → 2 ^ t <= i < 2 ^ (t + 1) → i < 2 * half →
                          i - 2 ^ t ≠ hi).
  { intros t i Ht Hi Hlt Heq. rewrite pow2_succ in Hi by lia. lia. }
  assert (Hst : struct_inv m).
  { constructor.
    - exact Hgd.
    - unfold dir_ok, buckets_size, m in *. simpl. rewrite length_insert. exact Hdir.
    - exact Hcap.
    - intros i Hi. change (globalDepth m) with (globalDepth e) in Hi.
      assert (Hbl : DataBucket.size bl = bucketSize e).
      { destruct (Hlive lo ltac:(lia)) as (a' & b0 & Hs' & Ha' & Hsz').
        rewrite Hslo in Hs'. injection Hs' as <-.
        rewrite Hpl in Ha'. injection Ha' as <-. exact Hsz'. }
      destruct (decide (i = hi)) as [->|Hne].
      + exists pl, bm. split; [exact Hshi'|]. split; [exact Hhpl|].
        simpl. congruence.
      + rewrite Hsl by (auto; lia).
        destruct (Hlive i Hi) as (a' & b0 & Hs' & Ha' & Hsz').
        destruct (decide (a' = pl)) as [->|Hnl].
        * exists pl, bm. split; [exact Hs'|]. split; [exact Hhpl|].
          simpl. congruence.
        * exists a', b0. split; [exact Hs'|]. split; [|exact Hsz'].
          rewrite Hhold; auto.
          intros ->. apply Hne. apply Hsingle; [rewrite <- Hpow; exact Hi|exact Hs'].
    - intros t i j Ht Hi Hig Hj Hne Heq.
      change (globalDepth m) with (globalDepth e) in Hig, Hj.
      rewrite Hpow in Hig, Hj.
      assert (H2t : 0 < 2 ^ t) by (apply pow2_pos; lia).
      destruct (decide (i = hi)) as [->|Hni].
      + exfalso. apply Hne.
        assert (t = globalDepth e - 1).
        { apply (pow2_interval_unique t (globalDepth e - 1) hi);
            try lia; fold half; rewrite Hp1; lia. }
        subst t. fold half.
        replace (hi - half) with lo by (unfold hi; lia).
        rewrite Hshi'. rewrite Hsl by lia. congruence.
      + rewrite (Hsl i) in Hne, Heq by (auto; lia).
        rewrite (Hsl (i - 2 ^ t)) in Hne by (try lia; apply (Hbuddy t i); auto).
        destruct (decide (j = hi)) as [->|Hnj].
        * rewrite Hshi' in Heq.
          assert (Hlt : i < half).
          { destruct (decide (i < half)); [assumption|]. exfalso.
            assert (t = globalDepth e - 1).
            { apply (pow2_interval_unique t (globalDepth e - 1) i);
                try lia; fold half; rewrite Hp1; lia. }
            subst t. fold half in Hne.
            apply (Hlower i); [lia|exact Hne|congruence]. }
          assert (Htg : t + 1 <= globalDepth e - 1).
          { destruct (decide (t + 1 <= globalDepth e - 1)); [assumption|].
            assert (2 ^ (globalDepth e - 1) <= 2 ^ t) by (apply pow2_le_mono; lia).
            fold half in H. lia. }
          assert (Hlom : lo mod 2 ^ (t + 1) = i).
          { apply (Hown t i lo); auto; try (rewrite Hpow; lia). congruence. }
          rewrite <- Hlom. unfold hi, half.
          apply mod_add_pow2. lia.
        * rewrite (Hsl j) in Heq by (auto; lia).
          apply (Hown t i j); auto; rewrite Hpow; lia.
    - intros i a' c Hi Hne Hs Hc.
      change (globalDepth m) with (globalDepth e) in *. fold half in Hi, Hne.
      rewrite Hpow in Hi.
      destruct (decide (i = hi)) as [->|Hni].
      + exfalso. apply Hne.
        replace (hi - half) with lo by (unfold hi; lia).
        rewrite Hshi'. rewrite Hsl by lia. congruence.
      + rewrite (Hsl i) in Hne, Hs by (auto; lia).
        rewrite (Hsl (i - half)) in Hne by lia.
        assert (Hnl : a' ≠ pl).
        { intros ->. apply (Hlower i); auto. }
        assert (Hnh : a' ≠ ph).
        { intros ->. apply Hni. apply Hsingle; [lia|exact Hs]. }
        rewrite Hhold in Hc by auto.
        apply (Hdepth i a' c); auto. fold half. rewrite Hpow. lia.
    - intros i a' c key Hi Hs Hc Hkey.
      change (globalDepth m) with (globalDepth e) in *. rewrite Hpow in Hi.
      assert (Hkr : 0 <= key mod 2 ^ globalDepth e < 2 * half)
        by (rewrite <- Hpow; apply mod_pow2_range; lia).
      assert (Hto : ∀ x, slot (key mod 2 ^ globalDepth e) e = Some (Some x) →
                         x ≠ ph →
                         slot (key mod 2 ^ globalDepth e) m = Some (Some x)).
      { intros x Hx Hxp. rewrite Hsl; auto; [lia|].
        intros Heq. rewrite Heq, Hshi in Hx. congruence. }
      destruct (decide (a' = pl)) as [->|Hnl].
      + rewrite Hhpl in Hc. injection Hc as <-. simpl in Hkey.
        destruct (Hkeys key Hkey) as [Hin|Hin].
        * apply Hto; auto.
          apply (Haddr lo pl (Cell bl false) key); auto. rewrite Hpow. lia.
        * assert (Hold : slot (key mod 2 ^ globalDepth e) e = Some (Some ph)).
          { apply (Haddr hi ph (Cell bh false) key); auto. rewrite Hpow. lia. }
          rewrite (Hsingle _ Hkr Hold). exact Hshi'.
      + assert (Hni : i ≠ hi).
        { intros ->. rewrite Hshi' in Hs. congruence. }
        rewrite (Hsl i) in Hs by (auto; lia).
        assert (Hnh : a' ≠ ph).
        { intros ->. apply Hni. apply Hsingle; [lia|exact Hs]. }
        rewrite Hhold in Hc by auto.
        apply Hto; auto.
        apply (Haddr i a' c key); auto. rewrite Hpow. lia. }
  split; [exact Hst|].
  intros i a' c Hi Hs Hc _.
  change (globalDepth m) with (globalDepth e) in *. rewrite Hpow in Hi.
  destruct (decide (a' = pl)) as [->|Hnl].
  - rewrite Hhpl in Hc. injection Hc as <-. exact Hlen.
  - assert (Hni : i ≠ hi).
    { intros ->. rewrite Hshi' in Hs. congruence. }
    rewrite (Hsl i) in Hs by (auto; lia).
    assert (Hnh : a' ≠ ph).
    { intros ->. apply Hni. apply Hsingle; [lia|exact Hs]. }
    rewrite Hhold in Hc by auto.
    apply (Hcapinv i a' c); auto; try (rewrite Hpow; lia); congruence.
Qed.

(** ** The invariant across the halving of the directory *)

Lemma all_depths_slot s d i :
  all_depths d s = true → dir_ok s → 0 <= i < 2 ^ globalDepth s →
  ∀ a c, slot i s = Some (Some a) → heap s !! a = Some c →
         DataBucket.localDepth (obj c) = d.
Proof.
  intros Hall Hdir Hi a c Hs Hc. unfold all_depths in Hall.
  rewrite forallb_forall in Hall.
  unfold dir_ok, buckets_size in Hdir.
  assert (Hin : In (Z.to_nat i) (seq 0 (length (buckets s)))).
  { apply in_seq. lia. }
  specialize (Hall _ Hin). apply bool_decide_eq_true in Hall.
  unfold depth_at in Hall. unfold slot in Hs. rewrite Hs, Hc in Hall.
  simpl in Hall. congruence.
Qed.

Lemma slot_halved s i :
  0 <= i < 2 ^ (globalDepth s - 1) → slot i (halved s) = slot i s.
Proof.
  intros Hi. unfold slot, halved. simpl. apply lookup_take_lt. lia.
Qed.

Lemma struct_halved s :
  struct_inv s → cap_inv_but None s → 1 <= globalDepth s →
  all_depths (globalDepth s - 1) s = true →
  struct_inv (halved s) ∧ cap_inv_but None (halved s).
Proof.
  intros [Hgd Hdir Hcap Hlive Hown Hdepth Haddr] Hcapinv Hgd1 Hall.
  set (half := 2 ^ (globalDepth s - 1)).
  assert (Hhalf : 0 < half) by (apply pow2_pos; lia).
  assert (Hpow : 2 ^ globalDepth s = 2 * half) by (apply pow2_pred; lia).
  assert (Hsl : ∀ i, 0 <= i < half → slot i (halved s) = slot i s)
    by (intros; apply slot_halved; assumption).
  assert (Hgh : globalDepth (halved s) = globalDepth s - 1) by reflexivity.
  assert (Hdep : ∀ i a c, 0 <= i < 2 * half → slot i s = Some (Some a) →
                          heap s !! a = Some c →
                          DataBucket.localDepth (obj c) = globalDepth s - 1).
  { intros i a c Hi. apply (all_depths_slot s _ i Hall Hdir). rewrite Hpow. exact Hi. }
  assert (Hmirror : ∀ k, half <= k < 2 * half → slot k s = slot (k - half) s).
  { intros k Hk. destruct (decide (slot k s = slot (k - half) s)) as [|Hne]; [assumption|].
    exfalso. destruct (Hlive k ltac:(lia)) as (a & b & Hs & Ha & _).
    assert (H1 := Hdepth k a _ ltac:(fold half; lia) Hne Hs Ha).
    assert (H2 := Hdep k a _ ltac:(lia) Hs Ha). simpl in H1, H2. lia. }
  split.
  - constructor.
    + rewrite Hgh. lia.
    + unfold dir_ok, buckets_size, halved in *. simpl. fold half.
      rewrite length_take. lia.
    + exact Hcap.
    + intros i Hi. rewrite Hgh in Hi. fold half in Hi. rewrite Hsl by exact Hi.
      apply Hlive. lia.
    + intros t i j Ht Hi Hig Hj Hne Heq. rewrite Hgh in Hig, Hj. fold half in Hig, Hj.
      assert (H2t : 0 < 2 ^ t) by (apply pow2_pos; lia).
      rewrite (Hsl i) in Hne, Heq by lia.
      rewrite (Hsl (i - 2 ^ t)) in Hne by lia.
      rewrite (Hsl j) in Heq by lia.
      apply (Hown t i j); auto; lia.
    + intros i a c Hi Hne Hs Hc. rewrite Hgh in *. fold half in Hi.
      assert (0 <= i).
      { assert (0 <= 2 ^ (globalDepth s - 1 - 1)) by (apply Z.pow_nonneg; lia). lia. }
      rewrite (Hsl i) in Hs by lia.
      apply (Hdep i a c); auto. lia.
    + intros i a c key Hi Hs Hc Hkey. rewrite Hgh in *. fold half in Hi.
      rewrite (Hsl i) in Hs by lia.
      assert (Hold : slot (key mod 2 ^ globalDepth s) s = Some (Some a)).
      { apply (Haddr i a c key); auto. lia. }
      assert (Hkr : 0 <= key mod 2 ^ globalDepth s < 2 * half)
        by (rewrite <- Hpow; apply mod_pow2_range; lia).
      assert (Hk' : 0 <= key mod half < half) by (apply mod_pow2_range; lia).
      fold half. rewrite Hsl by exact Hk'.
      assert (Hmm : key mod half = (key mod 2 ^ globalDepth s) mod half).
      { unfold half. symmetry. apply mod_pow2_mod. lia. }
      destruct (decide (key mod 2 ^ globalDepth s < half)) as [Hlt|Hge].
      * rewrite Hmm, Z.mod_small by lia. exact Hold.
      * rewrite Hmm, mod_upper by lia. rewrite <- Hmirror by lia. exact Hold.
  - intros i a c Hi Hs Hc _. rewrite Hgh in Hi. fold half in Hi.
    rewrite (Hsl i) in Hs by lia.
    apply (Hcapinv i a c); auto; try lia; congruence.
Qed.

(** ** The invariant of a new table *)

Lemma init_loop_spec _size depth : ∀ count k s,
  buckets s = (Some <$> seq 0 k) ++ replicate count None →
  heap s = replicate k (Cell (DataBucket.mk _size depth []) false) →
  init_loop _size depth count (Z.of_nat k) s
  = Ok (EHM (globalDepth s) (bucketSize s) (Some <$> seq 0 (k + count))
          (replicate (k + count) (Cell (DataBucket.mk _size depth []) false))).
Proof.
  induction count as [|count IH]; intros k s Hb Hh.
  - simpl. rewrite Nat.add_0_r. destruct s. simpl in *.
    rewrite app_nil_r in Hb. congruence.
  - simpl. unfold new_bucket.
    rewrite vec_set_Ok.
    2:{ unfold buckets_size. simpl. rewrite Hb, length_app, length_fmap,
          length_seq, length_replicate. lia. }
    rewrite bind_Ok.
    replace (Z.of_nat k + 1) with (Z.of_nat (S k)) by lia.
    rewrite IH.
    + simpl. replace (k + S count)%nat with (S (k + count)) by lia. reflexivity.
    + cbn [buckets with_buckets with_heap heap].
      rewrite Hb, Hh, length_replicate, Nat2Z.id.
      rewrite insert_app_r_alt by (rewrite length_fmap, length_seq; lia).
      rewrite length_fmap, length_seq, Nat.sub_diag.
      rewrite seq_S, fmap_app. rewrite <- app_assoc. reflexivity.
    + cbn [buckets with_buckets with_heap heap].
      rewrite Hh. rewrite <- replicate_S_end. reflexivity.
Qed.

Lemma create_spec _globalDepth _size s :
  create _globalDepth _size = Ok s →
  0 <= _globalDepth <= 30
  ∧ s = EHM _globalDepth _size (Some <$> seq 0 (Z.to_nat (2 ^ _globalDepth)))
          (replicate (Z.to_nat (2 ^ _globalDepth))
             (Cell (DataBucket.mk _size _globalDepth []) false)).
Proof.
  unfold create. intros H. apply bind_inv_Ok in H as (n & Hn & H).
  apply shl1_inv in Hn as [-> Hgd]. split; [lia|].
  rewrite (init_loop_spec _size _globalDepth _ 0%nat) in H.
  - simpl in H. rewrite length_resize in H. injection H as <-. reflexivity.
  - simpl. rewrite length_resize. apply resize_nil.
  - reflexivity.
Qed.

Lemma create0_create _size : create0 _size = create 0 _size.
Proof. reflexivity. Qed.

Lemma create_inv _globalDepth _size s :
  0 < _size <= INT_MAX → create _globalDepth _size = Ok s → table_inv s.
Proof.
  intros Hsz Hc. apply create_spec in Hc as [Hgd ->].
  set (n := Z.to_nat (2 ^ _globalDepth)).
  assert (Hpos := pow2_pos _globalDepth ltac:(lia)).
  assert (Hsl : ∀ i, 0 <= i < 2 ^ _globalDepth →
                 slot i (EHM _globalDepth _size (Some <$> seq 0 n)
                           (replicate n (Cell (DataBucket.mk _size _globalDepth []) false)))
                 = Some (Some (Z.to_nat i))).
  { intros i Hi. unfold slot. simpl. rewrite list_lookup_fmap.
    rewrite lookup_seq_lt by (unfold n; lia). reflexivity. }
  assert (Hh : ∀ a c,
             replicate n (Cell (DataBucket.mk _size _globalDepth []) false) !! a = Some c →
             c = Cell (DataBucket.mk _size _globalDepth []) false).
  { intros a c H. apply lookup_replicate in H. tauto. }
  split.
  - constructor; simpl.
    + lia.
    + unfold dir_ok, buckets_size. simpl. rewrite length_fmap, length_seq.
      unfold n. lia.
    + exact Hsz.
    + intros i Hi. exists (Z.to_nat i), (DataBucket.mk _size _globalDepth []).
      split; [apply Hsl; exact Hi|]. split; [|reflexivity].
      apply lookup_replicate_2. unfold n. lia.
    + intros t i j Ht Hi Hig Hj _ Heq.
      assert (0 < 2 ^ t) by (apply pow2_pos; lia).
      rewrite (Hsl i), (Hsl j) in Heq by lia.
      injection Heq as Heq. rewrite Z.mod_small by lia. lia.
    + intros i a c _ _ _ Hc. apply Hh in Hc. subst c. reflexivity.
    + intros i a c key _ _ Hc Hkey. apply Hh in Hc. subst c.
      simpl in Hkey. inversion Hkey.
  - intros i a c _ _ Hc _. simpl in Hc. apply Hh in Hc. subst c. simpl. lia.
Qed.

(** ** The invariant across [remove] *)

Lemma struct_live_dir s : struct_inv s → live_dir s.
Proof.
  intros [Hgd Hdir _ Hlive _ _ _] i p Hp.
  apply lookup_lt_Some in Hp as Hlt. unfold dir_ok, buckets_size in Hdir.
  destruct (Hlive (Z.of_nat i) ltac:(lia)) as (a & b & Hs & Ha & _).
  unfold slot in Hs. rewrite Nat2Z.id, Hp in Hs. injection Hs as ->.
  eauto.
Qed.

Lemma merge_condition_spec bucketIndex image e :
  live_dir e →
  0 <= bucketIndex < buckets_size e → 0 <= image < buckets_size e →
  let fits i := keys_at i e <=? to_size_t (Z.quot (bucketSize e) 2) in
  merge_condition bucketIndex image e
  = Ok (negb (image =? bucketIndex) && fits bucketIndex && fits image).
Proof.
  intros Hlive Hidx Himg fits. unfold merge_condition.
  destruct (image =? bucketIndex); [reflexivity|]. simpl.
  rewrite (at_most_half_spec bucketIndex e Hlive Hidx), bind_Ok. fold (fits bucketIndex).
  destruct (fits bucketIndex); [|reflexivity]. simpl.
  apply at_most_half_spec; auto.
Qed.

Lemma merge_aliased lo hi e p b :
  lo ≠ hi →
  vec_get lo e = Ok (Some p) → vec_get hi e = Ok (Some p) →
  heap e !! p = Some (Cell b false) →
  merge lo hi e = Fault (UseAfterFree p).
Proof.
  intros Hne Hlo Hhi Hp.
  apply lookup_lt_Some in Hp as Hlt.
  destruct (vec_get_inv _ _ _ Hlo) as [Hlor Hlo'].
  destruct (vec_get_inv _ _ _ Hhi) as [Hhir Hhi'].
  unfold merge, merge_move.
  rewrite Hhi, bind_Ok. rewrite (deref_Ok p e _ Hp) by reflexivity.
  rewrite bind_Ok. simpl obj.
  rewrite (merge_loop_spec _ lo e p b Hlo Hp). rewrite bind_Ok.
  unfold merge_release.
  rewrite (vec_get_buckets hi _ e) by reflexivity. rewrite Hhi, bind_Ok.
  unfold delete.
  erewrite (deref_Ok p _ (Cell (merged_bucket b b) false)); [| |reflexivity].
  2:{ simpl. apply list_lookup_insert_eq. exact Hlt. }
  rewrite !bind_Ok.
  unfold merge_repoint.
  rewrite (vec_get_buckets lo _ e) by reflexivity. rewrite Hlo, bind_Ok.
  rewrite vec_set_Ok by (unfold buckets_size in *; simpl; lia).
  rewrite bind_Ok.
  unfold merge_decrement.
  erewrite (vec_get_Ok lo _ (Some p)); [|lia|].
  2:{ simpl. rewrite list_lookup_insert_ne by lia. exact Hlo'. }
  rewrite bind_Ok. unfold deref. simpl.
  rewrite list_lookup_insert_eq by (rewrite length_insert; exact Hlt).
  reflexivity.
Qed.

Lemma length_insert_snd x b :
  (length (DataBucket.data (DataBucket.insert x b).2)
   <= S (length (DataBucket.data b)))%nat.
Proof.
  unfold DataBucket.insert.
  destruct (set_find x (DataBucket.data b)); simpl; [lia|].
  destruct (_ <=? _); simpl; apply length_set_insert.
Qed.

Lemma length_merged bl bh :
  (length (DataBucket.data (merged_bucket bl bh))
   <= length (DataBucket.data bl) + length (DataBucket.data bh))%nat.
Proof.
  unfold merged_bucket. generalize (DataBucket.data bh) as l. intros l.
  revert bl. induction l as [|x l IH]; intros bl; simpl; [lia|].
  specialize (IH (DataBucket.insert x bl).2).
  pose proof (length_insert_snd x bl). lia.
Qed.

Lemma keys_at_slot i s a b :
  slot i s = Some (Some a) → heap s !! a = Some (Cell b false) →
  keys_at i s = Z.of_nat (length (DataBucket.data b)).
Proof. intros Hs Ha. unfold keys_at. unfold slot in Hs. rewrite Hs, Ha. reflexivity. Qed.

Lemma half_capacity cap n1 n2 :
  0 < cap <= INT_MAX →
  n1 <= to_size_t (Z.quot cap 2) → n2 <= to_size_t (Z.quot cap 2) →
  n1 + n2 <= cap.
Proof.
  unfold INT_MAX, to_size_t. intros Hc H1 H2.
  rewrite Z.quot_div_nonneg in * by lia.
  assert (0 <= cap / 2) by (apply Z.div_pos; lia).
  assert (2 * (cap / 2) <= cap) by (apply Z.mul_div_le; lia).
  rewrite Z.mod_small in * by lia. lia.
Qed.

Lemma remove_inv key s s' :
  table_inv s → remove key s = Ok s' → table_inv s'.
Proof.
  intros [Hst Hcapinv] Hrem. unfold remove in Hrem.
  apply bind_inv_Ok in Hrem as ([[bucketIndex image] e] & Herase & Hrem).
  apply bind_inv_Ok in Hrem as (c & Hcond & Hrem).
  apply bind_inv_Ok in Hrem as (m & Hmerge & Hshrink).
  destruct (remove_erase_inv key s bucketIndex image e (si_dir s Hst) Herase)
    as (Hgd & _ & Hidx & Himage & a & b & Hsa & Ha & ->).
  set (half := 2 ^ (globalDepth s - 1)) in *.
  assert (Hhalf : 0 < half) by (apply pow2_pos; lia).
  assert (Hpow : 2 ^ globalDepth s = 2 * half) by (apply pow2_pred; lia).
  set (e := store (Some a) (DataBucket.erase key b) s) in *.
  assert (Hste : struct_inv e).
  { apply (struct_store s bucketIndex a b); auto.
    intros x Hx. left. apply (elem_set_erase x key). exact Hx. }
  assert (Hcape : cap_inv_but None e).
  { apply (cap_store s a b); auto. intros _. simpl.
    pose proof (length_set_erase key (DataBucket.data b)).
    assert (Z.of_nat (length (DataBucket.data b)) <= bucketSize s).
    { apply (Hcapinv bucketIndex a (Cell b false)); auto; congruence. }
    lia. }
  assert (Hge : globalDepth e = globalDepth s) by reflexivity.
  assert (Hlen : buckets_size e = 2 * half).
  { rewrite <- Hpow. apply (si_dir e Hste). }
  assert (Hinvm : (struct_inv m ∧ cap_inv_but None m) ∧ globalDepth m = globalDepth s).
  { pose proof (struct_live_dir e Hste) as Hlive.
    assert (Himg : 0 <= image < 2 * half).
    { rewrite Himage. destruct (_ <? _) eqn:Hlt;
        [apply Z.ltb_lt in Hlt|apply Z.ltb_ge in Hlt]; lia. }
    rewrite (merge_condition_spec bucketIndex image e Hlive) in Hcond by lia.
    injection Hcond as <-.
    destruct (negb (image =? bucketIndex) && _ && _) eqn:Hc;
      [|injection Hmerge as <-; auto].
    apply andb_true_iff in Hc as [Hc Hfi]. apply andb_true_iff in Hc as [Hneq Hfb].
    apply Z.leb_le in Hfi, Hfb.
    set (lo := Z.min bucketIndex image). set (hi := Z.max bucketIndex image).
    assert (Hmerge' : merge lo hi e = Ok m).
    { unfold lo, hi. destruct (bucketIndex >? image) eqn:Hgt.
      - apply Z.gtb_lt in Hgt. rewrite Z.min_r, Z.max_l by lia. exact Hmerge.
      - rewrite Z.gtb_ltb in Hgt. apply Z.ltb_ge in Hgt.
        rewrite Z.min_l, Z.max_r by lia. exact Hmerge. }
    assert (Hlohi : 0 <= lo < half ∧ hi = lo + half
                    ∧ (keys_at lo e <= to_size_t (bucketSize e ÷ 2))
                    ∧ (keys_at hi e <= to_size_t (bucketSize e ÷ 2))).
    { unfold lo, hi. rewrite Himage in *.
      destruct (bucketIndex <? half) eqn:Hlt;
        [apply Z.ltb_lt in Hlt|apply Z.ltb_ge in Hlt].
      - rewrite Z.min_l, Z.max_r by lia. repeat split; auto; lia.
      - rewrite Z.min_r, Z.max_l by lia. repeat split; auto; lia. }
    destruct Hlohi as (Hlo & Hhi & Hflo & Hfhi).
    destruct (si_live e Hste lo ltac:(rewrite Hge, Hpow; lia))
      as (pl & bl & Hsl & Hpl & Hszl).
    destruct (si_live e Hste hi ltac:(rewrite Hge, Hpow; lia))
      as (ph & bh & Hsh & Hph & Hszh).
    assert (Hvl : vec_get lo e = Ok (Some pl)) by (apply slot_vec_get; [lia|exact Hsl]).
    assert (Hvh : vec_get hi e = Ok (Some ph)) by (apply slot_vec_get; [lia|exact Hsh]).
    destruct (decide (pl = ph)) as [<-|Hp].
    { rewrite (merge_aliased lo hi e pl bl) in Hmerge'; auto; [discriminate|lia]. }
    rewrite (merge_distinct lo hi e pl ph bl bh) in Hmerge'; auto; [|lia].
    apply bind_inv_Ok in Hmerge' as (ld & _ & Hm). injection Hm as <-.
    split; [|reflexivity].
    rewrite Hhi.
    destruct (merged_bucket_fields bl bh) as (Hmsz & Hmld & Hmdata).
    apply (struct_merge e lo pl ph bl bh
             (DataBucket.with_localDepth ld (merged_bucket bl bh))); auto.
    - lia.
    - change (slot (lo + half) e = Some (Some ph)). rewrite <- Hhi. exact Hsh.
    - intros x Hx. simpl in Hx. apply set_find_elem in Hx.
      rewrite Hmdata in Hx. apply orb_true_iff in Hx.
      rewrite !set_find_elem in Hx. exact Hx.
    - simpl. pose proof (length_merged bl bh).
      rewrite (keys_at_slot lo e pl bl) in Hflo by auto.
      rewrite (keys_at_slot hi e ph bh) in Hfhi by auto.
      pose proof (half_capacity (bucketSize e) _ _ (si_cap e Hste) Hflo Hfhi) as Hsum.
      change (bucketSize e) with (bucketSize s) in Hsum. lia. }
  destruct Hinvm as [[Hstm Hcapm] Hgdm].
  assert (Hgm : 1 <= globalDepth m <= 31) by lia.
  rewrite (shrink_check_spec m (struct_live_dir m Hstm) (si_dir m Hstm) Hgm) in Hshrink.
  injection Hshrink as <-.
  destruct (all_depths (globalDepth m - 1) m) eqn:Hall.
  - apply struct_halved; auto. lia.
  - split; assumption.
Qed.

(** ** One call of [add], taken apart *)

Lemma rem_nonneg_mod k m : 0 < m → 0 <= Z.rem k m → Z.rem k m = k mod m.
Proof.
  intros Hm Hr. destruct (Z.le_gt_cases 0 k) as [Hk|Hk].
  - apply Z.rem_mod_nonneg; lia.
  - pose proof (Z.rem_nonpos k m ltac:(lia) ltac:(lia)) as Hn.
    assert (H0 : Z.rem k m = 0) by lia.
    rewrite H0. symmetry. apply Z.mod_divide; [lia|].
    apply Z.rem_divide; [lia|exact H0].
Qed.

Lemma getBucketIndex_inv key s i :
  _getBucketIndex key s = Ok i →
  i = Z.rem key (2 ^ globalDepth s) ∧ 0 <= globalDepth s < 31.
Proof.
  unfold _getBucketIndex, _getBucketIndex2. intros H.
  apply bind_inv_Ok in H as (m & Hm & H). injection H as <-.
  apply shl1_inv in Hm as [-> Hgd]. auto.
Qed.

Lemma store_same s a b :
  heap s !! a = Some (Cell b false) → store (Some a) b s = s.
Proof.
  intros H. destruct s. unfold store, with_heap. simpl in *.
  rewrite list_insert_id by exact H. reflexivity.
Qed.

Lemma cap_inv_but_weaken x s : cap_inv_but None s → cap_inv_but x s.
Proof. intros H i a c Hi Hs Hc _. apply (H i a c); auto. Qed.

Lemma cap_inv_but_strengthen a s :
  cap_inv_but (Some a) s →
  (∀ c, heap s !! a = Some c →
        Z.of_nat (length (DataBucket.data (obj c))) <= bucketSize s) →
  cap_inv_but None s.
Proof.
  intros H Ha i a' c Hi Hs Hc _.
  destruct (decide (a' = a)) as [->|Hne]; [apply Ha; exact Hc|].
  apply (H i a' c); auto. congruence.
Qed.

Lemma extend_inv s s' :
  dir_ok s → 0 <= globalDepth s →
  extend s = Ok s' → s' = extended s ∧ globalDepth s < 30.
Proof.
  intros Hdir Hgd H.
  assert (Hlt : globalDepth s < 30).
  { unfold extend in H. apply bind_inv_Ok in H as (g & Hg & H).
    apply int_chk_inv in Hg as [-> _].
    apply bind_inv_Ok in H as (n & Hn & _). apply shl1_inv in Hn. lia. }
  rewrite extend_extended in H by (auto; lia). injection H as <-. auto.
Qed.

Lemma splitImage_gd f i s s' :
  splitImage_with f i s = Ok s' → 1 <= globalDepth s.
Proof.
  unfold splitImage_with. intros H.
  apply bind_inv_Ok in H as (e & He & H). apply int_chk_inv in He as [-> _].
  apply bind_inv_Ok in H as (h & Hh & _). apply shl1_inv in Hh. lia.
Qed.

Lemma add_S_inv m key s r s' :
  add (S m) key s = Ok (r, s') →
  ∃ a b ret b',
    _getBucketIndex key s = Ok r
    ∧ vec_get r s = Ok (Some a)
    ∧ heap s !! a = Some (Cell b false)
    ∧ DataBucket.insert key b = (ret, b')
    ∧ ((ret ≠ 2 ∧ s' = store (Some a) b' s)
       ∨ (ret = 2
          ∧ ∃ s2, (if DataBucket.localDepth b' =? globalDepth s
                   then extend (store (Some a) b' s)
                   else Ok (store (Some a) b' s)) = Ok s2
                  ∧ splitImage_with (add m) r s2 = Ok s')).
Proof.
  rewrite add_S. intros H.
  apply bind_inv_Ok in H as (i & Hi & H).
  apply bind_inv_Ok in H as (p & Hp & H).
  apply bind_inv_Ok in H as (b & Hb & H).
  apply deref_inv in Hb as (a & -> & Ha).
  destruct (DataBucket.insert key b) as [ret b'] eqn:Hins.
  cbv zeta in H.
  destruct (ret =? 2) eqn:Hret.
  - apply Z.eqb_eq in Hret.
    apply bind_inv_Ok in H as (s2 & Hs2 & H).
    apply bind_inv_Ok in H as (s3 & Hs3 & H). injection H as <- <-.
    exists a, b, ret, b'. repeat (split; [assumption|]).
    right. split; [exact Hret|]. exists s2. split; assumption.
  - apply Z.eqb_neq in Hret. injection H as <- <-.
    exists a, b, ret, b'. repeat (split; [assumption|]).
    left. auto.
Qed.

Lemma at_addr_store x t w bw bw' :
  at_addr x t →
  heap t !! w = Some (Cell bw false) →
  (∀ y, y ∈ DataBucket.data bw → y ∈ DataBucket.data bw') →
  at_addr x (store (Some w) bw' t).
Proof.
  intros (i & a & b & Hi & Hv & Ha & Hx) Hw Hsub.
  destruct (decide (a = w)) as [->|Hne].
  - exists i, w, bw'. split; [exact Hi|]. split.
    + rewrite <- Hv. apply vec_get_buckets. reflexivity.
    + split; [eapply heap_store_eq; eauto|].
      apply Hsub. rewrite Hw in Ha. injection Ha as <-. exact Hx.
  - exists i, a, b. split; [exact Hi|]. split.
    + rewrite <- Hv. apply vec_get_buckets. reflexivity.
    + split; [|exact Hx]. simpl. rewrite list_lookup_insert_ne by auto. exact Ha.
Qed.

Lemma to_size_t_capacity cap : 0 < cap <= INT_MAX → to_size_t cap = cap.
Proof. unfold INT_MAX, to_size_t. intros H. apply Z.mod_small. lia. Qed.

(** An insertion that does not overflow keeps the invariant and leaves
    the key at its address. *)
Lemma plain_insert_inv key s i a b ret b' :
  table_inv s →
  _getBucketIndex key s = Ok i → vec_get i s = Ok (Some a) →
  heap s !! a = Some (Cell b false) →
  DataBucket.insert key b = (ret, b') → ret ≠ 2 →
  table_inv (store (Some a) b' s) ∧ at_addr key (store (Some a) b' s)
  ∧ DataBucket.size b' = DataBucket.size b
  ∧ DataBucket.localDepth b' = DataBucket.localDepth b
  ∧ (∀ y, y ∈ DataBucket.data b' ↔ y = key ∨ y ∈ DataBucket.data b)
  ∧ (length (DataBucket.data b') <= S (length (DataBucket.data b)))%nat.
Proof.
  intros [Hst Hcapinv] Hi Hv Ha Hins Hret.
  destruct (getBucketIndex_inv _ _ _ Hi) as [Hrem Hgd].
  destruct (vec_get_slot _ _ _ Hv) as [Hr Hs].
  rewrite (si_dir s Hst) in Hr.
  assert (Hpos := pow2_pos (globalDepth s) ltac:(lia)).
  assert (Hmod : key mod 2 ^ globalDepth s = i).
  { rewrite Hrem. symmetry. apply rem_nonneg_mod; lia. }
  assert (Hsz : DataBucket.size b = bucketSize s).
  { destruct (si_live s Hst i Hr) as (a' & b0 & Hs' & Ha' & Hsz').
    rewrite Hs in Hs'. injection Hs' as <-.
    rewrite Ha in Ha'. injection Ha' as <-. exact Hsz'. }
  assert (Hkeys : (∀ y, y ∈ DataBucket.data b' ↔ y = key ∨ y ∈ DataBucket.data b)
                  ∧ DataBucket.size b' = DataBucket.size b
                  ∧ DataBucket.localDepth b' = DataBucket.localDepth b
                  ∧ (length (DataBucket.data b') <= S (length (DataBucket.data b)))%nat
                  ∧ Z.of_nat (length (DataBucket.data b')) <= bucketSize s).
  { assert (Hold : Z.of_nat (length (DataBucket.data b)) <= bucketSize s).
    { apply (Hcapinv i a (Cell b false)); auto; congruence. }
    destruct (insert_cases _ _ _ _ Hins) as [(_ & -> & Hin)|(-> & [[_ Hle]|[H2 _]])].
    - split; [|repeat split; auto; lia].
      intros y. split; [auto|]. intros [->|H]; auto.
    - simpl in *. split; [intros y; apply elem_set_insert|].
      repeat split; auto; [apply length_set_insert|].
      rewrite Hsz, to_size_t_capacity in Hle by (apply (si_cap s Hst)). exact Hle.
    - contradiction. }
  destruct Hkeys as (Hk & Hs1 & Hs2 & Hs3 & Hs4).
  split; [split|].
  - apply (struct_store s i a b b'); auto.
    intros x Hx. apply Hk in Hx as [->|Hx]; [right|left; exact Hx].
    rewrite Hmod. exact Hs.
  - apply (cap_store s a b); auto.
  - split; [|auto].
    exists i, a, b'. split; [exact Hi|]. split.
    + rewrite <- Hv. apply vec_get_buckets. reflexivity.
    + split; [eapply heap_store_eq; eauto|]. apply Hk. auto.
Qed.

(** ** The re-insertion loop of [splitImage] *)

Lemma add_fuel_pos n key s r : add n key s = Ok r → ∃ m, n = S m.
Proof. destruct n; [discriminate|eauto]. Qed.

Lemma at_addr_cell x t :
  at_addr x t →
  ∃ a b, slot (x mod 2 ^ globalDepth t) t = Some (Some a)
         ∧ heap t !! a = Some (Cell b false) ∧ x ∈ DataBucket.data b.
Proof.
  intros (i & a & b & Hi & Hv & Ha & Hx).
  destruct (getBucketIndex_inv _ _ _ Hi) as [Hrem Hgd].
  destruct (vec_get_slot _ _ _ Hv) as [Hr Hs].
  assert (Hpos := pow2_pos (globalDepth t) ltac:(lia)).
  exists a, b. split; [|auto].
  rewrite <- (rem_nonneg_mod x (2 ^ globalDepth t)) by lia.
  rewrite <- Hrem. exact Hs.
Qed.

Lemma reinsert_inv n a q :
  add_keeps n → a ≠ q →
  ∀ (todo : list Z) t k (done : list Z) s3,
    table_inv t →
    (∃ ba bq, heap t !! a = Some (Cell ba false)
              ∧ heap t !! q = Some (Cell bq false)
              ∧ Z.of_nat (length (DataBucket.data ba))
                + Z.of_nat (length (DataBucket.data bq)) <= k) →
    (∀ x, x ∈ todo ∨ x ∈ done →
          slot (x mod 2 ^ globalDepth t) t = Some (Some a)
          ∨ slot (x mod 2 ^ globalDepth t) t = Some (Some q)) →
    (∀ x, x ∈ done → at_addr x t) →
    k + Z.of_nat (length todo) <= bucketSize t + 1 →
    reinsert (add n) todo t = Ok s3 →
    table_inv s3 ∧ ∀ x, x ∈ done ∨ x ∈ todo → at_addr x s3.
Proof.
  intros IH Haq todo.
  induction todo as [|e rest IHtodo]; intros t k done s3 Hinv Hcells Hwhere Hdone Hk Hre.
  { simpl in Hre. injection Hre as <-. split; [exact Hinv|].
    intros x [Hx|Hx]; [auto|inversion Hx]. }
  cbn [reinsert] in Hre.
  apply bind_inv_Ok in Hre as (j & Hj & Hre).
  apply bind_inv_Ok in Hre as (p0 & Hp0 & Hre).
  apply bind_inv_Ok in Hre as ([r' t'] & Hadd & Hre).
  destruct (add_fuel_pos _ _ _ _ Hadd) as (m & Hn).
  pose proof Hadd as Hadd'. rewrite Hn in Hadd'.
  destruct (add_S_inv _ _ _ _ _ Hadd') as (a0 & b0 & ret & b0' & Hi & Hv & Ha0 & Hins & Hcase).
  destruct Hinv as [Hst Hcapinv].
  destruct (getBucketIndex_inv _ _ _ Hi) as [Hrem Hgd].
  destruct (vec_get_slot _ _ _ Hv) as [Hr Hs].
  rewrite (si_dir t Hst) in Hr.
  assert (Hpos := pow2_pos (globalDepth t) ltac:(lia)).
  assert (Hmod : e mod 2 ^ globalDepth t = r').
  { rewrite Hrem. symmetry. apply rem_nonneg_mod; lia. }
  assert (Ha0q : a0 = a ∨ a0 = q).
  { destruct (Hwhere e) as [H|H].
    - left. apply elem_of_cons. auto.
    - rewrite Hmod, Hs in H. left. congruence.
    - rewrite Hmod, Hs in H. right. congruence. }
  assert (Hsz0 : DataBucket.size b0 = bucketSize t).
  { destruct (si_live t Hst r' Hr) as (a' & b1 & Hs' & Ha' & Hsz').
    rewrite Hs in Hs'. injection Hs' as <-.
    rewrite Ha0 in Ha'. injection Ha' as <-. exact Hsz'. }
  destruct Hcells as (ba & bq & Hba & Hbq & Hsum).
  destruct Hcase as [[Hret ->]|[Hret _]].
  - (* the bucket takes the key *)
    destruct (plain_insert_inv e t r' a0 b0 ret b0' (conj Hst Hcapinv)
                Hi Hv Ha0 Hins Hret)
      as (Hinv' & Hat & _ & _ & Hkeys & Hlen).
    destruct (IHtodo (store (Some a0) b0' t) (k + 1) (e :: done) s3) as [Hinv3 Hall];
      auto.
    + destruct Ha0q as [->| ->].
      * exists b0', bq. split; [eapply heap_store_eq; eauto|]. split.
        -- simpl. rewrite list_lookup_insert_ne by auto. exact Hbq.
        -- rewrite Hba in Ha0. injection Ha0 as ->. lia.
      * exists ba, b0'. split; [|split; [eapply heap_store_eq; eauto|]].
        -- simpl. rewrite list_lookup_insert_ne by auto. exact Hba.
        -- rewrite Hbq in Ha0. injection Ha0 as ->. lia.
    + intros x Hx. rewrite !slot_store.
      change (globalDepth (store (Some a0) b0' t)) with (globalDepth t).
      apply Hwhere. rewrite !elem_of_cons in *. tauto.
    + intros x Hx. apply elem_of_cons in Hx as [->|Hx]; [exact Hat|].
      apply (at_addr_store x t a0 b0 b0'); auto.
      intros y Hy. apply Hkeys. auto.
    + change (bucketSize (store (Some a0) b0' t)) with (bucketSize t).
      simpl length in Hk. lia.
    + split; [exact Hinv3|].
      intros x Hx. apply Hall. rewrite !elem_of_cons in *. tauto.
  - (* the bucket overflows: this was the last key, and all keys are in it *)
    destruct (insert_cases _ _ _ _ Hins) as [(H1 & _)|(Hb0' & [[H0 _]|[_ Hover]])];
      try lia.
    rewrite Hsz0, to_size_t_capacity in Hover by (apply (si_cap t Hst)).
    assert (Hlen' : (length (DataBucket.data b0') <= S (length (DataBucket.data b0)))%nat).
    { rewrite Hb0'. simpl. apply length_set_insert. }
    assert (Hrest : rest = []).
    { destruct rest; [reflexivity|]. exfalso. simpl length in Hk.
      destruct Ha0q as [->| ->].
      - rewrite Hba in Ha0. injection Ha0 as ->. lia.
      - rewrite Hbq in Ha0. injection Ha0 as ->. lia. }
    subst rest. simpl in Hre. injection Hre as <-.
    destruct (IH e t r' t' (conj Hst Hcapinv) Hadd) as (Hinv' & Hat & Hmates).
    split; [exact Hinv'|].
    intros x [Hx|Hx].
    + apply (Hmates a0 b0 b0' Hv Ha0); [rewrite <- Hret; exact Hins|].
      rewrite Hb0'. simpl. apply elem_set_insert. right.
      destruct (at_addr_cell x t (Hdone x Hx)) as (a' & b' & Hs' & Ha' & Hin).
      simpl length in Hk.
      destruct (Hwhere x (or_intror Hx)) as [H|H]; rewrite Hs' in H;
        injection H as ->; destruct Ha0q as [->| ->].
      * rewrite Ha0 in Ha'. injection Ha' as <-. exact Hin.
      * exfalso. rewrite Hbq in Ha0. injection Ha0 as ->.
        rewrite Hba in Ha'. injection Ha' as ->.
        assert (length (DataBucket.data b') = 0)%nat by lia.
        destruct (DataBucket.data b'); [inversion Hin|discriminate].
      * exfalso. rewrite Hba in Ha0. injection Ha0 as ->.
        rewrite Hbq in Ha'. injection Ha' as ->.
        assert (length (DataBucket.data b') = 0)%nat by lia.
        destruct (DataBucket.data b'); [inversion Hin|discriminate].
      * rewrite Ha0 in Ha'. injection Ha' as <-. exact Hin.
    + apply elem_of_cons in Hx as [->|Hx]; [exact Hat|inversion Hx].
Qed.

(** ** The invariant across [add] *)

Lemma split_indices half r :
  0 < half → 0 <= r < 2 * half →
  newBucketIndex_of half r = dataCopy_of half r + half
  ∧ 0 <= dataCopy_of half r < half.
Proof.
  intros Hh Hr. unfold newBucketIndex_of, dataCopy_of.
  destruct (r <? half) eqn:Hlt;
    [apply Z.ltb_lt in Hlt|apply Z.ltb_ge in Hlt]; lia.
Qed.

(** The table on which [splitImage] runs after an overflow: the slot of
    the key and the lower slot paired with it hold the overflowed bucket. *)
Lemma overflow_table key s r a b b' s2 :
  table_inv s →
  _getBucketIndex key s = Ok r → vec_get r s = Ok (Some a) →
  heap s !! a = Some (Cell b false) →
  DataBucket.insert key b = (2, b') →
  (if DataBucket.localDepth b' =? globalDepth s
   then extend (store (Some a) b' s)
   else Ok (store (Some a) b' s)) = Ok s2 →
  1 <= globalDepth s2 →
  struct_inv s2 ∧ cap_inv_but (Some a) s2
  ∧ 0 <= r < 2 ^ globalDepth s2
  ∧ slot r s2 = Some (Some a)
  ∧ slot (dataCopy_of (2 ^ (globalDepth s2 - 1)) r) s2 = Some (Some a)
  ∧ heap s2 !! a = Some (Cell b' false)
  ∧ bucketSize s2 = bucketSize s
  ∧ (∀ x, x ∈ DataBucket.data b' ↔ x = key ∨ x ∈ DataBucket.data b)
  ∧ Z.of_nat (length (DataBucket.data b')) <= bucketSize s + 1.
Proof.
  intros [Hst Hcapinv] Hi Hv Ha Hins Hs2 Hg1.
  destruct (getBucketIndex_inv _ _ _ Hi) as [Hrem Hgd].
  destruct (vec_get_slot _ _ _ Hv) as [Hr Hs].
  rewrite (si_dir s Hst) in Hr.
  assert (Hpos := pow2_pos (globalDepth s) ltac:(lia)).
  assert (Hmod : key mod 2 ^ globalDepth s = r).
  { rewrite Hrem. symmetry. apply rem_nonneg_mod; lia. }
  destruct (insert_cases _ _ _ _ Hins) as [(H1 & _)|(Hb' & _)]; [discriminate|].
  assert (Hfields : DataBucket.size b' = DataBucket.size b
                    ∧ DataBucket.localDepth b' = DataBucket.localDepth b
                    ∧ ∀ x, x ∈ DataBucket.data b' ↔ x = key ∨ x ∈ DataBucket.data b).
  { rewrite Hb'. simpl. split; [reflexivity|]. split; [reflexivity|].
    intros x. apply elem_set_insert. }
  destruct Hfields as (Hsz' & Hld' & Hkeys).
  assert (Hlen : Z.of_nat (length (DataBucket.data b')) <= bucketSize s + 1).
  { assert (Z.of_nat (length (DataBucket.data b)) <= bucketSize s).
    { apply (Hcapinv r a (Cell b false)); auto; congruence. }
    pose proof (length_set_insert key (DataBucket.data b)).
    rewrite Hb'. simpl. lia. }
  set (s1 := store (Some a) b' s) in *.
  assert (Hst1 : struct_inv s1).
  { apply (struct_store s r a b b'); auto.
    intros x Hx. apply Hkeys in Hx as [->|Hx]; [right|left; exact Hx].
    rewrite Hmod. exact Hs. }
  assert (Hcap1 : cap_inv_but (Some a) s1).
  { apply (cap_store s a b); auto; [apply cap_inv_but_weaken; exact Hcapinv|].
    intros H. congruence. }
  assert (Ha1 : heap s1 !! a = Some (Cell b' false)) by (eapply heap_store_eq; eauto).
  assert (Hs1 : slot r s1 = Some (Some a)) by (unfold s1; rewrite slot_store; exact Hs).
  assert (Hgd1 : globalDepth s1 = globalDepth s) by reflexivity.
  destruct (DataBucket.localDepth b' =? globalDepth s) eqn:Heq.
  - destruct (extend_inv s1 s2 (si_dir s1 Hst1) ltac:(rewrite Hgd1; lia) Hs2)
      as [-> H30].
    split; [apply struct_extended; auto|].
    split; [apply cap_extended; auto|].
    assert (Hge : globalDepth (extended s1) = globalDepth s + 1) by reflexivity.
    assert (Hsr : slot r (extended s1) = Some (Some a)).
    { rewrite slot_extended;
        [|apply (si_dir s1 Hst1)|rewrite Hgd1; lia
         |rewrite Hgd1, pow2_succ by lia; lia].
      rewrite Hgd1, Z.mod_small by lia. exact Hs1. }
    rewrite Hge.
    replace (globalDepth s + 1 - 1) with (globalDepth s) by lia.
    rewrite pow2_succ by lia.
    split; [lia|]. split; [exact Hsr|].
    split; [|split; [exact Ha1|split; [reflexivity|split; assumption]]].
    unfold dataCopy_of.
    replace (r <? 2 ^ globalDepth s) with true by (symmetry; apply Z.ltb_lt; lia).
    exact Hsr.
  - injection Hs2 as <-. apply Z.eqb_neq in Heq.
    rewrite Hgd1 in *.
    split; [exact Hst1|]. split; [exact Hcap1|]. split; [lia|].
    split; [exact Hs1|].
    split; [|split; [exact Ha1|split; [reflexivity|split; assumption]]].
    set (half := 2 ^ (globalDepth s - 1)).
    assert (Hhalf : 0 < half) by (apply pow2_pos; lia).
    assert (Hpow : 2 ^ globalDepth s = 2 * half) by (apply pow2_pred; lia).
    unfold dataCopy_of. destruct (r <? half) eqn:Hlt; [exact Hs1|].
    apply Z.ltb_ge in Hlt.
    destruct (decide (slot r s1 = slot (r - half) s1)) as [Hsame|Hdiff].
    + rewrite <- Hsame. exact Hs1.
    + exfalso. apply Heq. rewrite <- Hgd1.
      apply (si_depth s1 Hst1 r a (Cell b' false)); auto.
      rewrite Hgd1. fold half. lia.
Qed.

Lemma add_keeps_all : ∀ n, add_keeps n.
Proof.
  induction n as [|n IHn]; intros key s r s' Hinv Hadd; [discriminate|].
  destruct (add_S_inv _ _ _ _ _ Hadd) as (a & b & ret & b' & Hi & Hv & Ha & Hins & Hcase).
  destruct Hcase as [[Hret ->]|[Hret (s2 & Hs2 & Hsplit)]].
  { destruct (plain_insert_inv key s r a b ret b' Hinv Hi Hv Ha Hins Hret)
      as (Hinv' & Hat & _).
    split; [exact Hinv'|]. split; [exact Hat|].
    intros a1 b1 b1' Hv1 Ha1 Hins1. exfalso.
    rewrite Hv in Hv1. injection Hv1 as <-.
    rewrite Ha in Ha1. injection Ha1 as <-.
    rewrite Hins in Hins1. injection Hins1 as -> _. apply Hret. reflexivity. }
  subst ret.
  pose proof (splitImage_gd _ _ _ _ Hsplit) as Hg2.
  destruct (overflow_table key s r a b b' s2 Hinv Hi Hv Ha Hins Hs2 Hg2)
    as (Hst2 & Hcap2 & Hr2 & _ & Hdc & Ha2 & Hbs2 & Hkeys & Hlen).
  pose proof (si_gd s2 Hst2) as Hgd2.
  set (half := 2 ^ (globalDepth s2 - 1)) in *.
  assert (Hhalf : 0 < half) by (apply pow2_pos; lia).
  assert (Hpow : 2 ^ globalDepth s2 = 2 * half) by (apply pow2_pred; lia).
  destruct (split_indices half r Hhalf ltac:(lia)) as [Hnb Hdcr].
  set (dc := dataCopy_of half r) in *.
  rewrite (splitImage_prelude (add n) r s2 a b') in Hsplit;
    auto; try apply (si_dir s2 Hst2); try lia.
  apply bind_inv_Ok in Hsplit as (ld & _ & Hre).
  fold half in Hre. rewrite Hnb in Hre.
  destruct (struct_split s2 dc a b' Hst2 Hcap2 Hg2 Hdcr Hdc Ha2) as [Hst4 Hcap4].
  fold half in Hst4, Hcap4.
  set (s4 := split_state (dc + half) a b' s2) in *.
  set (q := length (heap s2)).
  assert (Haq : a ≠ q).
  { apply lookup_lt_Some in Ha2. unfold q. lia. }
  assert (Hblen : buckets_size s2 = 2 * half) by (rewrite <- Hpow; apply (si_dir s2 Hst2)).
  destruct (reinsert_inv n a q IHn Haq (DataBucket.data b') s4 0 [] s') as [Hinv' Hall];
    auto.
  - split; assumption.
  - exists (DataBucket.mk (DataBucket.size b') (DataBucket.localDepth b' + 1) []),
           (DataBucket.mk (bucketSize s2) (globalDepth s2) []).
    split; [|split; [|simpl; lia]].
    + unfold s4, split_state. simpl. apply list_lookup_insert_eq.
      apply lookup_lt_Some in Ha2. rewrite length_app. lia.
    + unfold s4, split_state. simpl. rewrite list_lookup_insert_ne by auto.
      rewrite lookup_app_r by (unfold q; lia). unfold q.
      rewrite Nat.sub_diag. reflexivity.
  - intros x [Hx|Hx]; [|inversion Hx].
    change (globalDepth s4) with (globalDepth s2).
    assert (Hold : slot (x mod 2 ^ globalDepth s2) s2 = Some (Some a)).
    { apply (si_addr s2 Hst2 dc a (Cell b' false) x); auto. lia. }
    assert (Hxr : 0 <= x mod 2 ^ globalDepth s2 < 2 * half)
      by (rewrite <- Hpow; apply mod_pow2_range; lia).
    destruct (decide (x mod 2 ^ globalDepth s2 = dc + half)) as [Heq|Hne].
    + right. rewrite Heq. apply slot_split_eq. lia.
    + left. unfold s4. rewrite slot_split_ne by lia. exact Hold.
  - intros x Hx. inversion Hx.
  - change (bucketSize s4) with (bucketSize s2). lia.
  - split; [exact Hinv'|]. split.
    + apply Hall. right. apply Hkeys. auto.
    + intros a1 b1 b1' Hv1 Ha1' Hins1 x Hx.
      rewrite Hv in Hv1. injection Hv1 as <-.
      rewrite Ha in Ha1'. injection Ha1' as <-.
      rewrite Hins in Hins1. injection Hins1 as <-.
      apply Hall. auto.
Qed.

Lemma add_inv fuel key s r s' :
  table_inv s → add fuel key s = Ok (r, s') → table_inv s' ∧ at_addr key s'.
Proof.
  intros Hinv Hadd. destruct (add_keeps_all fuel key s r s' Hinv Hadd) as (H1 & H2 & _).
  auto.
Qed.

Lemma reachable_inv s : reachable s → table_inv s.
Proof.
  induction 1 as [gd sz s Hsz Hc|sz s Hsz Hc|fuel key r s s' _ IH Hadd|key s s' _ IH Hrem].
  - apply (create_inv gd sz); auto.
  - rewrite create0_create in Hc. apply (create_inv 0 sz); auto.
  - apply (add_inv fuel key s r s' IH Hadd).
  - apply (remove_inv key s s' IH Hrem).
Qed.

(** In a reachable table, at every overflow inside [add], the table that
    [splitImage] receives satisfies what C7 asks of it: the slot of the key
    and the lower slot paired with it hold the overflowed bucket. *)
Lemma reachable_overflow_alias key s r a b b' s2 :
  reachable s →
  _getBucketIndex key s = Ok r → vec_get r s = Ok (Some a) →
  deref (Some a) s = Ok b →
  DataBucket.insert key b = (2, b') →
  (if DataBucket.localDepth b' =? globalDepth s
   then extend (store (Some a) b' s)
   else Ok (store (Some a) b' s)) = Ok s2 →
  1 <= globalDepth s2 →
  dir_ok s2 ∧ 1 <= globalDepth s2 <= 30
  ∧ 0 <= r < 2 ^ globalDepth s2
  ∧ vec_get r s2 = Ok (Some a)
  ∧ vec_get (dataCopy_of (2 ^ (globalDepth s2 - 1)) r) s2 = Ok (Some a)
  ∧ deref (Some a) s2 = Ok b'.
Proof.
  intros Hreach Hi Hv Hb Hins Hs2 Hg.
  apply deref_inv in Hb as (? & [= <-] & Ha).
  destruct (overflow_table key s r a b b' s2 (reachable_inv s Hreach)
              Hi Hv Ha Hins Hs2 Hg)
    as (Hst2 & _ & Hr & Hsr & Hdc & Ha2 & _).
  pose proof (si_gd s2 Hst2) as Hgd2.
  assert (Hhalf : 0 < 2 ^ (globalDepth s2 - 1)) by (apply pow2_pos; lia).
  destruct (split_indices (2 ^ (globalDepth s2 - 1)) r Hhalf
              ltac:(rewrite <- pow2_pred by lia; exact Hr)) as [_ Hdcr].
  split; [apply (si_dir s2 Hst2)|]. split; [lia|]. split; [exact Hr|].
  split; [apply slot_vec_get; [lia|exact Hsr]|].
  split; [apply slot_vec_get; [lia|exact Hdc]|].
  apply (deref_Ok a s2 _ Ha2). reflexivity.
Qed.

(** C9.  In a reachable table, once [add key] has returned, a second
    [add key] finds the key in the bucket of its slot: [DataBucket::insert]
    reports 1 (present) and leaves the bucket as it is, and [add] returns
    with the table unchanged: no bucket is modified, the directory is not
    extended and nothing is split. *)
Theorem C9_second_add_is_a_duplicate fuel key s r s' :
  reachable s → add fuel key s = Ok (r, s') →
  ∃ i a b,
    _getBucketIndex key s' = Ok i
    ∧ vec_get i s' = Ok (Some a)
    ∧ deref (Some a) s' = Ok b
    ∧ DataBucket.insert key b = (1, b)
    ∧ ∀ fuel', add (S fuel') key s' = Ok (i, s').
Proof.
  intros Hreach Hadd.
  destruct (add_inv fuel key s r s' (reachable_inv s Hreach) Hadd)
    as [_ (i & a & b & Hi & Hv & Ha & Hx)].
  assert (Hins : DataBucket.insert key b = (1, b)).
  { unfold DataBucket.insert. apply set_find_elem in Hx. rewrite Hx. reflexivity. }
  exists i, a, b. split; [exact Hi|]. split; [exact Hv|].
  split; [apply (deref_Ok a s' _ Ha); reflexivity|]. split; [exact Hins|].
  intros fuel'. rewrite add_S. rewrite Hi, bind_Ok, Hv, bind_Ok.
  rewrite (deref_Ok a s' _ Ha) by reflexivity. rewrite bind_Ok. simpl obj.
  rewrite Hins. cbv zeta. change (1 =? 2) with false. cbv iota.
  rewrite (store_same s' a b Ha). reflexivity.
Qed.

(** In a reachable table, the table that [remove] has after its erase is
    what X27 asks for: a directory of [2 ^ globalDepth] live buckets. *)
Lemma reachable_erase_live key s bucketIndex image e :
  reachable s →
  remove_erase key s = Ok (bucketIndex, image, e) →
  live_dir e ∧ dir_ok e.
Proof.
  intros Hreach Herase.
  destruct (reachable_inv s Hreach) as [Hst _].
  destruct (remove_erase_inv key s bucketIndex image e (si_dir s Hst) Herase)
    as (_ & _ & Hidx & _ & a & b & Hsa & Ha & ->).
  assert (Hste : struct_inv (store (Some a) (DataBucket.erase key b) s)).
  { apply (struct_store s bucketIndex a b); auto.
    intros x Hx. left. apply (elem_set_erase x key). exact Hx. }
  split; [apply struct_live_dir; exact Hste|apply (si_dir _ Hste)].
Qed.


(** * Further properties of the operations *)

(** ** Keys of a bucket, continued *)

Lemma ascending_cons x l :
  ascending (x :: l) = true ↔ (∀ y, y ∈ l → x < y) ∧ ascending l = true.
Proof.
  simpl. rewrite andb_true_iff, forallb_forall.
  split; intros [H1 H2]; (split; [|exact H2]).
  - intros y Hy. apply Z.ltb_lt, H1, list_elem_of_In, Hy.
  - intros y Hy. apply Z.ltb_lt, H1, list_elem_of_In, Hy.
Qed.

Lemma elem_set_erase_iff x k l : x ∈ set_erase k l ↔ x ∈ l ∧ x ≠ k.
Proof.
  induction l as [|y l IH]; simpl.
  - split; [intros H; inversion H|intros [H _]; inversion H].
  - destruct (k =? y) eqn:E; [apply Z.eqb_eq in E|apply Z.eqb_neq in E];
      rewrite ?elem_of_cons, IH, ?elem_of_cons.
    + subst y. split; [tauto|]. intros [[->|H] Hne]; [congruence|auto].
    + split; [|tauto]. intros [->|[H Hne]]; auto.
Qed.

Lemma set_erase_absent k l : k ∉ l → set_erase k l = l.
Proof.
  induction l as [|y l IH]; intros H; simpl; [reflexivity|].
  apply not_elem_of_cons in H as [Hne H].
  destruct (k =? y) eqn:E; [apply Z.eqb_eq in E; congruence|].
  rewrite IH by exact H. reflexivity.
Qed.

Lemma length_set_insert_new k l :
  k ∉ l → length (set_insert k l) = S (length l).
Proof.
  induction l as [|y l IH]; intros H; simpl; [reflexivity|].
  apply not_elem_of_cons in H as [Hne H].
  destruct (k <? y); [reflexivity|].
  destruct (k =? y) eqn:E; [apply Z.eqb_eq in E; congruence|].
  simpl. rewrite IH by exact H. reflexivity.
Qed.

Lemma set_insert_below x l :
  (∀ y, y ∈ l → x < y) → set_insert x l = x :: l.
Proof.
  intros H. destruct l as [|y l]; [reflexivity|].
  simpl. replace (x <? y) with true; [reflexivity|].
  symmetry. apply Z.ltb_lt, H. left.
Qed.

Lemma set_erase_insert x l :
  ascending l = true → x ∉ l → set_erase x (set_insert x l) = l.
Proof.
  induction l as [|y l IH]; intros Hs Hx.
  - simpl. rewrite Z.eqb_refl. reflexivity.
  - apply ascending_cons in Hs as [Hall Hs].
    apply not_elem_of_cons in Hx as [Hne Hx]. simpl.
    destruct (x <? y) eqn:Hlt.
    + simpl. rewrite Z.eqb_refl.
      destruct (x =? y) eqn:E; [apply Z.eqb_eq in E; congruence|].
      rewrite set_erase_absent by exact Hx. reflexivity.
    + destruct (x =? y) eqn:E; [apply Z.eqb_eq in E; congruence|].
      simpl. rewrite E, IH by assumption. reflexivity.
Qed.

Lemma set_insert_erase x l :
  ascending l = true → x ∈ l → set_insert x (set_erase x l) = l.
Proof.
  induction l as [|y l IH]; intros Hs Hx; [inversion Hx|].
  apply ascending_cons in Hs as [Hall Hs].
  simpl. destruct (x =? y) eqn:E.
  - apply Z.eqb_eq in E. subst y.
    assert (Hnot : x ∉ l).
    { intros Hin. specialize (Hall x Hin). lia. }
    rewrite set_erase_absent by exact Hnot.
    apply set_insert_below. exact Hall.
  - apply Z.eqb_neq in E.
    apply elem_of_cons in Hx as [->|Hx]; [congruence|].
    specialize (Hall x Hx).
    simpl. replace (x <? y) with false by (symmetry; apply Z.ltb_ge; lia).
    replace (x =? y) with false by (symmetry; apply Z.eqb_neq; lia).
    rewrite IH by assumption. reflexivity.
Qed.

Lemma set_insert_ascending x l :
  ascending l = true → ascending (set_insert x l) = true.
Proof.
  induction l as [|y l IH]; intros Hs; [reflexivity|].
  pose proof Hs as Hs0.
  apply ascending_cons in Hs as [Hall Hs]. simpl set_insert.
  destruct (x <? y) eqn:Hlt; [apply Z.ltb_lt in Hlt|apply Z.ltb_ge in Hlt].
  - apply ascending_cons. split; [|exact Hs0].
    intros z Hz. apply elem_of_cons in Hz as [->|Hz]; [exact Hlt|].
    specialize (Hall z Hz). lia.
  - destruct (x =? y) eqn:E; [exact Hs0|].
    apply Z.eqb_neq in E. apply ascending_cons. split; [|auto].
    intros z Hz. apply elem_set_insert in Hz as [->|Hz]; [lia|auto].
Qed.

Lemma set_erase_ascending x l :
  ascending l = true → ascending (set_erase x l) = true.
Proof.
  induction l as [|y l IH]; intros Hs; [reflexivity|].
  apply ascending_cons in Hs as [Hall Hs]. simpl set_erase.
  destruct (x =? y); [auto|].
  apply ascending_cons. split; [|auto].
  intros z Hz. apply elem_set_erase in Hz. auto.
Qed.

Lemma insert_ascending x b :
  ascending (DataBucket.data b) = true →
  ascending (DataBucket.data (DataBucket.insert x b).2) = true.
Proof.
  intros H. unfold DataBucket.insert.
  destruct (set_find x (DataBucket.data b)); [exact H|].
  destruct (_ <=? _); simpl; apply set_insert_ascending; exact H.
Qed.

(** X1.  [DataBucket::insert] returns 0, 1 or 2; it returns 1 exactly when
    the key was in the bucket already, and then the bucket is unchanged.
    Whatever it returns, afterwards the bucket holds the key and exactly
    the keys it held before: also when it reports an overflow (2), the
    key has been put into the bucket.  Capacity and local depth are not
    touched. *)
Theorem X1_insert_keeps_every_key key b :
  ∃ ret b',
    DataBucket.insert key b = (ret, b')
    ∧ (ret = 0 ∨ ret = 1 ∨ ret = 2)
    ∧ (ret = 1 ↔ key ∈ DataBucket.data b)
    ∧ (ret = 1 → b' = b)
    ∧ (∀ x, x ∈ DataBucket.data b' ↔ x = key ∨ x ∈ DataBucket.data b)
    ∧ DataBucket.size b' = DataBucket.size b
    ∧ DataBucket.localDepth b' = DataBucket.localDepth b.
Proof.
  destruct (DataBucket.insert key b) as [ret b'] eqn:Hins.
  exists ret, b'. split; [reflexivity|].
  destruct (insert_cases _ _ _ _ Hins) as [(-> & -> & Hin)|(-> & Hret)].
  - split; [auto|]. split; [tauto|]. split; [auto|].
    split; [|auto]. intros x. split; [auto|]. intros [->|H]; auto.
  - assert (Hnew : key ∉ DataBucket.data b).
    { unfold DataBucket.insert in Hins.
      destruct (set_find key (DataBucket.data b)) eqn:Hf.
      - injection Hins as <- _. destruct Hret as [[? _]|[? _]]; discriminate.
      - intros Hin. apply set_find_elem in Hin. congruence. }
    split; [destruct Hret as [[-> _]|[-> _]]; auto|].
    split; [destruct Hret as [[-> _]|[-> _]]; split; intros; try discriminate; contradiction|].
    split; [destruct Hret as [[-> _]|[-> _]]; discriminate|].
    split; [|auto]. intros x. simpl. apply elem_set_insert.
Qed.

(** X2.  On a bucket whose keys are ascending (as a [std::set] keeps
    them), [erase] undoes [insert] of a key that was not in the bucket,
    [insert] undoes [erase] of a key that was in it, and both leave the
    keys ascending. *)
Theorem X2_erase_undoes_insert key b :
  ascending (DataBucket.data b) = true →
  (key ∉ DataBucket.data b →
   DataBucket.erase key (DataBucket.insert key b).2 = b)
  ∧ (key ∈ DataBucket.data b →
     (DataBucket.insert key (DataBucket.erase key b)).2 = b)
  ∧ ascending (DataBucket.data (DataBucket.insert key b).2) = true
  ∧ ascending (DataBucket.data (DataBucket.erase key b)) = true.
Proof.
  intros Hs. destruct b as [sz ld l]. simpl in Hs.
  unfold DataBucket.insert, DataBucket.erase, DataBucket.with_data. simpl.
  split; [|split; [|split]].
  - intros Hx.
    destruct (set_find key l) eqn:Hf; [apply set_find_elem in Hf; contradiction|].
    destruct (_ <=? _); simpl; rewrite set_erase_insert; auto.
  - intros Hx.
    destruct (set_find key (set_erase key l)) eqn:Hf.
    { apply set_find_elem, elem_set_erase_iff in Hf. tauto. }
    destruct (_ <=? _); simpl; rewrite set_insert_erase; auto.
  - destruct (set_find key l); [exact Hs|].
    destruct (_ <=? _); simpl; apply set_insert_ascending; exact Hs.
  - apply set_erase_ascending. exact Hs.
Qed.

(** X3.  [insert] compares [data.size()] with the capacity as unsigned
    numbers.  For a capacity that is an [int] and a bucket of fewer than
    2^32 keys, it reports an overflow (2) exactly when the key is new and
    the capacity is non-negative and not above the number of keys held
    before; a bucket of negative capacity never reports an overflow. *)
Theorem X3_overflow_compares_unsigned key b :
  INT_MIN <= DataBucket.size b <= INT_MAX →
  Z.of_nat (length (DataBucket.data b)) < 2 ^ 32 →
  ((DataBucket.insert key b).1 = 2
   ↔ (key ∉ DataBucket.data b)
     ∧ 0 <= DataBucket.size b <= Z.of_nat (length (DataBucket.data b))).
Proof.
  unfold INT_MIN, INT_MAX. intros Hsz Hlen.
  unfold DataBucket.insert.
  destruct (set_find key (DataBucket.data b)) eqn:Hf.
  - apply set_find_elem in Hf. simpl. split; [discriminate|tauto].
  - assert (Hnew : key ∉ DataBucket.data b).
    { intros Hin. apply set_find_elem in Hin. congruence. }
    simpl. rewrite length_set_insert_new by exact Hnew.
    unfold to_size_t.
    destruct (Z.lt_ge_cases (DataBucket.size b) 0) as [Hneg|Hpos].
    + replace (DataBucket.size b mod 2 ^ 64) with (DataBucket.size b + 2 ^ 64).
      2:{ symmetry. rewrite <- (Z.mod_add _ 1) by lia.
          rewrite Z.mul_1_l. apply Z.mod_small. lia. }
      destruct (_ <=? _) eqn:E; [apply Z.leb_le in E|apply Z.leb_gt in E]; simpl.
      * split; [discriminate|]. intros [_ H]. lia.
      * lia.
    + rewrite Z.mod_small by lia.
      destruct (_ <=? _) eqn:E; [apply Z.leb_le in E|apply Z.leb_gt in E]; simpl.
      * split; [discriminate|]. intros [_ H]. lia.
      * split; [intros _; split; [exact Hnew|lia]|auto].
Qed.

(** ** Slot indices *)

Lemma getBucketIndex_Ok key s :
  0 <= globalDepth s <= 30 →
  _getBucketIndex key s = Ok (Z.rem key (2 ^ globalDepth s)).
Proof.
  intros H. unfold _getBucketIndex, _getBucketIndex2.
  rewrite shl1_Ok by lia. reflexivity.
Qed.

(** X4.  At a global depth from 0 to 30, [_getBucketIndex] returns an
    index congruent to the key modulo [2 ^ globalDepth].  For a key that
    is not negative this is [key mod 2 ^ globalDepth], a valid slot; for a
    negative key it is zero or negative, and above [- 2 ^ globalDepth],
    since [%] truncates towards zero. *)
Theorem X4_getBucketIndex_range key s :
  0 <= globalDepth s <= 30 →
  ∃ i, _getBucketIndex key s = Ok i
       ∧ (key - i) mod 2 ^ globalDepth s = 0
       ∧ (0 <= key → i = key mod 2 ^ globalDepth s ∧ 0 <= i < 2 ^ globalDepth s)
       ∧ (key < 0 → - 2 ^ globalDepth s < i <= 0).
Proof.
  intros Hgd. exists (Z.rem key (2 ^ globalDepth s)).
  assert (Hpos := pow2_pos (globalDepth s) ltac:(lia)).
  split; [apply getBucketIndex_Ok; exact Hgd|].
  split; [|split].
  - pose proof (Z.quot_rem' key (2 ^ globalDepth s)) as Hqr.
    replace (key - Z.rem key (2 ^ globalDepth s))
      with (Z.quot key (2 ^ globalDepth s) * 2 ^ globalDepth s) by lia.
    apply Z.mod_mul. lia.
  - intros Hk. rewrite Z.rem_mod_nonneg by lia.
    split; [reflexivity|]. apply Z.mod_pos_bound. lia.
  - intros Hk.
    pose proof (Z.rem_nonpos key (2 ^ globalDepth s) ltac:(lia) ltac:(lia)).
    pose proof (Z.rem_bound_pos_neg key (2 ^ globalDepth s) ltac:(lia) ltac:(lia)).
    lia.
Qed.

(** X5.  When [_getBucketIndex] gives a negative index for the key (a
    negative key that is no multiple of [2 ^ globalDepth]), [add] indexes
    the directory at that negative position, whatever the table holds;
    and so does [remove], at a global depth of at least 1. *)
Theorem X5_negative_index_faults key s :
  0 <= globalDepth s <= 30 → Z.rem key (2 ^ globalDepth s) < 0 →
  (∀ fuel, add (S fuel) key s = Fault (BadIndex (Z.rem key (2 ^ globalDepth s))))
  ∧ (1 <= globalDepth s →
     remove key s = Fault (BadIndex (Z.rem key (2 ^ globalDepth s)))).
Proof.
  intros Hgd Hneg.
  assert (Hpos := pow2_pos (globalDepth s) ltac:(lia)).
  assert (Hget : vec_get (Z.rem key (2 ^ globalDepth s)) s
                 = Fault (BadIndex (Z.rem key (2 ^ globalDepth s)))).
  { unfold vec_get.
    replace (0 <=? Z.rem key (2 ^ globalDepth s)) with false
      by (symmetry; apply Z.leb_gt; exact Hneg).
    reflexivity. }
  split.
  - intros fuel. rewrite add_S, getBucketIndex_Ok, bind_Ok, Hget by exact Hgd.
    reflexivity.
  - intros H1. unfold remove, remove_erase.
    rewrite getBucketIndex_Ok, bind_Ok by exact Hgd.
    assert (Hk : key <= 0).
    { destruct (Z.le_gt_cases key 0) as [H|H]; [exact H|].
      pose proof (Z.rem_nonneg key (2 ^ globalDepth s) ltac:(lia) ltac:(lia)). lia. }
    pose proof (Z.rem_bound_pos_neg key (2 ^ globalDepth s) ltac:(lia) Hk) as Hb.
    assert (Hp30 := pow2_le_30 (globalDepth s) Hgd).
    assert (Hh := pow2_pos (globalDepth s - 1) ltac:(lia)).
    assert (Hh30 : 2 ^ (globalDepth s - 1) <= 2 ^ 30) by (apply pow2_le_30; lia).
    unfold getImageIndex.
    rewrite int_chk_Ok by (unfold INT_MIN, INT_MAX; lia). rewrite bind_Ok.
    rewrite shl1_Ok by lia. rewrite bind_Ok.
    replace (Z.rem key (2 ^ globalDepth s) <? 2 ^ (globalDepth s - 1)) with true
      by (symmetry; apply Z.ltb_lt; lia).
    unfold upper_image.
    rewrite int_chk_Ok by (unfold INT_MIN, INT_MAX; lia).
    rewrite !bind_Ok, Hget. reflexivity.
Qed.

(** ** The directory: [extend], [reduceDirectory], [getImageIndex] *)

Lemma dir_ok_extended s : dir_ok s → 0 <= globalDepth s → dir_ok (extended s).
Proof.
  unfold dir_ok, buckets_size. simpl. intros H Hgd.
  rewrite length_app, pow2_succ by lia. lia.
Qed.

Lemma halved_extended s :
  dir_ok s → 0 <= globalDepth s → halved (extended s) = s.
Proof.
  intros Hdir Hgd. destruct s as [gd bs B H].
  unfold dir_ok, buckets_size in Hdir. simpl in *.
  unfold halved, extended. simpl.
  replace (gd + 1 - 1) with gd by lia.
  rewrite <- Hdir, Nat2Z.id, take_app_length. reflexivity.
Qed.

(** X6.  [extend] on a directory of [2 ^ globalDepth] slots, below depth
    30, returns with the depth raised by one, twice as many slots and the
    free store untouched; the slot of every non-negative key under the
    new depth holds the pointer that its slot held under the old depth, so
    no key has to move. *)
Theorem X6_extend_moves_no_key s :
  dir_ok s → 0 <= globalDepth s < 30 →
  ∃ s', extend s = Ok s'
        ∧ globalDepth s' = globalDepth s + 1
        ∧ buckets_size s' = 2 * buckets_size s
        ∧ heap s' = heap s
        ∧ ∀ key, 0 <= key →
            ∃ i i', _getBucketIndex key s = Ok i
                    ∧ _getBucketIndex key s' = Ok i'
                    ∧ vec_get i' s' = vec_get i s.
Proof.
  intros Hdir Hgd. exists (extended s).
  split; [apply extend_extended; auto|].
  split; [reflexivity|].
  split; [unfold buckets_size; simpl; rewrite length_app; lia|].
  split; [reflexivity|].
  intros key Hk.
  assert (Hpos := pow2_pos (globalDepth s) ltac:(lia)).
  exists (key mod 2 ^ globalDepth s), (key mod 2 ^ (globalDepth s + 1)).
  split; [rewrite getBucketIndex_Ok, Z.rem_mod_nonneg by lia; reflexivity|].
  split.
  { rewrite getBucketIndex_Ok by (simpl; lia). simpl globalDepth.
    rewrite Z.rem_mod_nonneg; [reflexivity|lia|].
    apply pow2_pos. lia. }
  pose proof (mod_pow2_range key (globalDepth s + 1) ltac:(lia)) as Hr'.
  pose proof (mod_pow2_range key (globalDepth s) ltac:(lia)) as Hr.
  pose proof (slot_extended s (key mod 2 ^ (globalDepth s + 1)) Hdir ltac:(lia) Hr') as Hs.
  rewrite mod_pow2_mod in Hs by lia.
  unfold dir_ok in Hdir.
  assert (Hlen' : buckets_size (extended s) = 2 ^ (globalDepth s + 1)).
  { unfold buckets_size. simpl. rewrite length_app.
    unfold buckets_size in Hdir. rewrite pow2_succ by lia. lia. }
  unfold vec_get. rewrite Hlen', Hdir.
  replace ((0 <=? key mod 2 ^ (globalDepth s + 1))
           && (key mod 2 ^ (globalDepth s + 1) <? 2 ^ (globalDepth s + 1))) with true
    by (symmetry; apply andb_true_iff; split; [apply Z.leb_le|apply Z.ltb_lt]; lia).
  replace ((0 <=? key mod 2 ^ globalDepth s)
           && (key mod 2 ^ globalDepth s <? 2 ^ globalDepth s)) with true
    by (symmetry; apply andb_true_iff; split; [apply Z.leb_le|apply Z.ltb_lt]; lia).
  unfold slot in Hs. rewrite Hs.
  destruct (buckets s !! Z.to_nat (key mod 2 ^ globalDepth s)) eqn:Hl; [reflexivity|].
  apply lookup_ge_None in Hl. unfold buckets_size in Hdir. lia.
Qed.

(** X7.  [reduceDirectory] after [extend] gives back the table as it
    was. *)
Theorem X7_reduceDirectory_undoes_extend s :
  dir_ok s → 0 <= globalDepth s < 30 →
  (extend s ≫= reduceDirectory) = Ok s.
Proof.
  intros Hdir Hgd. rewrite extend_extended, bind_Ok by auto.
  rewrite reduceDirectory_spec.
  - rewrite halved_extended by (auto; lia). reflexivity.
  - unfold dir_ok, buckets_size in *. simpl. rewrite length_app.
    rewrite pow2_succ by lia. lia.
  - simpl. lia.
Qed.

(** X8.  In a directory of [2 ^ globalDepth] slots, at a depth from 1 to
    30, [getImageIndex] maps a slot to the slot half a directory away,
    which is again a valid slot, and the image of the image is the slot
    itself.  The image never equals the slot: the test
    [image != bucketIndex] in [remove] never fails. *)
Theorem X8_getImageIndex_involution i s :
  dir_ok s → 1 <= globalDepth s <= 30 → 0 <= i < 2 ^ globalDepth s →
  ∃ j, getImageIndex i s = Ok j
       ∧ 0 <= j < 2 ^ globalDepth s
       ∧ Z.abs (j - i) = 2 ^ (globalDepth s - 1)
       ∧ getImageIndex j s = Ok i.
Proof.
  intros Hdir Hgd Hi.
  set (half := 2 ^ (globalDepth s - 1)).
  assert (Hhalf : 0 < half) by (apply pow2_pos; lia).
  assert (Hpow : 2 ^ globalDepth s = 2 * half) by (apply pow2_pred; lia).
  assert (Hp30 := pow2_le_30 (globalDepth s) ltac:(lia)).
  destruct (Z.lt_ge_cases i half) as [Hlt|Hge].
  - exists (i + half).
    split; [apply getImageIndex_lower; [exact Hdir|exact Hgd|fold half; lia]|].
    split; [lia|]. split; [lia|].
    rewrite getImageIndex_upper; [f_equal; fold half; lia|lia|].
    fold half. unfold INT_MAX. lia.
  - exists (i - half).
    split; [apply getImageIndex_upper; [lia|fold half; unfold INT_MAX; lia]|].
    split; [lia|]. split; [lia|].
    rewrite getImageIndex_lower; [f_equal; fold half; lia|exact Hdir|lia|fold half; lia].
Qed.

(** ** Construction and destruction *)

Lemma create_Ok _globalDepth _size :
  0 <= _globalDepth <= 30 →
  create _globalDepth _size
  = Ok (EHM _globalDepth _size
            (Some <$> seq 0 (Z.to_nat (2 ^ _globalDepth)))
            (replicate (Z.to_nat (2 ^ _globalDepth))
                       (Cell (DataBucket.mk _size _globalDepth []) false))).
Proof.
  intros Hgd. unfold create. rewrite shl1_Ok by lia. rewrite bind_Ok.
  cbn [buckets]. rewrite resize_nil, length_replicate.
  apply (init_loop_spec _size _globalDepth (Z.to_nat (2 ^ _globalDepth)) 0); reflexivity.
Qed.

(** X9.  The constructor with a global depth from 0 to 30 builds
    [2 ^ globalDepth] slots, slot [i] pointing to its own new bucket [i],
    empty, of the given capacity (which is not checked) and of local depth
    [globalDepth].  With any other depth it shifts by an amount outside
    0..30.  The one-argument constructor builds what the two-argument
    constructor builds for depth 0. *)
Theorem X9_create_builds_separate_empty_buckets _globalDepth _size :
  (0 <= _globalDepth <= 30 →
   create _globalDepth _size
   = Ok (EHM _globalDepth _size
             (Some <$> seq 0 (Z.to_nat (2 ^ _globalDepth)))
             (replicate (Z.to_nat (2 ^ _globalDepth))
                        (Cell (DataBucket.mk _size _globalDepth []) false))))
  ∧ (¬ 0 <= _globalDepth <= 30 →
     create _globalDepth _size = Fault (BadShift _globalDepth))
  ∧ create0 _size = create 0 _size.
Proof.
  split; [apply create_Ok|]. split; [|apply create0_create].
  intros Hgd. unfold create, shl1.
  destruct ((0 <=? _globalDepth) && (_globalDepth <? 31)) eqn:E; [|reflexivity].
  apply andb_true_iff in E as [H1 H2].
  apply Z.leb_le in H1. apply Z.ltb_lt in H2. lia.
Qed.

Lemma destructor_loop_Ok bs : ∀ s,
  NoDup bs →
  (∀ p, p ∈ bs → ∃ a b, p = Some a ∧ heap s !! a = Some (Cell b false)) →
  ∃ s', destructor_loop bs s = Ok s'
        ∧ (∀ a, Some a ∈ bs → ∃ b, heap s' !! a = Some (Cell b true))
        ∧ (∀ a, Some a ∉ bs → heap s' !! a = heap s !! a).
Proof.
  induction bs as [|p bs IH]; intros s Hnd Hlive.
  - exists s. split; [reflexivity|]. split; [|auto].
    intros a Ha. inversion Ha.
  - pose proof (NoDup_cons_1_1 _ _ Hnd) as Hp. apply NoDup_cons_1_2 in Hnd.
    destruct (Hlive p ltac:(left)) as (a & b & -> & Ha).
    set (s1 := with_heap (<[a := Cell (DataBucket.with_data [] b) true]> (heap s)) s).
    assert (Hd : delete (Some a) s = Ok s1).
    { unfold delete. rewrite (deref_Ok a s _ Ha) by reflexivity. reflexivity. }
    destruct (IH s1 Hnd) as (s' & Hrun & Hrel & Hkeep).
    { intros p Hin. destruct (Hlive p ltac:(right; exact Hin)) as (a' & b' & -> & Ha').
      exists a', b'. split; [reflexivity|]. simpl.
      rewrite list_lookup_insert_ne; [exact Ha'|]. intros ->. contradiction. }
    exists s'. split; [cbn [destructor_loop]; rewrite Hd; exact Hrun|]. split.
    + intros a' Ha'. apply elem_of_cons in Ha' as [[= ->]|Ha']; [|auto].
      rewrite (Hkeep a Hp). simpl. apply lookup_lt_Some in Ha.
      rewrite list_lookup_insert_eq by exact Ha. eauto.
    + intros a' Ha'. apply not_elem_of_cons in Ha' as [Hne Ha'].
      rewrite (Hkeep a' Ha'). simpl.
      rewrite list_lookup_insert_ne; [reflexivity|congruence].
Qed.

Lemma destructor_loop_twice bs : ∀ s,
  (∀ p, p ∈ bs → ∃ a c, p = Some a ∧ heap s !! a = Some c) →
  (NoDup bs ∧ ∀ p, p ∈ bs → ∃ a b, p = Some a ∧ heap s !! a = Some (Cell b false))
  ∨ ∃ a, Some a ∈ bs ∧ destructor_loop bs s = Fault (UseAfterFree a).
Proof.
  induction bs as [|p bs IH]; intros s Hcells.
  - left. split; [constructor|]. intros p Hp. inversion Hp.
  - destruct (Hcells p ltac:(left)) as (a & [b rel] & -> & Ha).
    destruct rel.
    { right. exists a. split; [left|]. cbn [destructor_loop]. unfold delete, deref.
      rewrite Ha. reflexivity. }
    set (s1 := with_heap (<[a := Cell (DataBucket.with_data [] b) true]> (heap s)) s).
    assert (Hd : delete (Some a) s = Ok s1).
    { unfold delete. rewrite (deref_Ok a s _ Ha) by reflexivity. reflexivity. }
    assert (Ha1 : heap s1 !! a = Some (Cell (DataBucket.with_data [] b) true)).
    { simpl. apply list_lookup_insert_eq. apply lookup_lt_Some in Ha. exact Ha. }
    destruct (IH s1) as [[Hnd Hlive]|(a' & Hin & Hf)].
    + intros p Hin. destruct (Hcells p ltac:(right; exact Hin)) as (a' & c & -> & Ha').
      destruct (decide (a' = a)) as [->|Hne]; [eauto|].
      exists a', c. split; [reflexivity|]. simpl.
      rewrite list_lookup_insert_ne by congruence. exact Ha'.
    + left.
      assert (Hp : Some a ∉ bs).
      { intros Hin. destruct (Hlive _ Hin) as (a' & b' & [= <-] & Hb').
        rewrite Ha1 in Hb'. discriminate. }
      split; [apply NoDup_cons_2; assumption|].
      intros p Hin. apply elem_of_cons in Hin as [->|Hin]; [eauto|].
      destruct (Hlive p Hin) as (a' & b' & -> & Hb').
      exists a', b'. split; [reflexivity|].
      simpl in Hb'. rewrite list_lookup_insert_ne in Hb'; [exact Hb'|].
      intros ->. contradiction.
    + right. exists a'. split; [right; exact Hin|].
      cbn [destructor_loop]. rewrite Hd. exact Hf.
Qed.

Lemma live_dir_elem s p :
  live_dir s → p ∈ buckets s → ∃ a b, p = Some a ∧ heap s !! a = Some (Cell b false).
Proof.
  intros Hlive Hp. apply list_elem_of_lookup in Hp as (i & Hi).
  apply (Hlive i p Hi).
Qed.

(** X10.  The destructor deletes once per directory slot.  On a directory
    of live buckets: when no two slots hold the same pointer, it returns,
    the directory is empty, every bucket that a slot pointed to is
    released, and every other cell of the free store is left as it was
    (a bucket that no slot points to any more is never released); when two
    slots hold the same pointer, that bucket is deleted a second time. *)
Theorem X10_destructor_frees_each_slot s :
  live_dir s →
  (NoDup (buckets s) →
   ∃ s', destructor s = Ok s' ∧ buckets s' = []
         ∧ (∀ a, Some a ∈ buckets s → ∃ b, heap s' !! a = Some (Cell b true))
         ∧ (∀ a, Some a ∉ buckets s → heap s' !! a = heap s !! a))
  ∧ (¬ NoDup (buckets s) →
     ∃ a, Some a ∈ buckets s ∧ destructor s = Fault (UseAfterFree a)).
Proof.
  intros Hlive. split.
  - intros Hnd.
    destruct (destructor_loop_Ok (buckets s) s Hnd) as (s' & Hrun & Hrel & Hkeep).
    { intros p Hp. apply live_dir_elem; assumption. }
    exists (with_buckets [] s'). unfold destructor. rewrite Hrun.
    split; [reflexivity|]. split; [reflexivity|]. split; assumption.
  - intros Hdup.
    destruct (destructor_loop_twice (buckets s) s) as [[Hnd _]|(a & Hin & Hf)].
    + intros p Hp. destruct (live_dir_elem s p Hlive Hp) as (a & b & -> & Ha). eauto.
    + contradiction.
    + exists a. split; [exact Hin|]. unfold destructor. rewrite Hf. reflexivity.
Qed.

(** ** Reachable tables *)

Lemma run_reachable fuel os : ∀ s s',
  reachable s → run fuel os s = Ok s' → reachable s'.
Proof.
  induction os as [|o os IH]; intros s s' Hreach Hrun; simpl in Hrun.
  - injection Hrun as <-. exact Hreach.
  - apply bind_inv_Ok in Hrun as (s1 & Hstep & Hrun).
    apply (IH s1 s'); [|exact Hrun].
    destruct o as [key|key]; simpl in Hstep.
    + apply bind_inv_Ok in Hstep as ([r t] & Hadd & Hstep). injection Hstep as <-.
      apply (reachable_add fuel key r s t Hreach Hadd).
    + apply (reachable_remove key s s1 Hreach Hstep).
Qed.

Lemma run_main_reachable fuel os s : run_main fuel os = Ok s → reachable s.
Proof.
  unfold run_main. intros H. apply bind_inv_Ok in H as (s0 & Hs0 & Hrun).
  apply (run_reachable fuel os s0 s); [|exact Hrun].
  apply (reachable_create 0 2); [unfold INT_MAX; lia|exact Hs0].
Qed.

(** X11.  In every reachable table the global depth is between 0 and 30,
    the directory has [2 ^ globalDepth] slots, and every slot points to a
    live bucket of capacity [bucketSize], holding at most [bucketSize]
    keys, each of which is found again through the slot
    [key mod 2 ^ globalDepth]. *)
Theorem X11_reachable_tables_are_well_formed s :
  reachable s →
  0 <= globalDepth s <= 30
  ∧ buckets_size s = 2 ^ globalDepth s
  ∧ ∀ i, 0 <= i < buckets_size s →
      ∃ a b, vec_get i s = Ok (Some a)
             ∧ deref (Some a) s = Ok b
             ∧ DataBucket.size b = bucketSize s
             ∧ Z.of_nat (length (DataBucket.data b)) <= bucketSize s
             ∧ ∀ key, key ∈ DataBucket.data b →
                 vec_get (key mod 2 ^ globalDepth s) s = Ok (Some a).
Proof.
  intros Hreach. destruct (reachable_inv s Hreach) as [Hst Hcap].
  pose proof (si_gd s Hst) as Hgd. pose proof (si_dir s Hst) as Hdir.
  split; [exact Hgd|]. split; [exact Hdir|].
  intros i Hi. rewrite Hdir in Hi.
  destruct (si_live s Hst i Hi) as (a & b & Hs & Ha & Hsz).
  exists a, b.
  split; [apply slot_vec_get; [lia|exact Hs]|].
  split; [apply (deref_Ok a s _ Ha); reflexivity|].
  split; [exact Hsz|].
  split; [apply (Hcap i a (Cell b false) Hi Hs Ha); discriminate|].
  intros key Hkey.
  pose proof (mod_pow2_range key (globalDepth s) ltac:(lia)) as Hr.
  apply slot_vec_get; [lia|].
  apply (si_addr s Hst i a (Cell b false) key Hi Hs Ha Hkey).
Qed.

(** ** The keys of a table *)

Lemma present_stored x s : present x s = true ↔ stored x s.
Proof.
  unfold present, stored. rewrite existsb_exists. split.
  - intros (i & Hin & Hres). apply in_seq in Hin. unfold resides in Hres.
    destruct (vec_get (Z.of_nat i) s) as [p| |] eqn:Hv; try discriminate.
    destruct (deref p s) as [b| |] eqn:Hb; try discriminate.
    apply vec_get_inv in Hv as [_ Hl]. rewrite Nat2Z.id in Hl.
    apply deref_inv in Hb as (a & -> & Ha).
    exists i, a, b. split; [exact Hl|]. split; [exact Ha|].
    apply set_find_elem. exact Hres.
  - intros (i & a & b & Hl & Ha & Hx). exists i.
    apply lookup_lt_Some in Hl as Hlt.
    split; [apply in_seq; lia|]. unfold resides.
    rewrite (vec_get_Ok (Z.of_nat i) s (Some a)); [|lia|rewrite Nat2Z.id; exact Hl].
    rewrite (deref_Ok a s _ Ha) by reflexivity.
    apply set_find_elem. exact Hx.
Qed.

Lemma stored_slot x s :
  dir_ok s → 0 <= globalDepth s →
  (stored x s ↔ ∃ i a b, 0 <= i < 2 ^ globalDepth s
                          ∧ slot i s = Some (Some a)
                          ∧ heap s !! a = Some (Cell b false)
                          ∧ x ∈ DataBucket.data b).
Proof.
  intros Hdir Hgd. unfold dir_ok, buckets_size in Hdir. split.
  - intros (i & a & b & Hl & Ha & Hx). exists (Z.of_nat i), a, b.
    apply lookup_lt_Some in Hl as Hlt.
    split; [lia|]. unfold slot. rewrite Nat2Z.id. auto.
  - intros (i & a & b & Hi & Hs & Ha & Hx). exists (Z.to_nat i), a, b. auto.
Qed.

Lemma stored_elem x s :
  stored x s ↔ ∃ a b, Some a ∈ buckets s
                      ∧ heap s !! a = Some (Cell b false)
                      ∧ x ∈ DataBucket.data b.
Proof.
  split.
  - intros (i & a & b & Hl & H). exists a, b.
    split; [apply (list_elem_of_lookup_2 _ i); exact Hl|exact H].
  - intros (a & b & Hin & H). apply list_elem_of_lookup_1 in Hin as (i & Hl).
    exists i, a, b. auto.
Qed.

Lemma elem_merged x bl bh :
  x ∈ DataBucket.data (merged_bucket bl bh)
  ↔ x ∈ DataBucket.data bl ∨ x ∈ DataBucket.data bh.
Proof.
  destruct (merged_bucket_fields bl bh) as (_ & _ & H).
  rewrite <- !set_find_elem, H, orb_true_iff. reflexivity.
Qed.

Lemma stored_store_insert key s i a b b' :
  buckets s !! i = Some (Some a) → heap s !! a = Some (Cell b false) →
  (∀ y, y ∈ DataBucket.data b' ↔ y = key ∨ y ∈ DataBucket.data b) →
  ∀ x, stored x (store (Some a) b' s) ↔ x = key ∨ stored x s.
Proof.
  intros Hl Ha Hkeys x. apply lookup_lt_Some in Ha as Hlt. split.
  - intros (j & a' & c & Hj & Ha' & Hx). simpl in Hj, Ha'.
    destruct (decide (a' = a)) as [->|Hne].
    + rewrite list_lookup_insert_eq in Ha' by exact Hlt. injection Ha' as <-.
      apply Hkeys in Hx as [->|Hx]; [left; reflexivity|].
      right. exists j, a, b. auto.
    + rewrite list_lookup_insert_ne in Ha' by congruence.
      right. exists j, a', c. auto.
  - intros [->|(j & a' & c & Hj & Ha' & Hx)].
    + exists i, a, b'. split; [exact Hl|]. split.
      * simpl. apply list_lookup_insert_eq. exact Hlt.
      * apply Hkeys. auto.
    + destruct (decide (a' = a)) as [->|Hne].
      * exists j, a, b'. split; [exact Hj|]. split.
        -- simpl. apply list_lookup_insert_eq. exact Hlt.
        -- apply Hkeys. right. rewrite Ha in Ha'. injection Ha' as <-. exact Hx.
      * exists j, a', c. split; [exact Hj|]. split; [|exact Hx].
        simpl. rewrite list_lookup_insert_ne by congruence. exact Ha'.
Qed.

(** ** What [add] keeps *)

Lemma grows_refl s : grows s s.
Proof. split; [lia|]. split; [reflexivity|]. eauto. Qed.

Lemma grows_trans s1 s2 s3 : grows s1 s2 → grows s2 s3 → grows s1 s3.
Proof.
  intros (Hg1 & Hb1 & Hh1) (Hg2 & Hb2 & Hh2).
  split; [lia|]. split; [congruence|].
  intros a c Hc. destruct (Hh1 a c Hc) as (c1 & Hc1 & Hr1 & Hs1).
  destruct (Hh2 a c1 Hc1) as (c2 & Hc2 & Hr2 & Hs2).
  exists c2. split; [exact Hc2|]. split; congruence.
Qed.

Lemma grows_store s a b b' :
  heap s !! a = Some (Cell b false) → DataBucket.size b' = DataBucket.size b →
  grows s (store (Some a) b' s).
Proof.
  intros Ha Hsz. split; [simpl; lia|]. split; [reflexivity|].
  intros x c Hc. destruct (decide (x = a)) as [->|Hne].
  - exists (Cell b' false). split; [eapply heap_store_eq; eauto|].
    rewrite Ha in Hc. injection Hc as <-. auto.
  - exists c. split; [|auto]. simpl. rewrite list_lookup_insert_ne by congruence.
    exact Hc.
Qed.

Lemma grows_heap s s' :
  globalDepth s <= globalDepth s' → bucketSize s' = bucketSize s →
  heap s' = heap s → grows s s'.
Proof.
  intros Hg Hb Hh. split; [exact Hg|]. split; [exact Hb|].
  intros a c Hc. rewrite Hh. eauto.
Qed.

Lemma extend_loop_fields oldDepth count : ∀ i s s',
  extend_loop oldDepth count i s = Ok s' →
  globalDepth s' = globalDepth s ∧ bucketSize s' = bucketSize s ∧ heap s' = heap s.
Proof.
  induction count as [|n IH]; intros i s s' H; simpl in H.
  - injection H as <-. auto.
  - apply bind_inv_Ok in H as (j & _ & H).
    apply bind_inv_Ok in H as (p & _ & H).
    apply bind_inv_Ok in H as (s1 & Hs1 & H).
    apply vec_set_inv in Hs1 as [_ ->].
    destruct (IH _ _ _ H) as (H1 & H2 & H3). auto.
Qed.

Lemma extend_grows s s' : extend s = Ok s' → grows s s'.
Proof.
  unfold extend. intros H.
  apply bind_inv_Ok in H as (gd & Hgd & H). apply int_chk_inv in Hgd as [-> _].
  apply bind_inv_Ok in H as (n & _ & H).
  apply bind_inv_Ok in H as (first & _ & H).
  destruct (extend_loop_fields _ _ _ _ _ H) as (H1 & H2 & H3).
  apply grows_heap; [rewrite H1; simpl; lia|rewrite H2; reflexivity|rewrite H3; reflexivity].
Qed.

Lemma grows_new_bucket _size _localDepth s :
  grows s (new_bucket _size _localDepth s).2.
Proof.
  split; [simpl; lia|]. split; [reflexivity|].
  intros a c Hc. exists c. split; [|auto]. simpl.
  rewrite lookup_app_l by (apply lookup_lt_Some in Hc; exact Hc). exact Hc.
Qed.

Lemma reinsert_grows (f : Z → ExtendibleHashMap → result (Z * ExtendibleHashMap)) :
  (∀ key s r s', f key s = Ok (r, s') → grows s s') →
  ∀ l s s', reinsert f l s = Ok s' → grows s s'.
Proof.
  intros Hf l. induction l as [|x l IH]; intros s s' H; simpl in H.
  - injection H as <-. apply grows_refl.
  - apply bind_inv_Ok in H as (j & _ & H).
    apply bind_inv_Ok in H as (p & _ & H).
    apply bind_inv_Ok in H as ([r t] & Hadd & H).
    apply (grows_trans s t s'); [apply (Hf x s r t Hadd)|apply IH; exact H].
Qed.

Lemma splitImage_grows (f : Z → ExtendibleHashMap → result (Z * ExtendibleHashMap)) :
  (∀ key s r s', f key s = Ok (r, s') → grows s s') →
  ∀ i s s', splitImage_with f i s = Ok s' → grows s s'.
Proof.
  intros Hf i s s' H. unfold splitImage_with in H.
  apply bind_inv_Ok in H as (e & _ & H).
  apply bind_inv_Ok in H as (half & _ & H).
  apply bind_inv_Ok in H as (nb & _ & H).
  apply bind_inv_Ok in H as (dc & _ & H).
  pose proof (grows_new_bucket (bucketSize s) (globalDepth s) s) as Hnew.
  destruct (new_bucket (bucketSize s) (globalDepth s) s) as [q s1] eqn:Hq.
  simpl in Hnew.
  apply bind_inv_Ok in H as (s2 & Hs2 & H). apply vec_set_inv in Hs2 as [_ ->].
  apply bind_inv_Ok in H as (p & _ & H).
  apply bind_inv_Ok in H as (b & Hb & H).
  apply deref_inv in Hb as (a & -> & Ha).
  apply bind_inv_Ok in H as (ld & _ & H).
  apply reinsert_grows in H; [|exact Hf].
  refine (grows_trans _ _ _ Hnew (grows_trans _ _ _ _ H)).
  set (s2 := with_buckets _ s1) in *.
  apply (grows_trans _ (store (Some a) (DataBucket.with_data [] b) s2)).
  - apply (grows_trans s1 s2); [apply grows_heap; simpl; auto; lia|].
    apply (grows_store s2 a b); auto.
  - apply (grows_store _ a (DataBucket.with_data [] b)); [|reflexivity].
    eapply heap_store_eq. exact Ha.
Qed.

Lemma add_grows fuel : ∀ key s r s',
  add fuel key s = Ok (r, s') → grows s s'.
Proof.
  induction fuel as [|n IH]; intros key s r s' H; [discriminate|].
  destruct (add_S_inv _ _ _ _ _ H) as (a & b & ret & b' & _ & _ & Ha & Hins & Hcase).
  assert (Hsz : DataBucket.size b' = DataBucket.size b).
  { pose proof (insert_snd_fields key b) as (Hs & _). rewrite Hins in Hs. exact Hs. }
  pose proof (grows_store s a b b' Ha Hsz) as H1.
  destruct Hcase as [[_ ->]|(_ & s2 & Hs2 & Hsplit)]; [exact H1|].
  apply (grows_trans _ _ _ H1).
  apply (grows_trans _ s2).
  - destruct (_ =? _); [apply extend_grows; exact Hs2|].
    injection Hs2 as <-. apply grows_refl.
  - apply (splitImage_grows (add n) IH r s2 s' Hsplit).
Qed.

(** X12.  On any table, an [add] that returns gives back the index that
    [_getBucketIndex] computed on entry; it has not lowered the global
    depth, not changed [bucketSize], not removed a cell from the free
    store, and left every cell released or live as it was, with its
    capacity. *)
Theorem X12_add_frees_nothing fuel key s r s' :
  add fuel key s = Ok (r, s') →
  _getBucketIndex key s = Ok r
  ∧ globalDepth s <= globalDepth s'
  ∧ bucketSize s' = bucketSize s
  ∧ (length (heap s) <= length (heap s'))%nat
  ∧ ∀ a c, heap s !! a = Some c →
      ∃ c', heap s' !! a = Some c' ∧ released c' = released c
            ∧ DataBucket.size (obj c') = DataBucket.size (obj c).
Proof.
  intros H. destruct (add_grows fuel key s r s' H) as (Hg & Hb & Hh).
  split.
  { destruct (add_fuel_pos _ _ _ _ H) as (m & ->).
    destruct (add_S_inv _ _ _ _ _ H) as (? & ? & ? & ? & Hi & _). exact Hi. }
  split; [exact Hg|]. split; [exact Hb|]. split; [|exact Hh].
  destruct (decide (length (heap s) <= length (heap s'))%nat) as [Hle|Hgt]; [exact Hle|].
  exfalso.
  destruct (lookup_lt_is_Some_2 (heap s) (length (heap s'))) as [c Hc]; [lia|].
  destruct (Hh _ c Hc) as (c' & Hc' & _).
  apply lookup_lt_Some in Hc'. lia.
Qed.

Lemma elem_of_insert_inv {A} (l : list A) i (p q : A) :
  q ∈ <[i := p]> l → q = p ∨ q ∈ l.
Proof.
  intros H. apply list_elem_of_lookup_1 in H as (j & Hj).
  apply list_lookup_insert_Some in Hj as [(_ & -> & _)|(_ & Hj)]; [auto|].
  right. apply (list_elem_of_lookup_2 _ j). exact Hj.
Qed.

Lemma elem_of_resize_inv {A} n (y : A) l q :
  q ∈ resize n y l → q = y ∨ q ∈ l.
Proof.
  rewrite resize_spec, elem_of_app. intros [H|H].
  - right. apply elem_of_take in H as (i & Hi & _).
    apply (list_elem_of_lookup_2 _ i). exact Hi.
  - left. apply elem_of_replicate_inv in H. exact H.
Qed.

Lemma extend_loop_pointers oldDepth count : ∀ i s s',
  extend_loop oldDepth count i s = Ok s' →
  ∀ q, q ∈ buckets s' → q ∈ buckets s.
Proof.
  induction count as [|n IH]; intros i s s' H q Hq; simpl in H.
  - injection H as <-. exact Hq.
  - apply bind_inv_Ok in H as (j & _ & H).
    apply bind_inv_Ok in H as (p & Hp & H).
    apply bind_inv_Ok in H as (s1 & Hs1 & H).
    apply vec_set_inv in Hs1 as [_ ->].
    apply (IH _ _ _ H) in Hq. simpl in Hq.
    apply elem_of_insert_inv in Hq as [->|Hq]; [|exact Hq].
    apply vec_get_inv in Hp as [_ Hp].
    apply (list_elem_of_lookup_2 _ _ _ Hp).
Qed.

Lemma stored_extend s s' x : extend s = Ok s' → stored x s' → stored x s.
Proof.
  unfold extend. intros H.
  apply bind_inv_Ok in H as (gd & _ & H).
  apply bind_inv_Ok in H as (n & _ & H).
  apply bind_inv_Ok in H as (first & _ & H).
  destruct (extend_loop_fields _ _ _ _ _ H) as (_ & _ & Hh).
  pose proof (extend_loop_pointers _ _ _ _ _ H) as Hp.
  rewrite !stored_elem. intros (a & b & Hin & Ha & Hx).
  exists a, b. split; [|split; [rewrite <- Ha, Hh; reflexivity|exact Hx]].
  apply Hp in Hin. simpl in Hin.
  apply elem_of_resize_inv in Hin as [Hn|Hin]; [discriminate|exact Hin].
Qed.

Lemma reinsert_no_new_key (f : Z → ExtendibleHashMap → result (Z * ExtendibleHashMap)) :
  (∀ key s r s', f key s = Ok (r, s') → ∀ x, stored x s' → x = key ∨ stored x s) →
  ∀ l s s', reinsert f l s = Ok s' → ∀ x, stored x s' → x ∈ l ∨ stored x s.
Proof.
  intros Hf l. induction l as [|e l IH]; intros s s' H x Hx; simpl in H.
  - injection H as <-. auto.
  - apply bind_inv_Ok in H as (j & _ & H).
    apply bind_inv_Ok in H as (p & _ & H).
    apply bind_inv_Ok in H as ([r t] & Hadd & H).
    destruct (IH _ _ H x Hx) as [Hin|Ht]; [left; right; exact Hin|].
    destruct (Hf e s r t Hadd x Ht) as [->|Hs]; [left; left|right; exact Hs].
Qed.

Lemma splitImage_no_new_key (f : Z → ExtendibleHashMap → result (Z * ExtendibleHashMap)) :
  (∀ key s r s', f key s = Ok (r, s') → ∀ x, stored x s' → x = key ∨ stored x s) →
  ∀ i s s', splitImage_with f i s = Ok s' → ∀ x, stored x s' → stored x s.
Proof.
  intros Hf i s s' H x Hx. unfold splitImage_with in H.
  apply bind_inv_Ok in H as (e & _ & H).
  apply bind_inv_Ok in H as (half & _ & H).
  apply bind_inv_Ok in H as (nb & _ & H).
  apply bind_inv_Ok in H as (dc & _ & H).
  unfold new_bucket in H.
  apply bind_inv_Ok in H as (s2 & Hs2 & H). apply vec_set_inv in Hs2 as [_ ->].
  apply bind_inv_Ok in H as (p & Hp & H).
  apply bind_inv_Ok in H as (b & Hb & H).
  apply deref_inv in Hb as (a & -> & Ha).
  apply bind_inv_Ok in H as (ld & _ & H).
  apply vec_get_inv in Hp as [_ Hp]. simpl in Hp, Ha.
  set (q := length (heap s)) in *.
  set (new := Cell (DataBucket.mk (bucketSize s) (globalDepth s) []) false) in *.
  (* the bucket that is emptied: the new one, or a bucket of [s] *)
  assert (Hb : DataBucket.data b = []
               ∨ (Some a ∈ buckets s ∧ heap s !! a = Some (Cell b false))).
  { apply lookup_app_Some in Ha as [Ha|[_ Ha]].
    - right. split; [|exact Ha].
      apply list_elem_of_lookup_2 in Hp.
      apply elem_of_insert_inv in Hp as [[= ->]|Hp]; [|exact Hp].
      apply lookup_lt_Some in Ha. unfold q in Ha. lia.
    - left. destruct (a - length (heap s))%nat as [|k]; [|destruct k; discriminate].
      simpl in Ha. injection Ha as <-. reflexivity. }
  destruct (reinsert_no_new_key f Hf _ _ _ H x Hx) as [Hin|Hst].
  { destruct Hb as [Hb|[Hin' Ha']]; [rewrite Hb in Hin; inversion Hin|].
    apply stored_elem. exists a, b. auto. }
  apply stored_elem in Hst as (a' & c & Hin & Hc & Hxc). simpl in Hin, Hc.
  assert (Hlt : (a < length (heap s ++ [new]))%nat) by (apply lookup_lt_Some in Ha; exact Ha).
  destruct (decide (a' = a)) as [->|Hne].
  { rewrite list_lookup_insert_eq in Hc by (rewrite length_insert; exact Hlt).
    injection Hc as <-. inversion Hxc. }
  rewrite !list_lookup_insert_ne in Hc by congruence.
  apply lookup_app_Some in Hc as [Hc|[_ Hc]].
  - apply stored_elem. exists a', c. split; [|auto].
    apply elem_of_insert_inv in Hin as [[= ->]|Hin]; [|exact Hin].
    apply lookup_lt_Some in Hc. unfold q in Hc. lia.
  - destruct (a' - length (heap s))%nat as [|k]; [|destruct k; discriminate].
    simpl in Hc. injection Hc as <-. inversion Hxc.
Qed.

Lemma add_no_new_key fuel : ∀ key s r s',
  add fuel key s = Ok (r, s') → ∀ x, stored x s' → x = key ∨ stored x s.
Proof.
  induction fuel as [|n IH]; intros key s r s' H x Hx; [discriminate|].
  destruct (add_S_inv _ _ _ _ _ H) as (a & b & ret & b' & _ & Hv & Ha & Hins & Hcase).
  apply vec_get_inv in Hv as [_ Hv].
  assert (Hkeys : ∀ y, y ∈ DataBucket.data b' ↔ y = key ∨ y ∈ DataBucket.data b).
  { intros y. pose proof (insert_snd_fields key b) as (_ & _ & Hf).
    rewrite Hins in Hf. simpl in Hf. rewrite <- !set_find_elem, Hf, orb_true_iff, Z.eqb_eq.
    reflexivity. }
  pose proof (stored_store_insert key s _ a b b' Hv Ha Hkeys x) as Hstore.
  apply Hstore.
  destruct Hcase as [[_ ->]|(_ & s2 & Hs2 & Hsplit)]; [exact Hx|].
  apply (splitImage_no_new_key (add n) IH r s2 s' Hsplit) in Hx.
  destruct (_ =? _); [apply (stored_extend _ _ _ Hs2 Hx)|].
  injection Hs2 as <-. exact Hx.
Qed.

(** X13.  On any table, after an [add] that returns, every key found in
    the table is the added key or was in the table before. *)
Theorem X13_add_brings_in_no_other_key fuel key s r s' :
  add fuel key s = Ok (r, s') →
  ∀ x, present x s' = true → x = key ∨ present x s = true.
Proof.
  intros H x. rewrite !present_stored. apply (add_no_new_key fuel key s r s' H).
Qed.

Lemma add_room key s :
  table_inv s → 0 <= key →
  keys_at (key mod 2 ^ globalDepth s) s < bucketSize s →
  ∃ s', (∀ fuel, add (S fuel) key s = Ok (key mod 2 ^ globalDepth s, s'))
        ∧ globalDepth s' = globalDepth s
        ∧ buckets s' = buckets s
        ∧ table_inv s'
        ∧ (∀ x, stored x s' ↔ x = key ∨ stored x s).
Proof.
  intros [Hst Hcap] Hkey Hroom.
  pose proof (si_gd s Hst) as Hgd.
  set (i := key mod 2 ^ globalDepth s) in *.
  assert (Hi : 0 <= i < 2 ^ globalDepth s) by (apply mod_pow2_range; lia).
  destruct (si_live s Hst i Hi) as (a & b & Hs & Ha & Hsz).
  rewrite (keys_at_slot i s a b Hs Ha) in Hroom.
  assert (Hget : _getBucketIndex key s = Ok i).
  { rewrite getBucketIndex_Ok by lia. rewrite Z.rem_mod_nonneg; [reflexivity|lia|].
    apply pow2_pos. lia. }
  assert (Hv : vec_get i s = Ok (Some a)) by (apply slot_vec_get; [lia|exact Hs]).
  destruct (DataBucket.insert key b) as [ret b'] eqn:Hins.
  assert (Hret : ret ≠ 2).
  { destruct (insert_cases _ _ _ _ Hins) as [(-> & _)|(-> & [[-> _]|[_ Hover]])];
      try discriminate.
    exfalso. simpl in Hover.
    rewrite Hsz, to_size_t_capacity in Hover by (apply (si_cap s Hst)).
    pose proof (length_set_insert key (DataBucket.data b)). lia. }
  destruct (plain_insert_inv key s i a b ret b' (conj Hst Hcap) Hget Hv Ha Hins Hret)
    as (Hinv' & _ & _ & _ & Hkeys & _).
  exists (store (Some a) b' s).
  split; [|split; [reflexivity|split; [reflexivity|split; [exact Hinv'|]]]].
  - intros fuel. rewrite add_S, Hget, bind_Ok, Hv, bind_Ok.
    rewrite (deref_Ok a s _ Ha) by reflexivity. rewrite bind_Ok. simpl obj.
    rewrite Hins. cbv zeta.
    replace (ret =? 2) with false by (symmetry; apply Z.eqb_neq; exact Hret).
    reflexivity.
  - apply (stored_store_insert key s (Z.to_nat i) a b b'); auto.
Qed.

(** X14.  In a reachable table, when the bucket behind the slot of a
    non-negative key holds fewer than [bucketSize] keys, [add] returns
    (with any positive fuel) the slot [key mod 2 ^ globalDepth]; global
    depth and directory are unchanged, and the table then holds the key
    and exactly the keys it held before. *)
Theorem X14_add_with_room key s :
  reachable s → 0 <= key →
  keys_at (key mod 2 ^ globalDepth s) s < bucketSize s →
  ∃ s', (∀ fuel, add (S fuel) key s = Ok (key mod 2 ^ globalDepth s, s'))
        ∧ globalDepth s' = globalDepth s
        ∧ buckets s' = buckets s
        ∧ ∀ x, present x s' = (x =? key) || present x s.
Proof.
  intros Hreach Hkey Hroom.
  destruct (add_room key s (reachable_inv s Hreach) Hkey Hroom)
    as (s' & Hadd & Hg & Hb & _ & Hst).
  exists s'. repeat (split; [assumption|]).
  intros x. apply eq_true_iff_eq.
  rewrite orb_true_iff, !present_stored, Z.eqb_eq. apply Hst.
Qed.

(** X15.  An [add] that returns can take a key out of the table: there
    are a reachable table, a key [x] in it and a key to add such that
    [add] returns and [x] is in no bucket of the directory afterwards.
    (In the table of [main] after the insertions 0, 1, 2, 5, 9, 4, the
    insertion of 8 splits the bucket of slot 0, which three slots share,
    and [splitImage] puts the new bucket into slot 4, over the pointer to
    the bucket that holds 4.) *)
Theorem X15_add_can_drop_a_stored_key :
  ∃ s key x r s',
    reachable s ∧ present x s = true
    ∧ (∀ fuel, add (3 + fuel) key s = Ok (r, s'))
    ∧ present x s' = false.
Proof.
  exists table_before_8, 8, 4, 0, table_after_8.
  split; [|split; [|split]].
  - apply (run_main_reachable 4 [Add 0; Add 1; Add 2; Add 5; Add 9; Add 4]).
    vm_compute. reflexivity.
  - vm_compute. reflexivity.
  - intros fuel. vm_compute. reflexivity.
  - vm_compute. reflexivity.
Qed.

(** ** Capacity 0 *)

Lemma zero_capacity_add fuel : ∀ key s,
  dir_ok s → 0 <= globalDepth s → bucketSize s = 0 →
  (∀ a c, heap s !! a = Some c →
          DataBucket.data (obj c) = [] ∧ DataBucket.size (obj c) = 0) →
  (∀ a c, 0 <= Z.rem key (2 ^ globalDepth s) →
          slot (Z.rem key (2 ^ globalDepth s)) s = Some (Some a) →
          heap s !! a = Some c →
          DataBucket.localDepth (obj c) = globalDepth s) →
  ∀ r, add fuel key s ≠ Ok r.
Proof.
  induction fuel as [|n IH]; intros key s Hdir Hgd0 Hbs Hcells Hld [r s'] Hadd;
    [discriminate|].
  destruct (add_S_inv _ _ _ _ _ Hadd) as (a & b & ret & b' & Hi & Hv & Ha & Hins & Hcase).
  destruct (getBucketIndex_inv _ _ _ Hi) as [Hrem Hgd].
  destruct (vec_get_slot _ _ _ Hv) as [Hr Hs].
  rewrite Hdir in Hr.
  assert (Hpos := pow2_pos (globalDepth s) ltac:(lia)).
  destruct (Hcells a _ Ha) as [Hdata Hsize]. simpl in Hdata, Hsize.
  assert (Hldb : DataBucket.localDepth b = globalDepth s).
  { apply (Hld a (Cell b false)); [lia|rewrite <- Hrem; exact Hs|exact Ha]. }
  assert (Hb' : ret = 2 ∧ b' = DataBucket.mk 0 (globalDepth s) [key]).
  { destruct b as [sz ld l]. simpl in *. subst sz ld l.
    unfold DataBucket.insert in Hins. simpl in Hins. injection Hins as <- <-. auto. }
  destruct Hb' as [-> ->].
  destruct Hcase as [[Hne _]|(_ & s2 & Hs2 & Hsplit)]; [congruence|].
  simpl DataBucket.localDepth in Hs2. rewrite Z.eqb_refl in Hs2.
  set (b' := DataBucket.mk 0 (globalDepth s) [key]) in *.
  set (s1 := store (Some a) b' s) in *.
  assert (Hdir1 : dir_ok s1) by exact Hdir.
  destruct (extend_inv s1 s2 Hdir1 Hgd0 Hs2) as [-> H30].
  assert (Hg1 : globalDepth s1 = globalDepth s) by reflexivity.
  assert (Hge : globalDepth (extended s1) = globalDepth s + 1) by reflexivity.
  assert (Hpow : 2 ^ (globalDepth s + 1) = 2 * 2 ^ globalDepth s) by (apply pow2_succ; lia).
  assert (Ha1 : heap (extended s1) !! a = Some (Cell b' false)).
  { change (heap s1 !! a = Some (Cell b' false)). eapply heap_store_eq. exact Ha. }
  assert (Hsr : buckets (extended s1) !! Z.to_nat r = Some (Some a)).
  { simpl. rewrite lookup_app_l; [exact Hs|].
    unfold dir_ok, buckets_size in Hdir. lia. }
  rewrite (splitImage_prelude (add n) r (extended s1) a b') in Hsplit.
  2:{ apply dir_ok_extended; auto. }
  2:{ rewrite Hge. lia. }
  2:{ rewrite Hge, Hpow. lia. }
  2:{ rewrite Hge. replace (globalDepth s + 1 - 1) with (globalDepth s) by lia.
      unfold dataCopy_of.
      replace (r <? 2 ^ globalDepth s) with true by (symmetry; apply Z.ltb_lt; lia).
      exact Hsr. }
  2:{ exact Ha1. }
  apply bind_inv_Ok in Hsplit as (ld & _ & Hre).
  rewrite Hge in Hre. replace (globalDepth s + 1 - 1) with (globalDepth s) in Hre by lia.
  unfold newBucketIndex_of in Hre.
  replace (r <? 2 ^ globalDepth s) with true in Hre by (symmetry; apply Z.ltb_lt; lia).
  set (half := 2 ^ globalDepth s) in *.
  set (s4 := split_state (r + half) a b' (extended s1)) in *.
  cbn [DataBucket.data b' reinsert] in Hre.
  apply bind_inv_Ok in Hre as (j & Hj & Hre).
  apply bind_inv_Ok in Hre as (p0 & _ & Hre).
  apply bind_inv_Ok in Hre as ([r' t'] & Hadd' & _).
  assert (Hlen2 : buckets_size (extended s1) = 2 * half).
  { rewrite (dir_ok_extended s1 Hdir1 Hgd0), Hge, Hpow. reflexivity. }
  assert (Hcell4 : ∀ x c, heap s4 !! x = Some c →
            (x = a ∧ c = Cell (DataBucket.mk 0 (globalDepth s + 1) []) false)
            ∨ (x = length (heap s) ∧ c = Cell (DataBucket.mk 0 (globalDepth s + 1) []) false)
            ∨ (x ≠ a ∧ heap s !! x = Some c)).
  { intros x c Hc. unfold s4, split_state in Hc. simpl in Hc.
    apply lookup_lt_Some in Ha as Hlt.
    destruct (decide (x = a)) as [->|Hne].
    - rewrite list_lookup_insert_eq in Hc
        by (rewrite length_app, length_insert; simpl; lia).
      injection Hc as <-. left. auto.
    - rewrite list_lookup_insert_ne in Hc by congruence.
      right. apply lookup_app_Some in Hc as [Hc|[Hge' Hc]].
      + right. split; [exact Hne|].
        rewrite list_lookup_insert_ne in Hc by congruence. exact Hc.
      + left. rewrite length_insert in *.
        destruct (x - length (heap s))%nat as [|k] eqn:Hk; [|destruct k; discriminate].
        simpl in Hc. injection Hc as <-.
        split; [lia|]. rewrite Hbs. reflexivity. }
  apply (IH key s4) with (r := (r', t')); [| | | | |exact Hadd'].
  - unfold dir_ok, s4, split_state, buckets_size. simpl.
    rewrite length_insert.
    change (buckets_size (extended s1) = 2 ^ (globalDepth s + 1)).
    rewrite Hlen2, Hpow. reflexivity.
  - simpl. lia.
  - exact Hbs.
  - intros x c Hc.
    destruct (Hcell4 x c Hc) as [[_ ->]|[[_ ->]|[_ Hc']]];
      [split; reflexivity|split; reflexivity|apply (Hcells x c Hc')].
  - change (globalDepth s4) with (globalDepth s + 1).
    intros x c Hj0 Hsx Hc.
    set (j' := Z.rem key (2 ^ (globalDepth s + 1))) in *.
    assert (Hjm : j' = key mod 2 ^ (globalDepth s + 1)).
    { apply rem_nonneg_mod; [lia|exact Hj0]. }
    assert (Hrm : r = key mod half) by (rewrite Hrem; apply rem_nonneg_mod; lia).
    assert (Hjr : j' mod half = r).
    { rewrite Hjm, Hrm. apply mod_pow2_mod. lia. }
    assert (Hjrange : 0 <= j' < 2 * half).
    { rewrite Hjm, <- Hpow. apply mod_pow2_range. lia. }
    destruct (decide (j' = r + half)) as [Heq|Hneq].
    + rewrite Heq in Hsx. unfold s4 in Hsx. rewrite slot_split_eq in Hsx by lia.
      injection Hsx as <-.
      destruct (Hcell4 _ c Hc) as [[Hx _]|[[_ ->]|[_ Hc']]].
      * apply lookup_lt_Some in Ha. simpl in Hx. rewrite length_insert in Hx. lia.
      * reflexivity.
      * apply lookup_lt_Some in Hc'. simpl in Hc'. rewrite length_insert in Hc'. lia.
    + assert (Hjeq : j' = r).
      { destruct (Z.lt_ge_cases j' half) as [Hlt|Hge'].
        - rewrite Z.mod_small in Hjr by lia. exact Hjr.
        - rewrite (mod_upper j' half) in Hjr by lia. lia. }
      rewrite Hjeq in Hsx. unfold s4 in Hsx.
      rewrite slot_split_ne in Hsx by lia.
      unfold slot in Hsx. rewrite Hsr in Hsx. injection Hsx as <-.
      destruct (Hcell4 _ c Hc) as [[_ ->]|[[Hx _]|[Hx _]]]; [reflexivity| |congruence].
      apply lookup_lt_Some in Ha. lia.
Qed.

(** X16.  In a table constructed with capacity 0, no [add] returns: every
    insertion overflows the bucket of its key, which has full depth, and
    the directory is doubled again and again, until the nesting allowed by
    the fuel is used up or an operation faults. *)
Theorem X16_capacity_zero_never_returns _globalDepth s :
  create _globalDepth 0 = Ok s →
  ∀ fuel key,
    add fuel key s = OutOfFuel ∨ ∃ f, add fuel key s = Fault f.
Proof.
  intros Hc fuel key.
  destruct (create_spec _ _ _ Hc) as [Hgd ->].
  destruct (add fuel key _) as [r| |] eqn:Hadd; [exfalso|eauto|auto].
  assert (Hpos := pow2_pos _globalDepth ltac:(lia)).
  revert Hadd. apply zero_capacity_add.
  - unfold dir_ok, buckets_size. simpl. rewrite length_fmap, length_seq. lia.
  - simpl. lia.
  - reflexivity.
  - intros a c Ha. simpl in Ha. apply lookup_replicate in Ha as [-> _]. auto.
  - intros a c _ _ Ha. simpl in Ha. apply lookup_replicate in Ha as [-> _]. reflexivity.
Qed.

(** ** [remove], step by step *)

(** X17.  At global depth 0, [remove] of any key from any table shifts by
    -1 in [getImageIndex]. *)
Theorem X17_remove_at_depth_zero key s :
  globalDepth s = 0 → remove key s = Fault (BadShift (-1)).
Proof.
  intros H0. unfold remove, remove_erase.
  rewrite getBucketIndex_Ok, bind_Ok by lia.
  unfold getImageIndex. rewrite H0. reflexivity.
Qed.

Lemma stored_erase key s i a b :
  struct_inv s → i = key mod 2 ^ globalDepth s →
  slot i s = Some (Some a) → heap s !! a = Some (Cell b false) →
  ∀ x, stored x (store (Some a) (DataBucket.erase key b) s)
       ↔ stored x s ∧ x ≠ key.
Proof.
  intros Hst Hi Hs Ha x.
  pose proof (si_dir s Hst) as Hdir. pose proof (si_gd s Hst) as Hgd.
  unfold dir_ok, buckets_size in Hdir.
  apply lookup_lt_Some in Ha as Hlt.
  split.
  - intros (j & a' & b' & Hl & Ha' & Hx). simpl in Hl, Ha'.
    destruct (decide (a' = a)) as [->|Hne].
    + rewrite list_lookup_insert_eq in Ha' by exact Hlt. injection Ha' as <-.
      simpl in Hx. apply elem_set_erase_iff in Hx as [Hx Hk].
      split; [exists j, a, b; auto|exact Hk].
    + rewrite list_lookup_insert_ne in Ha' by congruence.
      split; [exists j, a', b'; auto|].
      intros ->. apply Hne.
      apply lookup_lt_Some in Hl as Hj.
      assert (Hsl : slot (Z.of_nat j) s = Some (Some a'))
        by (unfold slot; rewrite Nat2Z.id; exact Hl).
      pose proof (si_addr s Hst (Z.of_nat j) a' (Cell b' false) key
                    ltac:(lia) Hsl Ha' Hx) as Hk.
      rewrite <- Hi, Hs in Hk. congruence.
  - intros [(j & a' & b' & Hl & Ha' & Hx) Hk].
    destruct (decide (a' = a)) as [->|Hne].
    + exists j, a, (DataBucket.erase key b). split; [exact Hl|]. split.
      * simpl. apply list_lookup_insert_eq. exact Hlt.
      * simpl. apply elem_set_erase_iff. rewrite Ha in Ha'. injection Ha' as <-. auto.
    + exists j, a', b'. split; [exact Hl|]. split; [|exact Hx].
      simpl. rewrite list_lookup_insert_ne by congruence. exact Ha'.
Qed.

Lemma stored_merge e lo pl ph bl bh bm :
  0 <= lo → 0 < 2 ^ (globalDepth e - 1) →
  lo + 2 ^ (globalDepth e - 1) < buckets_size e →
  slot lo e = Some (Some pl) →
  slot (lo + 2 ^ (globalDepth e - 1)) e = Some (Some ph) →
  pl ≠ ph →
  heap e !! pl = Some (Cell bl false) → heap e !! ph = Some (Cell bh false) →
  (∀ x, x ∈ DataBucket.data bm ↔ x ∈ DataBucket.data bl ∨ x ∈ DataBucket.data bh) →
  ∀ x, stored x (EHM (globalDepth e) (bucketSize e)
                     (<[Z.to_nat (lo + 2 ^ (globalDepth e - 1)) := Some pl]> (buckets e))
                     (<[pl := Cell bm false]>
                        (<[ph := Cell (DataBucket.with_data [] bh) true]> (heap e))))
       ↔ stored x e.
Proof.
  intros Hlo Hhalf Hhi Hsl Hsh Hne Hpl Hph Hbm x.
  set (hi := lo + 2 ^ (globalDepth e - 1)) in *.
  unfold slot in Hsl, Hsh. unfold buckets_size in Hhi.
  apply lookup_lt_Some in Hpl as Hlpl. apply lookup_lt_Some in Hph as Hlph.
  split.
  - intros (j & a' & b' & Hl & Ha' & Hx). simpl in Hl, Ha'.
    destruct (decide (a' = pl)) as [->|Hn1].
    + rewrite list_lookup_insert_eq in Ha' by (rewrite length_insert; exact Hlpl).
      injection Ha' as <-. apply Hbm in Hx as [Hx|Hx].
      * exists (Z.to_nat lo), pl, bl. auto.
      * exists (Z.to_nat hi), ph, bh. auto.
    + rewrite list_lookup_insert_ne in Ha' by congruence.
      destruct (decide (a' = ph)) as [->|Hn2].
      { rewrite list_lookup_insert_eq in Ha' by exact Hlph. discriminate. }
      rewrite list_lookup_insert_ne in Ha' by congruence.
      destruct (decide (j = Z.to_nat hi)) as [->|Hj].
      { rewrite list_lookup_insert_eq in Hl by lia. congruence. }
      rewrite list_lookup_insert_ne in Hl by congruence.
      exists j, a', b'. auto.
  - intros (j & a' & b' & Hl & Ha' & Hx).
    assert (Hlo' : <[Z.to_nat hi := Some pl]> (buckets e) !! Z.to_nat lo = Some (Some pl)).
    { rewrite list_lookup_insert_ne by (unfold hi; lia). exact Hsl. }
    assert (Hm : <[pl := Cell bm false]>
                   (<[ph := Cell (DataBucket.with_data [] bh) true]> (heap e)) !! pl
                 = Some (Cell bm false)).
    { apply list_lookup_insert_eq. rewrite length_insert. exact Hlpl. }
    destruct (decide (a' = pl)) as [->|Hn1].
    { exists (Z.to_nat lo), pl, bm. split; [exact Hlo'|]. split; [exact Hm|].
      apply Hbm. left. rewrite Hpl in Ha'. injection Ha' as <-. exact Hx. }
    destruct (decide (a' = ph)) as [->|Hn2].
    { exists (Z.to_nat lo), pl, bm. split; [exact Hlo'|]. split; [exact Hm|].
      apply Hbm. right. rewrite Hph in Ha'. injection Ha' as <-. exact Hx. }
    exists j, a', b'. simpl. split; [|split; [|exact Hx]].
    + rewrite list_lookup_insert_ne; [exact Hl|].
      intros <-. rewrite Hsh in Hl. congruence.
    + rewrite !list_lookup_insert_ne by congruence. exact Ha'.
Qed.

Lemma stored_halved m :
  struct_inv m → 1 <= globalDepth m →
  all_depths (globalDepth m - 1) m = true →
  ∀ x, stored x (halved m) ↔ stored x m.
Proof.
  intros Hst Hg Hall x.
  pose proof (si_dir m Hst) as Hdir. pose proof (si_gd m Hst) as Hgd.
  set (half := 2 ^ (globalDepth m - 1)).
  assert (Hhalf : 0 < half) by (apply pow2_pos; lia).
  assert (Hpow : 2 ^ globalDepth m = 2 * half) by (apply pow2_pred; lia).
  split.
  - intros (j & a & b & Hl & Ha & Hx). simpl in Hl, Ha.
    rewrite lookup_take_Some in Hl. destruct Hl as [Hl _]. exists j, a, b. auto.
  - intros Hx. apply (stored_slot x m Hdir ltac:(lia)) in Hx
      as (i & a & b & Hi & Hs & Ha & Hx).
    assert (Hlow : ∃ i', 0 <= i' < half ∧ slot i' m = Some (Some a)).
    { destruct (Z.lt_ge_cases i half) as [Hlt|Hge];
        [exists i; split; [lia|exact Hs]|].
      exists (i - half). split; [lia|].
      destruct (decide (slot i m = slot (i - half) m)) as [Heq|Hdiff];
        [rewrite <- Heq; exact Hs|].
      exfalso.
      pose proof (si_depth m Hst i a (Cell b false) ltac:(fold half; lia) Hdiff Hs Ha) as Hd.
      pose proof (all_depths_slot m _ i Hall Hdir Hi a (Cell b false) Hs Ha) as Hd'.
      lia. }
    destruct Hlow as (i' & Hi' & Hs').
    exists (Z.to_nat i'), a, b. split; [|auto].
    change (slot i' (halved m) = Some (Some a)).
    rewrite slot_halved by (fold half; lia). exact Hs'.
Qed.

Lemma remove_steps key s s' :
  table_inv s → remove key s = Ok s' →
  ∃ a b m,
    let e := store (Some a) (DataBucket.erase key b) s in
    let half := 2 ^ (globalDepth s - 1) in
    1 <= globalDepth s <= 30
    ∧ 0 <= Z.rem key (2 ^ globalDepth s)
    ∧ slot (key mod 2 ^ globalDepth s) s = Some (Some a)
    ∧ heap s !! a = Some (Cell b false)
    ∧ table_inv e
    ∧ (m = e
       ∨ ∃ lo pl ph bl bh ld,
           0 <= lo < half
           ∧ slot lo e = Some (Some pl) ∧ slot (lo + half) e = Some (Some ph)
           ∧ pl ≠ ph
           ∧ heap e !! pl = Some (Cell bl false)
           ∧ heap e !! ph = Some (Cell bh false)
           ∧ ld = DataBucket.localDepth bl - 1 ∧ INT_MIN <= ld
           ∧ m = EHM (globalDepth e) (bucketSize e)
                     (<[Z.to_nat (lo + half) := Some pl]> (buckets e))
                     (<[pl := Cell (DataBucket.with_localDepth ld (merged_bucket bl bh)) false]>
                        (<[ph := Cell (DataBucket.with_data [] bh) true]> (heap e))))
    ∧ table_inv m ∧ globalDepth m = globalDepth s
    ∧ (s' = m
       ∨ (all_depths (globalDepth m - 1) m = true ∧ s' = halved m
          ∧ table_inv (halved m))).
Proof.
  intros [Hst Hcapinv] Hrem. unfold remove in Hrem.
  apply bind_inv_Ok in Hrem as ([[bucketIndex image] e] & Herase & Hrem).
  apply bind_inv_Ok in Hrem as (c & Hcond & Hrem).
  apply bind_inv_Ok in Hrem as (m & Hmerge & Hshrink).
  destruct (remove_erase_inv key s bucketIndex image e (si_dir s Hst) Herase)
    as (Hgd & Hbi & Hidx & Himage & a & b & Hsa & Ha & ->).
  exists a, b, m. cbv zeta.
  set (half := 2 ^ (globalDepth s - 1)) in *.
  assert (Hhalf : 0 < half) by (apply pow2_pos; lia).
  assert (Hpow : 2 ^ globalDepth s = 2 * half) by (apply pow2_pred; lia).
  set (e := store (Some a) (DataBucket.erase key b) s) in *.
  assert (Hmod : key mod 2 ^ globalDepth s = bucketIndex).
  { rewrite Hbi. symmetry. apply rem_nonneg_mod; lia. }
  assert (Hste : struct_inv e).
  { apply (struct_store s bucketIndex a b); auto.
    intros x Hx. left. apply (elem_set_erase x key). exact Hx. }
  assert (Hcape : cap_inv_but None e).
  { apply (cap_store s a b); auto. intros _. simpl.
    pose proof (length_set_erase key (DataBucket.data b)).
    assert (Z.of_nat (length (DataBucket.data b)) <= bucketSize s).
    { apply (Hcapinv bucketIndex a (Cell b false)); auto; congruence. }
    lia. }
  assert (Hge : globalDepth e = globalDepth s) by reflexivity.
  assert (Hlen : buckets_size e = 2 * half).
  { rewrite <- Hpow. apply (si_dir e Hste). }
  split; [exact Hgd|]. split; [lia|].
  split; [rewrite Hmod; exact Hsa|]. split; [exact Ha|].
  split; [split; assumption|].
  assert (Hinvm :
    (m = e
     ∨ ∃ lo pl ph bl bh ld,
         0 <= lo < half
         ∧ slot lo e = Some (Some pl) ∧ slot (lo + half) e = Some (Some ph)
         ∧ pl ≠ ph
         ∧ heap e !! pl = Some (Cell bl false)
         ∧ heap e !! ph = Some (Cell bh false)
         ∧ ld = DataBucket.localDepth bl - 1 ∧ INT_MIN <= ld
         ∧ m = EHM (globalDepth e) (bucketSize e)
                   (<[Z.to_nat (lo + half) := Some pl]> (buckets e))
                   (<[pl := Cell (DataBucket.with_localDepth ld (merged_bucket bl bh)) false]>
                      (<[ph := Cell (DataBucket.with_data [] bh) true]> (heap e))))
    ∧ (struct_inv m ∧ cap_inv_but None m) ∧ globalDepth m = globalDepth s).
  { pose proof (struct_live_dir e Hste) as Hlive.
    assert (Himg : 0 <= image < 2 * half).
    { rewrite Himage. destruct (_ <? _) eqn:Hlt;
        [apply Z.ltb_lt in Hlt|apply Z.ltb_ge in Hlt]; lia. }
    rewrite (merge_condition_spec bucketIndex image e Hlive) in Hcond by lia.
    injection Hcond as <-.
    destruct (negb (image =? bucketIndex) && _ && _) eqn:Hc;
      [|injection Hmerge as <-; auto].
    apply andb_true_iff in Hc as [Hc Hfi]. apply andb_true_iff in Hc as [Hneq Hfb].
    apply Z.leb_le in Hfi, Hfb.
    set (lo := Z.min bucketIndex image). set (hi := Z.max bucketIndex image).
    assert (Hmerge' : merge lo hi e = Ok m).
    { unfold lo, hi. destruct (bucketIndex >? image) eqn:Hgt.
      - apply Z.gtb_lt in Hgt. rewrite Z.min_r, Z.max_l by lia. exact Hmerge.
      - rewrite Z.gtb_ltb in Hgt. apply Z.ltb_ge in Hgt.
        rewrite Z.min_l, Z.max_r by lia. exact Hmerge. }
    assert (Hlohi : 0 <= lo < half ∧ hi = lo + half
                    ∧ (keys_at lo e <= to_size_t (bucketSize e ÷ 2))
                    ∧ (keys_at hi e <= to_size_t (bucketSize e ÷ 2))).
    { unfold lo, hi. rewrite Himage in *.
      destruct (bucketIndex <? half) eqn:Hlt;
        [apply Z.ltb_lt in Hlt|apply Z.ltb_ge in Hlt].
      - rewrite Z.min_l, Z.max_r by lia. repeat split; auto; lia.
      - rewrite Z.min_r, Z.max_l by lia. repeat split; auto; lia. }
    destruct Hlohi as (Hlo & Hhi & Hflo & Hfhi).
    destruct (si_live e Hste lo ltac:(rewrite Hge, Hpow; lia))
      as (pl & bl & Hsl & Hpl & Hszl).
    destruct (si_live e Hste hi ltac:(rewrite Hge, Hpow; lia))
      as (ph & bh & Hsh & Hph & Hszh).
    assert (Hvl : vec_get lo e = Ok (Some pl)) by (apply slot_vec_get; [lia|exact Hsl]).
    assert (Hvh : vec_get hi e = Ok (Some ph)) by (apply slot_vec_get; [lia|exact Hsh]).
    destruct (decide (pl = ph)) as [<-|Hp].
    { rewrite (merge_aliased lo hi e pl bl) in Hmerge'; auto; [discriminate|lia]. }
    rewrite (merge_distinct lo hi e pl ph bl bh) in Hmerge'; auto; [|lia].
    apply bind_inv_Ok in Hmerge' as (ld & Hld & Hm). injection Hm as <-.
    apply int_chk_inv in Hld as [Hld Hldr].
    rewrite Hhi in *.
    split; [|split; [|reflexivity]].
    { right. exists lo, pl, ph, bl, bh, ld. repeat (split; [assumption|]).
      split; [lia|reflexivity]. }
    destruct (merged_bucket_fields bl bh) as (Hmsz & Hmld & Hmdata).
    apply (struct_merge e lo pl ph bl bh
             (DataBucket.with_localDepth ld (merged_bucket bl bh))); auto.
    - lia.
    - intros x Hx. simpl in Hx. apply set_find_elem in Hx.
      rewrite Hmdata in Hx. apply orb_true_iff in Hx.
      rewrite !set_find_elem in Hx. exact Hx.
    - simpl. pose proof (length_merged bl bh).
      rewrite (keys_at_slot lo e pl bl) in Hflo by auto.
      rewrite (keys_at_slot (lo + half) e ph bh) in Hfhi by auto.
      pose proof (half_capacity (bucketSize e) _ _ (si_cap e Hste) Hflo Hfhi) as Hsum.
      change (bucketSize e) with (bucketSize s) in Hsum. lia. }
  destruct Hinvm as (Hform & [Hstm Hcapm] & Hgdm).
  split; [exact Hform|]. split; [split; assumption|]. split; [exact Hgdm|].
  assert (Hgm : 1 <= globalDepth m <= 31) by lia.
  rewrite (shrink_check_spec m (struct_live_dir m Hstm) (si_dir m Hstm) Hgm) in Hshrink.
  injection Hshrink as <-.
  destruct (all_depths (globalDepth m - 1) m) eqn:Hall; [right|left; reflexivity].
  split; [reflexivity|]. split; [reflexivity|].
  apply struct_halved; auto. lia.
Qed.

Lemma remove_stored key s s' :
  table_inv s → remove key s = Ok s' →
  ∀ x, stored x s' ↔ stored x s ∧ x ≠ key.
Proof.
  intros Hinv Hrem x.
  destruct (remove_steps key s s' Hinv Hrem)
    as (a & b & m & Hgd & Hrem0 & Hsa & Ha & [Hste Hcape] & Hm & [Hstm Hcapm] & Hgdm & Hs').
  cbv zeta in *.
  destruct Hinv as [Hst Hcap].
  set (e := store (Some a) (DataBucket.erase key b) s) in *.
  rewrite <- (stored_erase key s _ a b Hst eq_refl Hsa Ha x). fold e.
  assert (Hme : stored x m ↔ stored x e).
  { destruct Hm as [->|(lo & pl & ph & bl & bh & ld & Hlo & Hsl & Hsh & Hne & Hpl & Hph
                        & _ & _ & ->)];
      [reflexivity|].
    assert (Hhalf : 0 < 2 ^ (globalDepth s - 1)) by (apply pow2_pos; lia).
    apply (stored_merge e lo pl ph bl bh); auto; try lia.
    - rewrite (si_dir e Hste).
      change (globalDepth e) with (globalDepth s).
      rewrite (pow2_pred (globalDepth s)) by lia. lia.
    - intros y. simpl. apply elem_merged. }
  rewrite <- Hme.
  destruct Hs' as [->|(Hall & -> & _)]; [reflexivity|].
  apply stored_halved; auto. lia.
Qed.

(** X18.  In a reachable table, after a [remove] that returns, the key is
    in no bucket of the directory, and every other key is in the table
    exactly when it was before: merging two buckets and halving the
    directory lose no key. *)
Theorem X18_remove_takes_out_exactly_the_key key s s' :
  reachable s → remove key s = Ok s' →
  ∀ x, present x s' = present x s && negb (x =? key).
Proof.
  intros Hreach Hrem x. apply eq_true_iff_eq.
  rewrite andb_true_iff, negb_true_iff, !present_stored, Z.eqb_neq.
  apply (remove_stored key s s' (reachable_inv s Hreach) Hrem).
Qed.

(** X19.  In a reachable table, [remove] returns only at a global depth of
    at least 1 and for a key whose index is not negative; the global depth
    afterwards is the old one or one less, the directory has
    [2 ^ globalDepth] slots again, [bucketSize] is unchanged and no cell
    is added to the free store. *)
Theorem X19_remove_changes_the_depth_by_at_most_one key s s' :
  reachable s → remove key s = Ok s' →
  1 <= globalDepth s
  ∧ 0 <= Z.rem key (2 ^ globalDepth s)
  ∧ globalDepth s - 1 <= globalDepth s' <= globalDepth s
  ∧ buckets_size s' = 2 ^ globalDepth s'
  ∧ bucketSize s' = bucketSize s
  ∧ length (heap s') = length (heap s).
Proof.
  intros Hreach Hrem.
  destruct (remove_steps key s s' (reachable_inv s Hreach) Hrem)
    as (a & b & m & Hgd & Hrem0 & Hsa & Ha & [Hste Hcape] & Hm & [Hstm Hcapm] & Hgdm & Hs').
  cbv zeta in *.
  assert (Hmf : bucketSize m = bucketSize s ∧ length (heap m) = length (heap s)).
  { destruct Hm as [->|(lo & pl & ph & bl & bh & ld & _ & _ & _ & _ & _ & _ & _ & _ & ->)];
      simpl;
      rewrite ?length_insert; auto. }
  destruct Hmf as [Hb Hh].
  split; [lia|]. split; [exact Hrem0|].
  destruct Hs' as [->|(_ & -> & [Hsth _])].
  - split; [lia|]. split; [apply (si_dir m Hstm)|]. auto.
  - split; [simpl; lia|]. split; [apply (si_dir _ Hsth)|]. auto.
Qed.

(** X20.  In a reachable table, when the slot of the key and its image hold
    the same bucket and, with the key erased, that bucket holds at most
    [bucketSize / 2] keys, [remove] merges the bucket with itself: it
    deletes it and then uses it. *)
Theorem X20_remove_of_a_shared_bucket key s i image a b :
  reachable s →
  _getBucketIndex key s = Ok i → getImageIndex i s = Ok image →
  vec_get i s = Ok (Some a) → vec_get image s = Ok (Some a) →
  deref (Some a) s = Ok b →
  Z.of_nat (length (DataBucket.data (DataBucket.erase key b))) <= bucketSize s / 2 →
  remove key s = Fault (UseAfterFree a).
Proof.
  intros Hreach Hi Himg Hvi Hvj Hb Hfew.
  destruct (reachable_inv s Hreach) as [Hst Hcap].
  pose proof (si_gd s Hst) as Hgd. pose proof (si_dir s Hst) as Hdir.
  pose proof (si_cap s Hst) as Hbs.
  assert (Hg1 : 1 <= globalDepth s).
  { unfold getImageIndex in Himg.
    apply bind_inv_Ok in Himg as (e & He & Himg). apply int_chk_inv in He as [-> _].
    apply bind_inv_Ok in Himg as (h & Hh & _). apply shl1_inv in Hh. lia. }
  set (half := 2 ^ (globalDepth s - 1)).
  assert (Hhalf : 0 < half) by (apply pow2_pos; lia).
  assert (Hpow : 2 ^ globalDepth s = 2 * half) by (apply pow2_pred; lia).
  assert (Hp30 := pow2_le_30 (globalDepth s) Hgd).
  destruct (vec_get_slot _ _ _ Hvi) as [Hir Hsi]. rewrite Hdir, Hpow in Hir.
  destruct (vec_get_slot _ _ _ Hvj) as [Hjr Hsj]. rewrite Hdir, Hpow in Hjr.
  assert (Hji : image ≠ i).
  { destruct (Z.lt_ge_cases i half) as [Hlt|Hge].
    - rewrite getImageIndex_lower in Himg by (auto; fold half; lia).
      injection Himg as <-. fold half. lia.
    - rewrite getImageIndex_upper in Himg by (fold half; unfold INT_MAX; lia).
      injection Himg as <-. fold half. lia. }
  unfold remove, remove_erase.
  rewrite Hi, bind_Ok, Himg, bind_Ok, Hvi, bind_Ok, Hb, !bind_Ok.
  apply deref_inv in Hb as (? & [= <-] & Ha).
  set (e := store (Some a) (DataBucket.erase key b) s).
  assert (Hste : struct_inv e).
  { apply (struct_store s i a b); auto; [lia|].
    intros x Hx. left. apply (elem_set_erase x key). exact Hx. }
  assert (Hae : heap e !! a = Some (Cell (DataBucket.erase key b) false)).
  { eapply heap_store_eq. exact Ha. }
  assert (Hlen : buckets_size e = 2 * half) by (rewrite <- Hpow; exact Hdir).
  assert (Hvie : vec_get i e = Ok (Some a)) by exact Hvi.
  assert (Hvje : vec_get image e = Ok (Some a)) by exact Hvj.
  assert (Hfit : ∀ k, vec_get k e = Ok (Some a) →
                      (keys_at k e <=? to_size_t (bucketSize e ÷ 2)) = true).
  { intros k Hk. apply vec_get_slot in Hk as [_ Hk].
    rewrite (keys_at_slot k e a _ Hk Hae). apply Z.leb_le.
    change (bucketSize e) with (bucketSize s).
    rewrite Z.quot_div_nonneg by lia.
    unfold to_size_t. rewrite Z.mod_small; [exact Hfew|].
    unfold INT_MAX in Hbs. split; [apply Z.div_pos; lia|].
    assert (bucketSize s / 2 <= bucketSize s) by (apply Z.div_le_upper_bound; lia).
    lia. }
  rewrite (merge_condition_spec i image e (struct_live_dir e Hste)) by lia.
  rewrite bind_Ok.
  replace (image =? i) with false by (symmetry; apply Z.eqb_neq; exact Hji).
  rewrite (Hfit i Hvie), (Hfit image Hvje). cbn [negb andb].
  destruct (i >? image) eqn:Hgt.
  - rewrite (merge_aliased image i e a (DataBucket.erase key b)); auto.
  - rewrite (merge_aliased i image e a (DataBucket.erase key b)); auto.
Qed.

(** X21.  In a reachable table, for a non-negative key that is not in the
    table and whose bucket has room, [add] followed by a [remove] that
    returns leaves the table with exactly the keys it had. *)
Theorem X21_remove_undoes_add key s s1 s2 fuel r :
  reachable s → 0 <= key → present key s = false →
  keys_at (key mod 2 ^ globalDepth s) s < bucketSize s →
  add (S fuel) key s = Ok (r, s1) → remove key s1 = Ok s2 →
  ∀ x, present x s2 = present x s.
Proof.
  intros Hreach Hkey Habs Hroom Hadd Hrem x.
  destruct (add_room key s (reachable_inv s Hreach) Hkey Hroom)
    as (s' & Hadd' & _ & _ & Hinv' & Hst).
  rewrite Hadd' in Hadd. injection Hadd as _ <-.
  apply eq_true_iff_eq. rewrite !present_stored.
  rewrite (remove_stored key s' s2 Hinv' Hrem x), Hst.
  split; [intros [[->|H] Hne]; [congruence|exact H]|].
  intros H. split; [right; exact H|].
  intros ->. apply present_stored in H. congruence.
Qed.

(** ** The order of the keys *)

Lemma ascending_store s a b' :
  ascending_heap s → ascending (DataBucket.data b') = true →
  ascending_heap (store (Some a) b' s).
Proof. intros Hs Hb. apply Forall_insert; [exact Hs|exact Hb]. Qed.

Lemma ascending_cell s a c :
  ascending_heap s → heap s !! a = Some c →
  ascending (DataBucket.data (obj c)) = true.
Proof. intros Hs Hc. apply (Forall_lookup_1 _ _ _ _ Hs Hc). Qed.

Lemma reinsert_ascending (f : Z → ExtendibleHashMap → result (Z * ExtendibleHashMap)) :
  (∀ key s r s', ascending_heap s → f key s = Ok (r, s') → ascending_heap s') →
  ∀ l s s', ascending_heap s → reinsert f l s = Ok s' → ascending_heap s'.
Proof.
  intros Hf l. induction l as [|x l IH]; intros s s' Hs H; simpl in H.
  - injection H as <-. exact Hs.
  - apply bind_inv_Ok in H as (j & _ & H).
    apply bind_inv_Ok in H as (p & _ & H).
    apply bind_inv_Ok in H as ([r t] & Hadd & H).
    apply (IH t s'); [apply (Hf x s r t Hs Hadd)|exact H].
Qed.

Lemma splitImage_ascending (f : Z → ExtendibleHashMap → result (Z * ExtendibleHashMap)) :
  (∀ key s r s', ascending_heap s → f key s = Ok (r, s') → ascending_heap s') →
  ∀ i s s', ascending_heap s → splitImage_with f i s = Ok s' → ascending_heap s'.
Proof.
  intros Hf i s s' Hs H. unfold splitImage_with in H.
  apply bind_inv_Ok in H as (e & _ & H).
  apply bind_inv_Ok in H as (half & _ & H).
  apply bind_inv_Ok in H as (nb & _ & H).
  apply bind_inv_Ok in H as (dc & _ & H).
  unfold new_bucket in H.
  apply bind_inv_Ok in H as (s2 & Hs2 & H). apply vec_set_inv in Hs2 as [_ ->].
  apply bind_inv_Ok in H as (p & _ & H).
  apply bind_inv_Ok in H as (b & Hb & H).
  apply deref_inv in Hb as (a & -> & _).
  apply bind_inv_Ok in H as (ld & _ & H).
  apply (reinsert_ascending f Hf _ _ _) in H; [exact H|].
  apply ascending_store; [|reflexivity].
  apply ascending_store; [|reflexivity].
  unfold ascending_heap. simpl. apply Forall_app. split; [exact Hs|].
  repeat constructor.
Qed.

Lemma add_ascending fuel : ∀ key s r s',
  ascending_heap s → add fuel key s = Ok (r, s') → ascending_heap s'.
Proof.
  induction fuel as [|n IH]; intros key s r s' Hs H; [discriminate|].
  destruct (add_S_inv _ _ _ _ _ H) as (a & b & ret & b' & _ & _ & Ha & Hins & Hcase).
  assert (Hb' : ascending (DataBucket.data b') = true).
  { pose proof (insert_ascending key b (ascending_cell s a _ Hs Ha)) as Hi.
    rewrite Hins in Hi. exact Hi. }
  pose proof (ascending_store s a b' Hs Hb') as H1.
  destruct Hcase as [[_ ->]|(_ & s2 & Hs2 & Hsplit)]; [exact H1|].
  apply (splitImage_ascending (add n) IH r s2 s'); [|exact Hsplit].
  destruct (_ =? _); [|injection Hs2 as <-; exact H1].
  unfold extend in Hs2.
  apply bind_inv_Ok in Hs2 as (gd & _ & Hs2).
  apply bind_inv_Ok in Hs2 as (m & _ & Hs2).
  apply bind_inv_Ok in Hs2 as (first & _ & Hs2).
  destruct (extend_loop_fields _ _ _ _ _ Hs2) as (_ & _ & Hh).
  unfold ascending_heap. rewrite Hh. exact H1.
Qed.

Lemma merged_ascending bl bh :
  ascending (DataBucket.data bl) = true →
  ascending (DataBucket.data (merged_bucket bl bh)) = true.
Proof.
  unfold merged_bucket. generalize (DataBucket.data bh) as l. intros l.
  revert bl. induction l as [|x l IH]; intros bl H; simpl; [exact H|].
  apply IH. apply insert_ascending. exact H.
Qed.

Lemma remove_ascending key s s' :
  table_inv s → ascending_heap s → remove key s = Ok s' → ascending_heap s'.
Proof.
  intros Hinv Hs Hrem.
  destruct (remove_steps key s s' Hinv Hrem)
    as (a & b & m & _ & _ & _ & Ha & _ & Hm & _ & _ & Hs').
  cbv zeta in *.
  set (e := store (Some a) (DataBucket.erase key b) s) in *.
  assert (He : ascending_heap e).
  { apply ascending_store; [exact Hs|]. simpl.
    apply set_erase_ascending. apply (ascending_cell s a _ Hs Ha). }
  assert (Hmm : ascending_heap m).
  { destruct Hm as [->|(lo & pl & ph & bl & bh & ld & _ & _ & _ & _ & Hpl & _ & _ & _ & ->)];
      [exact He|].
    unfold ascending_heap. simpl heap.
    apply Forall_insert; [apply Forall_insert; [exact He|reflexivity]|].
    simpl. apply merged_ascending. apply (ascending_cell e pl _ He Hpl). }
  destruct Hs' as [->|(_ & -> & _)]; exact Hmm.
Qed.

Lemma reachable_ascending s : reachable s → ascending_heap s.
Proof.
  induction 1 as [gd sz s Hsz Hc|sz s Hsz Hc|fuel key r s s' _ IH Hadd|key s s' Hr IH Hrem].
  - destruct (create_spec _ _ _ Hc) as [_ ->]. apply Forall_replicate. reflexivity.
  - rewrite create0_create in Hc.
    destruct (create_spec _ _ _ Hc) as [_ ->]. apply Forall_replicate. reflexivity.
  - apply (add_ascending fuel key s r s' IH Hadd).
  - apply (remove_ascending key s s' (reachable_inv s Hr) IH Hrem).
Qed.

(** X22.  In a reachable table the keys of every bucket in the free store
    are strictly ascending: the list that stands for the [std::set] has
    no duplicates, and its length is the size of the set. *)
Theorem X22_buckets_stay_ascending s a c :
  reachable s → heap s !! a = Some c →
  ascending (DataBucket.data (obj c)) = true.
Proof.
  intros Hreach Hc. apply (ascending_cell s a c (reachable_ascending s Hreach) Hc).
Qed.

(** ** [print] *)

Lemma print_loop_spec s : 
  live_dir s → buckets_size s <= INT_MAX →
  ∀ ps k, buckets s = take k (buckets s) ++ ps → (k <= length (buckets s))%nat →
  print_loop (length ps) (Z.of_nat k) s
  = Ok (listing (Z.of_nat k) (buckets_size s) ps (heap s)).
Proof.
  intros Hlive Hmax ps. induction ps as [|p ps IH]; intros k Hsplit Hk; [reflexivity|].
  assert (Hlen : length (buckets s) = (k + S (length ps))%nat).
  { rewrite Hsplit at 1. rewrite length_app, length_take. simpl. lia. }
  assert (Hp : buckets s !! k = Some p).
  { rewrite Hsplit. rewrite lookup_app_r by (rewrite length_take; lia).
    rewrite length_take. replace (k - k `min` length (buckets s))%nat with 0%nat by lia.
    reflexivity. }
  destruct (live_dir_get s k p Hlive Hp) as (a & b & -> & Ha & Hv & Hb & _).
  unfold buckets_size, INT_MAX in Hmax.
  cbn [print_loop length].
  rewrite int_chk_Ok by (unfold INT_MIN, INT_MAX; lia).
  rewrite bind_Ok, Hv, bind_Ok, Hb, bind_Ok.
  replace (Z.of_nat k + 1) with (Z.of_nat (S k)) by lia.
  rewrite (IH (S k)).
  - rewrite bind_Ok. cbn [listing]. rewrite Ha. simpl obj.
    replace (Z.of_nat k + 1) with (Z.of_nat (S k)) by lia. reflexivity.
  - rewrite (take_S_r _ _ _ Hp), <- app_assoc. exact Hsplit.
  - lia.
Qed.

(** X23.  On a reachable table [print] returns; what it writes is an empty
    line and then, for each slot in order, the number of the slot
    (counted from 1), the number [2 ^ globalDepth] of slots and the keys
    of the bucket that the slot points to, so that a bucket shared by
    several slots is listed once for each of them. *)
Theorem X23_print_lists_every_slot s :
  reachable s →
  print s = Ok (endl +:+ listing 0 (2 ^ globalDepth s) (buckets s) (heap s)).
Proof.
  intros Hreach. destruct (reachable_inv s Hreach) as [Hst _].
  pose proof (si_gd s Hst) as Hgd. pose proof (si_dir s Hst) as Hdir.
  pose proof (pow2_le_30 (globalDepth s) Hgd) as H30.
  pose proof (print_loop_spec s (struct_live_dir s Hst)
                ltac:(rewrite Hdir; unfold INT_MAX; lia) (buckets s) 0 eq_refl ltac:(lia))
    as Hloop.
  change (Z.of_nat 0) with 0 in Hloop.
  unfold print. rewrite Hloop, bind_Ok, Hdir. reflexivity.
Qed.

(** ** Local depths, and the ways in which [add] ends *)

Lemma filter_length_mono (P P' : Z → Prop)
    {dP : ∀ x, Decision (P x)} {dP' : ∀ x, Decision (P' x)} (l : list Z) :
  (∀ x, x ∈ l → P' x → P x) →
  (length (filter P' l) <= length (filter P l))%nat.
Proof.
  induction l as [|y l IH]; intros H; [reflexivity|].
  assert (IH' := IH (λ x Hx, H x (list_elem_of_further _ _ _ Hx))).
  rewrite !filter_cons.
  destruct (decide (P' y)) as [Hy'|Hy'], (decide (P y)) as [Hy|Hy]; simpl; try lia.
  exfalso. apply Hy, H; [left|exact Hy'].
Qed.

Lemma filter_length_zero (P : Z → Prop) {dP : ∀ x, Decision (P x)} (l : list Z) :
  (∀ x, x ∈ l → ¬ P x) → length (filter P l) = 0%nat.
Proof.
  induction l as [|y l IH]; intros H; [reflexivity|].
  rewrite filter_cons. destruct (decide (P y)) as [Hy|Hy].
  - exfalso. apply (H y); [left|exact Hy].
  - apply IH. intros x Hx. apply H. right. exact Hx.
Qed.

Lemma filter_length_step (P P' : Z → Prop)
    {dP : ∀ x, Decision (P x)} {dP' : ∀ x, Decision (P' x)} (l : list Z) j :
  NoDup l → (∀ x, x ∈ l → x ≠ j → P' x → P x) →
  (length (filter P' l) <= S (length (filter P l)))%nat.
Proof.
  induction l as [|y l IH]; intros Hnd H; [simpl; lia|].
  pose proof (NoDup_cons_1_1 _ _ Hnd) as Hy. pose proof (NoDup_cons_1_2 _ _ Hnd) as Hl.
  rewrite !filter_cons.
  destruct (decide (y = j)) as [->|Hne].
  - assert (Hm : (length (filter P' l) <= length (filter P l))%nat).
    { apply filter_length_mono. intros x Hx. apply H; [right; exact Hx|].
      intros ->. contradiction. }
    destruct (decide (P' j)), (decide (P j)); simpl; lia.
  - assert (IH' := IH Hl (λ x Hx, H x (list_elem_of_further _ _ _ Hx))).
    destruct (decide (P' y)) as [Hy'|Hy'], (decide (P y)) as [Hpy|Hpy]; simpl; try lia.
    exfalso. apply Hpy, H; [left|exact Hne|exact Hy'].
Qed.

Lemma filter_length_drop (P P' : Z → Prop)
    {dP : ∀ x, Decision (P x)} {dP' : ∀ x, Decision (P' x)} (l : list Z) j :
  NoDup l → j ∈ l → P j → ¬ P' j →
  (∀ x, x ∈ l → x ≠ j → P' x → P x) →
  (S (length (filter P' l)) <= length (filter P l))%nat.
Proof.
  induction l as [|y l IH]; intros Hnd Hj HP HP' H; [inversion Hj|].
  pose proof (NoDup_cons_1_1 _ _ Hnd) as Hy. pose proof (NoDup_cons_1_2 _ _ Hnd) as Hl.
  rewrite !filter_cons.
  destruct (decide (y = j)) as [->|Hne].
  - assert (Hm : (length (filter P' l) <= length (filter P l))%nat).
    { apply filter_length_mono. intros x Hx. apply H; [right; exact Hx|].
      intros ->. contradiction. }
    destruct (decide (P' j)), (decide (P j)); simpl; try lia; contradiction.
  - apply elem_of_cons in Hj as [->|Hj]; [congruence|].
    assert (IH' := IH Hl Hj HP HP' (λ x Hx, H x (list_elem_of_further _ _ _ Hx))).
    destruct (decide (P' y)) as [Hy'|Hy'], (decide (P y)) as [Hpy|Hpy]; simpl; try lia.
    exfalso. apply Hpy, H; [left|exact Hne|exact Hy'].
Qed.

Lemma filter_length_one (P : Z → Prop) {dP : ∀ x, Decision (P x)} (l : list Z) j :
  NoDup l → (∀ x, x ∈ l → P x → x = j) →
  (length (filter P l) <= 1)%nat.
Proof.
  intros Hnd H.
  pose proof (filter_length_step (λ _, False) P l j Hnd) as Hs.
  rewrite (filter_length_zero (λ _, False)) in Hs by auto.
  apply Hs. intros x Hx Hne HPx. apply Hne, H; auto.
Qed.

Lemma parent_upper g j :
  0 <= g → 2 ^ g <= j < 2 ^ (g + 1) → parent j = j - 2 ^ g.
Proof.
  intros Hg Hj. unfold parent. rewrite (Z.log2_unique j g); auto.
Qed.

Lemma parent_range g j :
  1 <= g → 1 <= j < 2 ^ g → 0 <= parent j < 2 ^ (g - 1) ∧ parent j < j.
Proof.
  intros Hg Hj. unfold parent.
  pose proof (Z.log2_spec j ltac:(lia)) as Hspec.
  pose proof (Z.log2_nonneg j) as Hnn.
  assert (Hlt : Z.log2 j < g) by (apply Z.log2_lt_pow2; lia).
  replace (Z.succ (Z.log2 j)) with (Z.log2 j + 1) in Hspec by lia.
  rewrite pow2_succ in Hspec by lia.
  pose proof (pow2_le_mono (Z.log2 j) (g - 1) ltac:(lia)) as Hle.
  pose proof (pow2_pos (Z.log2 j) Hnn). lia.
Qed.

Lemma diverged_count_nonneg a s : 0 <= diverged_count a s.
Proof. unfold diverged_count. lia. Qed.

Lemma seqZ_pow2_split g g' :
  0 <= g' <= g →
  seqZ 1 (2 ^ g - 1) = seqZ 1 (2 ^ g' - 1) ++ seqZ (2 ^ g') (2 ^ g - 2 ^ g').
Proof.
  intros Hg. pose proof (pow2_pos g' ltac:(lia)). pose proof (pow2_le_mono g' g Hg).
  replace (2 ^ g - 1) with ((2 ^ g' - 1) + (2 ^ g - 2 ^ g')) by lia.
  rewrite seqZ_app by lia. do 2 f_equal; lia.
Qed.

Lemma count_prefix a s s' :
  0 <= globalDepth s' <= globalDepth s →
  (∀ j, 1 <= j < 2 ^ globalDepth s' → diverged a s' j → diverged a s j) →
  diverged_count a s' <= diverged_count a s.
Proof.
  intros Hg H. unfold diverged_count.
  rewrite (seqZ_pow2_split (globalDepth s) (globalDepth s') Hg).
  rewrite filter_app, length_app.
  pose proof (filter_length_mono (diverged a s) (diverged a s')
                (seqZ 1 (2 ^ globalDepth s' - 1))) as Hm.
  assert ((length (filter (diverged a s') (seqZ 1 (2 ^ globalDepth s' - 1)))
           <= length (filter (diverged a s) (seqZ 1 (2 ^ globalDepth s' - 1))))%nat).
  { apply Hm. intros x Hx. apply elem_of_seqZ in Hx. apply H. lia. }
  lia.
Qed.

Lemma count_step a s s' x :
  globalDepth s' = globalDepth s →
  (∀ j, 1 <= j < 2 ^ globalDepth s → j ≠ x → diverged a s' j → diverged a s j) →
  diverged_count a s' <= diverged_count a s + 1.
Proof.
  intros Hg H. unfold diverged_count. rewrite Hg.
  pose proof (filter_length_step (diverged a s) (diverged a s')
                (seqZ 1 (2 ^ globalDepth s - 1)) x (NoDup_seqZ _ _)) as Hm.
  assert ((length (filter (diverged a s') (seqZ 1 (2 ^ globalDepth s - 1)))
           <= S (length (filter (diverged a s) (seqZ 1 (2 ^ globalDepth s - 1)))))%nat).
  { apply Hm. intros j Hj. apply elem_of_seqZ in Hj. apply H. lia. }
  lia.
Qed.

Lemma count_drop a s s' x :
  globalDepth s' = globalDepth s →
  1 <= x < 2 ^ globalDepth s → diverged a s x → ¬ diverged a s' x →
  (∀ j, 1 <= j < 2 ^ globalDepth s → j ≠ x → diverged a s' j → diverged a s j) →
  diverged_count a s' + 1 <= diverged_count a s.
Proof.
  intros Hg Hx Hd Hd' H. unfold diverged_count. rewrite Hg.
  pose proof (filter_length_drop (diverged a s) (diverged a s')
                (seqZ 1 (2 ^ globalDepth s - 1)) x (NoDup_seqZ _ _)) as Hm.
  assert ((S (length (filter (diverged a s') (seqZ 1 (2 ^ globalDepth s - 1))))
           <= length (filter (diverged a s) (seqZ 1 (2 ^ globalDepth s - 1))))%nat).
  { apply Hm; auto.
    - apply elem_of_seqZ. lia.
    - intros j Hj. apply elem_of_seqZ in Hj. apply H. lia. }
  lia.
Qed.

Lemma count_zero a s :
  (∀ j, 1 <= j < 2 ^ globalDepth s → ¬ diverged a s j) → diverged_count a s = 0.
Proof.
  intros H. unfold diverged_count. rewrite filter_length_zero; [reflexivity|].
  intros x Hx. apply elem_of_seqZ in Hx. apply H. lia.
Qed.

Lemma count_extended a s :
  dir_ok s → 0 <= globalDepth s →
  diverged_count a (extended s) <= diverged_count a s.
Proof.
  intros Hdir Hgd. unfold diverged_count.
  change (globalDepth (extended s)) with (globalDepth s + 1).
  assert (Hpos := pow2_pos (globalDepth s) Hgd).
  rewrite (seqZ_pow2_split (globalDepth s + 1) (globalDepth s)) by lia.
  rewrite filter_app, length_app.
  assert (Hup : length (filter (diverged a (extended s))
                   (seqZ (2 ^ globalDepth s) (2 ^ (globalDepth s + 1) - 2 ^ globalDepth s)))
                = 0%nat).
  { apply filter_length_zero. intros j Hj [Hne Heq]. apply elem_of_seqZ in Hj.
    rewrite pow2_succ in Hj by lia. apply Hne.
    rewrite (parent_upper (globalDepth s)) in Heq by (rewrite ?pow2_succ; lia).
    rewrite slot_extended in Heq by (auto; rewrite ?pow2_succ; lia).
    rewrite slot_extended by (auto; rewrite ?pow2_succ; lia).
    rewrite Z.mod_small in Heq by lia. rewrite mod_upper by lia. exact Heq. }
  assert (Hlow : (length (filter (diverged a (extended s)) (seqZ 1 (2 ^ globalDepth s - 1)))
                  <= length (filter (diverged a s) (seqZ 1 (2 ^ globalDepth s - 1))))%nat).
  { apply filter_length_mono. intros j Hj [Hne Heq]. apply elem_of_seqZ in Hj.
    assert (Hg1 : 1 <= globalDepth s).
    { destruct (decide (globalDepth s = 0)) as [H0|H0]; [|lia].
      rewrite H0 in Hj. simpl in Hj. lia. }
    destruct (parent_range (globalDepth s) j Hg1 ltac:(lia)) as [Hp Hpj].
    rewrite slot_extended in Heq by (auto; rewrite ?pow2_succ; lia).
    rewrite slot_extended in Hne by (auto; rewrite ?pow2_succ; lia).
    rewrite Z.mod_small in Heq by lia. rewrite Z.mod_small in Hne by lia.
    split; assumption. }
  lia.
Qed.

Lemma count_pos a s x :
  1 <= x < 2 ^ globalDepth s → diverged a s x → 1 <= diverged_count a s.
Proof.
  intros Hx Hd. unfold diverged_count.
  assert (Hin : x ∈ filter (diverged a s) (seqZ 1 (2 ^ globalDepth s - 1))).
  { apply list_elem_of_filter. split; [exact Hd|]. apply elem_of_seqZ. lia. }
  destruct (filter _ _); [inversion Hin|simpl; lia].
Qed.

Lemma count_redirect s s' lo p :
  globalDepth s' = globalDepth s → 1 <= globalDepth s →
  0 <= lo < 2 ^ (globalDepth s - 1) →
  (∀ j, 0 <= j → j ≠ lo + 2 ^ (globalDepth s - 1) → slot j s' = slot j s) →
  slot lo s = Some (Some p) →
  (∀ a, a ≠ p → diverged_count a s' <= diverged_count a s)
  ∧ diverged_count p s' <= diverged_count p s + 1
  ∧ (slot (lo + 2 ^ (globalDepth s - 1)) s ≠ Some (Some p) →
     slot (lo + 2 ^ (globalDepth s - 1)) s' = Some (Some p) →
     diverged_count p s' + 1 <= diverged_count p s).
Proof.
  intros Hg Hg1 Hlo Hsame Hp.
  set (half := 2 ^ (globalDepth s - 1)) in *.
  assert (Hpow : 2 ^ globalDepth s = 2 * half) by (apply pow2_pred; lia).
  assert (Hpar : parent (lo + half) = lo).
  { rewrite (parent_upper (globalDepth s - 1)).
    - fold half. lia.
    - lia.
    - replace (globalDepth s - 1 + 1) with (globalDepth s) by lia. fold half. lia. }
  assert (Hother : ∀ a j, 1 <= j < 2 ^ globalDepth s → j ≠ lo + half →
                          diverged a s' j → diverged a s j).
  { intros a j Hj Hne [H1 H2].
    destruct (parent_range (globalDepth s) j Hg1 Hj) as [Hpr _]. fold half in Hpr.
    rewrite Hsame in H1 by lia. rewrite Hsame in H2 by lia. split; assumption. }
  split; [|split].
  - intros a Ha. apply count_prefix; [lia|]. rewrite Hg. intros j Hj Hd.
    destruct (decide (j = lo + half)) as [->|Hne]; [|apply Hother; auto].
    destruct Hd as [_ H2]. rewrite Hpar, Hsame, Hp in H2 by lia. congruence.
  - apply (count_step p s s' (lo + half) Hg). intros j Hj Hne. apply Hother; auto.
  - intros Hold Hnew. apply (count_drop p s s' (lo + half) Hg).
    + lia.
    + split; [exact Hold|]. rewrite Hpar. exact Hp.
    + intros [H1 _]. contradiction.
    + intros j Hj Hne. apply Hother; auto.
Qed.

Lemma ends_Ok {A} (enough : Prop) (Q : Z → Prop) (post : A → Prop) v :
  post v → ends enough Q post (Ok v).
Proof. intros H. right. right. right. eauto. Qed.

Lemma ends_bind {A B} (enough : Prop) (Q : Z → Prop) (P : A → Prop)
    (P' : B → Prop) (e : result A) (k : A → result B) :
  ends enough Q P e → (∀ v, P v → ends enough Q P' (k v)) →
  ends enough Q P' (e ≫= k).
Proof.
  intros [[-> Hn]|[->|[(x & i & Hx & Hx0 & Hi & ->)|(v & -> & Hv)]]] Hk.
  - left. split; [reflexivity|exact Hn].
  - right. left. reflexivity.
  - right. right. left. exists x, i. auto.
  - apply Hk. exact Hv.
Qed.

Lemma key_rank_cell key s a b :
  slot (key mod 2 ^ globalDepth s) s = Some (Some a) →
  heap s !! a = Some (Cell b false) →
  key_rank key s = rank (DataBucket.localDepth b) s.
Proof. intros Hs Ha. unfold key_rank, cell_rank. rewrite Hs, Ha. reflexivity. Qed.

Lemma key_rank_nonneg key s :
  table_inv s → depth_inv s → 0 <= key_rank key s.
Proof.
  intros [Hst _] Hdep. pose proof (si_gd s Hst) as Hgd.
  assert (Hr : 0 <= key mod 2 ^ globalDepth s < 2 ^ globalDepth s)
    by (apply mod_pow2_range; lia).
  unfold key_rank, cell_rank.
  destruct (slot _ s) as [[a|]|] eqn:Hs; try lia.
  destruct (heap s !! a) as [c|] eqn:Ha; try lia.
  destruct (Hdep _ a c Hr Hs Ha) as [_ Hld]. unfold rank. lia.
Qed.

Lemma vec_get_negative i s : i < 0 → vec_get i s = Fault (BadIndex i).
Proof.
  intros H. unfold vec_get.
  replace (0 <=? i) with false by (symmetry; apply Z.leb_gt; exact H).
  reflexivity.
Qed.

Lemma rem_negative k m : 0 < m → Z.rem k m < 0 → k < 0.
Proof.
  intros Hm Hr. destruct (Z.lt_ge_cases k 0) as [H|H]; [exact H|].
  pose proof (Z.rem_nonneg k m ltac:(lia) H). lia.
Qed.

Lemma extend_limit s : globalDepth s = 30 → extend s = Fault (BadShift 31).
Proof. intros H. unfold extend. rewrite H. reflexivity. Qed.

Lemma depth_store s a b b' :
  depth_inv s → heap s !! a = Some (Cell b false) →
  DataBucket.localDepth b' = DataBucket.localDepth b →
  depth_inv (store (Some a) b' s).
Proof.
  intros Hdep Ha Hld i a' c Hi Hs Hc.
  rewrite slot_store in Hs. change (globalDepth (store (Some a) b' s)) with (globalDepth s) in *.
  change (diverged_count a' (store (Some a) b' s)) with (diverged_count a' s).
  destruct (heap_store s a b' a' c _ Ha Hc) as [[-> ->]|[_ Hc']].
  - simpl. rewrite Hld. apply (Hdep i a (Cell b false) Hi Hs Ha).
  - apply (Hdep i a' c Hi Hs Hc').
Qed.

Lemma depth_extended s :
  depth_inv s → dir_ok s → 0 <= globalDepth s → depth_inv (extended s).
Proof.
  intros Hdep Hdir Hgd i a c Hi Hs Hc.
  change (globalDepth (extended s)) with (globalDepth s + 1) in *.
  rewrite slot_extended in Hs by auto.
  destruct (Hdep (i mod 2 ^ globalDepth s) a c
              (mod_pow2_range i (globalDepth s) Hgd) Hs Hc) as [Hlow Hup].
  pose proof (count_extended a s Hdir Hgd). lia.
Qed.

Lemma depth_split s dc a b :
  depth_inv s → struct_inv s → 1 <= globalDepth s →
  0 <= dc < 2 ^ (globalDepth s - 1) → slot dc s = Some (Some a) →
  heap s !! a = Some (Cell b false) →
  DataBucket.localDepth b + 1 <= globalDepth s →
  depth_inv (split_state (dc + 2 ^ (globalDepth s - 1)) a b s).
Proof.
  intros Hdep Hst Hg Hdc Hsdc Ha Hld i a' c Hi Hs Hc.
  set (half := 2 ^ (globalDepth s - 1)) in *.
  assert (Hpow : 2 ^ globalDepth s = 2 * half) by (apply pow2_pred; lia).
  assert (Hnb : 0 <= dc + half < buckets_size s) by (rewrite (si_dir s Hst); lia).
  destruct (count_redirect s (split_state (dc + half) a b s) dc a eq_refl Hg Hdc)
    as (Hoth & Hstep & _); [|exact Hsdc|].
  { intros j Hj Hne. apply slot_split_ne; lia. }
  change (globalDepth (split_state (dc + half) a b s)) with (globalDepth s) in *.
  destruct (Hdep dc a (Cell b false) ltac:(lia) Hsdc Ha) as [Hlow Hup]. simpl in Hlow, Hup.
  destruct (heap_split (dc + half) a b s a' c _ Ha Hc) as [[-> ->]|[[-> ->]|(Hne1 & Hne2 & Hc')]].
  - simpl. lia.
  - simpl. split; [|lia].
    assert (Hq : length (heap s) ≠ a) by (apply lookup_lt_Some in Ha; lia).
    specialize (Hoth _ Hq).
    rewrite (count_zero (length (heap s)) s) in Hoth; [lia|].
    intros j Hj [_ H2].
    destruct (parent_range (globalDepth s) j Hg Hj) as [Hpr _].
    destruct (si_live s Hst (parent j) ltac:(fold half in Hpr; lia)) as (a2 & b2 & Hs2 & Ha2 & _).
    rewrite Hs2 in H2. injection H2 as ->. apply lookup_lt_Some in Ha2. lia.
  - destruct (decide (i = dc + half)) as [->|Hne].
    + rewrite slot_split_eq in Hs by exact Hnb. congruence.
    + rewrite slot_split_ne in Hs by lia.
      destruct (Hdep i a' c Hi Hs Hc') as [Hl Hu].
      specialize (Hoth a' Hne1). lia.
Qed.

Lemma stored_split_state nb a b s x :
  heap s !! a = Some (Cell b false) →
  stored x (split_state nb a b s) → stored x s.
Proof.
  intros Ha (i & a' & c & Hi & Hc & Hx).
  destruct (heap_split nb a b s a' (Cell c false) _ Ha Hc)
    as [[_ Hc']|[[_ Hc']|(Hne1 & Hne2 & Hc')]].
  - injection Hc' as ->. inversion Hx.
  - injection Hc' as ->. inversion Hx.
  - exists i, a', c. split; [|auto].
    unfold split_state in Hi. simpl in Hi.
    apply list_lookup_insert_Some in Hi as [(_ & Heq & _)|(_ & Hi)]; [congruence|exact Hi].
Qed.

Lemma reinsert_ends n a q (enough : Prop) (Q : Z → Prop) :
  add_keeps n → add_safe n → a ≠ q →
  ∀ (todo : list Z) t k,
    table_inv t → depth_inv t →
    (∃ ba bq, heap t !! a = Some (Cell ba false)
              ∧ heap t !! q = Some (Cell bq false)
              ∧ Z.of_nat (length (DataBucket.data ba))
                + Z.of_nat (length (DataBucket.data bq)) <= k
              ∧ (enough → rank (DataBucket.localDepth ba) t < Z.of_nat n
                          ∧ rank (DataBucket.localDepth bq) t < Z.of_nat n)) →
    (∀ x, x ∈ todo →
          slot (x mod 2 ^ globalDepth t) t = Some (Some a)
          ∨ slot (x mod 2 ^ globalDepth t) t = Some (Some q)) →
    k + Z.of_nat (length todo) <= bucketSize t + 1 →
    (∀ x, x ∈ todo → Q x) → (∀ x, stored x t → Q x) →
    ends enough Q depth_inv (reinsert (add n) todo t).
Proof.
  intros Hkeeps Hsafe Haq todo.
  induction todo as [|e rest IH]; intros t k Hinv Hdep Hcells Hwhere Hk HQ HQs.
  { apply ends_Ok. exact Hdep. }
  cbn [reinsert]. destruct Hinv as [Hst Hcapinv].
  pose proof (si_gd t Hst) as Hgd.
  assert (Hpos := pow2_pos (globalDepth t) ltac:(lia)).
  rewrite getBucketIndex_Ok, bind_Ok by exact Hgd.
  destruct (Z.lt_ge_cases (Z.rem e (2 ^ globalDepth t)) 0) as [Hneg|Hnn].
  { rewrite (vec_get_negative _ t Hneg). right. right. left.
    exists e, (Z.rem e (2 ^ globalDepth t)).
    split; [apply HQ; left|]. split; [apply (rem_negative e _ Hpos Hneg)|].
    split; [exact Hneg|reflexivity]. }
  rewrite (rem_nonneg_mod e _ Hpos) by lia.
  set (j := e mod 2 ^ globalDepth t) in *.
  assert (Hj : 0 <= j < 2 ^ globalDepth t) by (apply mod_pow2_range; lia).
  destruct (si_live t Hst j Hj) as (a0 & b0 & Hs0 & Ha0 & Hsz0).
  rewrite (slot_vec_get j t _ ltac:(lia) Hs0), bind_Ok.
  assert (Ha0q : a0 = a ∨ a0 = q).
  { destruct (Hwhere e) as [H|H].
    - left.
    - fold j in H. rewrite Hs0 in H. left. congruence.
    - fold j in H. rewrite Hs0 in H. right. congruence. }
  destruct Hcells as (ba & bq & Hba & Hbq & Hsum & Hrank).
  destruct (Hsafe e t (conj Hst Hcapinv) Hdep)
    as [[Ho Hfuel]|[Hs|[(x & i & Hx & Hx0 & Hi & Hf)|([r' t'] & Hadd & Hpost)]]].
  { rewrite Ho. left. split; [reflexivity|]. intros Hen. apply Hfuel.
    rewrite (key_rank_cell e t a0 b0 Hs0 Ha0).
    destruct (Hrank Hen) as [Hra Hrq].
    destruct Ha0q as [->| ->].
    - rewrite Hba in Ha0. injection Ha0 as ->. exact Hra.
    - rewrite Hbq in Ha0. injection Ha0 as ->. exact Hrq. }
  { rewrite Hs. right. left. reflexivity. }
  { rewrite Hf. right. right. left. exists x, i.
    split; [destruct Hx as [->|Hx]; [apply HQ; left|apply HQs; exact Hx]|auto]. }
  rewrite Hadd, bind_Ok. simpl in Hpost.
  destruct (add_fuel_pos _ _ _ _ Hadd) as (m & Hn).
  pose proof Hadd as Hadd'. rewrite Hn in Hadd'.
  destruct (add_S_inv _ _ _ _ _ Hadd') as (a1 & b1 & ret & b1' & Hi & Hv & Ha1 & Hins & Hcase).
  destruct (getBucketIndex_inv _ _ _ Hi) as [Hrem _].
  rewrite (rem_nonneg_mod e _ Hpos) in Hrem by lia. fold j in Hrem. subst r'.
  destruct (vec_get_slot _ _ _ Hv) as [_ Hs1]. rewrite Hs0 in Hs1. injection Hs1 as <-.
  rewrite Ha0 in Ha1. injection Ha1 as <-.
  assert (Hf1 : DataBucket.localDepth b1' = DataBucket.localDepth b0).
  { pose proof (insert_snd_fields e b0) as (_ & Hl & _). rewrite Hins in Hl. exact Hl. }
  destruct Hcase as [[Hret ->]|[Hret _]].
  - (* the bucket takes the key *)
    destruct (plain_insert_inv e t j a0 b0 ret b1' (conj Hst Hcapinv)
                Hi Hv Ha0 Hins Hret)
      as (Hinv' & _ & _ & _ & Hkeys & Hlen).
    apply (IH (store (Some a0) b1' t) (k + 1)); auto.
    + destruct Ha0q as [->| ->].
      * rewrite Hba in Ha0. injection Ha0 as ->.
        exists b1', bq. split; [eapply heap_store_eq; eauto|]. split; [|split].
        -- simpl. rewrite list_lookup_insert_ne by auto. exact Hbq.
        -- lia.
        -- rewrite Hf1. exact Hrank.
      * rewrite Hbq in Ha0. injection Ha0 as ->.
        exists ba, b1'. split; [|split; [eapply heap_store_eq; eauto|split]].
        -- simpl. rewrite list_lookup_insert_ne by auto. exact Hba.
        -- lia.
        -- rewrite Hf1. exact Hrank.
    + intros x Hx. rewrite !slot_store.
      change (globalDepth (store (Some a0) b1' t)) with (globalDepth t).
      apply Hwhere. right. exact Hx.
    + change (bucketSize (store (Some a0) b1' t)) with (bucketSize t).
      simpl length in Hk. lia.
    + intros x Hx. apply HQ. right. exact Hx.
    + intros x Hx.
      apply (stored_store_insert e t (Z.to_nat j) a0 b0 b1' Hs0 Ha0 Hkeys) in Hx
        as [->|Hx]; [apply HQ; left|apply HQs; exact Hx].
  - (* the bucket overflows: this was the last key *)
    destruct (insert_cases _ _ _ _ Hins) as [(H1 & _)|(Hb0' & [[H0 _]|[_ Hover]])];
      try lia.
    rewrite Hsz0, to_size_t_capacity in Hover by (apply (si_cap t Hst)).
    assert (Hlen' : (length (DataBucket.data b1') <= S (length (DataBucket.data b0)))%nat).
    { rewrite Hb0'. simpl. apply length_set_insert. }
    assert (Hrest : rest = []).
    { destruct rest; [reflexivity|]. exfalso. simpl length in Hk.
      destruct Ha0q as [->| ->].
      - rewrite Hba in Ha0. injection Ha0 as ->. lia.
      - rewrite Hbq in Ha0. injection Ha0 as ->. lia. }
    subst rest. apply ends_Ok. exact Hpost.
Qed.

Lemma add_safe_all : ∀ n, add_safe n.
Proof.
  induction n as [|n IHn]; intros key s Hinv Hdep.
  { left. split; [reflexivity|]. pose proof (key_rank_nonneg key s Hinv Hdep). lia. }
  destruct Hinv as [Hst Hcapinv].
  pose proof (si_gd s Hst) as Hgd. pose proof (si_dir s Hst) as Hdir.
  assert (Hpos := pow2_pos (globalDepth s) ltac:(lia)).
  rewrite add_S, getBucketIndex_Ok, bind_Ok by exact Hgd.
  destruct (Z.lt_ge_cases (Z.rem key (2 ^ globalDepth s)) 0) as [Hneg|Hnn].
  { rewrite (vec_get_negative _ s Hneg). right. right. left.
    exists key, (Z.rem key (2 ^ globalDepth s)).
    split; [left; reflexivity|]. split; [apply (rem_negative key _ Hpos Hneg)|].
    split; [exact Hneg|reflexivity]. }
  assert (Hi : _getBucketIndex key s = Ok (key mod 2 ^ globalDepth s)).
  { rewrite getBucketIndex_Ok by exact Hgd. f_equal. apply rem_nonneg_mod; lia. }
  rewrite (rem_nonneg_mod key _ Hpos) by lia.
  set (r := key mod 2 ^ globalDepth s) in *.
  assert (Hr : 0 <= r < 2 ^ globalDepth s) by (apply mod_pow2_range; lia).
  destruct (si_live s Hst r Hr) as (a & b & Hs & Ha & Hsz).
  assert (Hv : vec_get r s = Ok (Some a)) by (apply slot_vec_get; [lia|exact Hs]).
  rewrite Hv, bind_Ok, (deref_Ok a s _ Ha), bind_Ok by reflexivity. simpl obj.
  destruct (DataBucket.insert key b) as [ret b'] eqn:Hins. cbv zeta.
  assert (Hf : DataBucket.localDepth b' = DataBucket.localDepth b).
  { pose proof (insert_snd_fields key b) as (_ & Hl & _). rewrite Hins in Hl. exact Hl. }
  assert (Hkeys : ∀ y, y ∈ DataBucket.data b' ↔ y = key ∨ y ∈ DataBucket.data b).
  { intros y. pose proof (insert_snd_fields key b) as (_ & _ & Hfind).
    rewrite Hins in Hfind. simpl in Hfind.
    rewrite <- !set_find_elem, Hfind, orb_true_iff, Z.eqb_eq. reflexivity. }
  pose proof (depth_store s a b b' Hdep Ha Hf) as Hdep1.
  destruct (ret =? 2) eqn:Hret.
  2:{ apply ends_Ok. exact Hdep1. }
  apply Z.eqb_eq in Hret. subst ret.
  destruct (Hdep r a (Cell b false) Hr Hs Ha) as [Hldr0 Hldr]. simpl in Hldr0, Hldr.
  pose proof (diverged_count_nonneg a s) as Hcnt.
  set (s1 := store (Some a) b' s) in *.
  change (globalDepth s1) with (globalDepth s).
  (* the table that [splitImage] receives *)
  assert (Htail : ∀ s2,
    (if DataBucket.localDepth b' =? globalDepth s then extend s1 else Ok s1) = Ok s2 →
    ends (key_rank key s < Z.of_nat (S n))
         (fun x => x = key ∨ stored x s) (fun v => depth_inv v.2)
         (s3 ← splitImage_with (add n) r s2; Ok (r, s3))).
  { intros s2 Hs2.
    assert (Hg2 : 1 <= globalDepth s2 ∧ depth_inv s2
                  ∧ DataBucket.localDepth b' + 1 <= globalDepth s2
                  ∧ (∀ x, stored x s2 → stored x s1)
                  ∧ rank (DataBucket.localDepth b' + 1) s2 < rank (DataBucket.localDepth b) s
                  ∧ rank (globalDepth s2) s2 < rank (DataBucket.localDepth b) s).
    { destruct (DataBucket.localDepth b' =? globalDepth s) eqn:Heq.
      - apply Z.eqb_eq in Heq.
        destruct (extend_inv s1 s2 Hdir ltac:(simpl; lia) Hs2) as [-> H30].
        change (globalDepth (extended s1)) with (globalDepth s + 1).
        split; [lia|]. split; [apply depth_extended; auto; simpl; lia|].
        split; [lia|]. split; [intros x; apply stored_extend; exact Hs2|].
        unfold rank. change (globalDepth (extended s1)) with (globalDepth s + 1). lia.
      - apply Z.eqb_neq in Heq. injection Hs2 as <-.
        change (globalDepth s1) with (globalDepth s).
        assert (Hg1 : 1 <= globalDepth s) by lia.
        split; [exact Hg1|]. split; [exact Hdep1|]. split; [lia|]. split; [auto|].
        unfold rank. change (globalDepth s1) with (globalDepth s). lia. }
    destruct Hg2 as (Hg2 & Hdep2 & Hld2 & Hsub & Hrk1 & Hrk2).
    destruct (overflow_table key s r a b b' s2 (conj Hst Hcapinv) Hi Hv Ha Hins Hs2 Hg2)
      as (Hst2 & Hcap2 & Hr2 & _ & Hdc & Ha2 & Hbs2 & _ & Hlen).
    pose proof (si_gd s2 Hst2) as Hgd2.
    set (half := 2 ^ (globalDepth s2 - 1)) in *.
    assert (Hhalf : 0 < half) by (apply pow2_pos; lia).
    assert (Hpow : 2 ^ globalDepth s2 = 2 * half) by (apply pow2_pred; lia).
    destruct (split_indices half r Hhalf ltac:(lia)) as [Hnb Hdcr].
    set (dc := dataCopy_of half r) in *.
    rewrite (splitImage_prelude (add n) r s2 a b');
      auto; try apply (si_dir s2 Hst2); try lia.
    rewrite int_chk_Ok by (unfold INT_MIN, INT_MAX in *; lia).
    rewrite bind_Ok. fold half. rewrite Hnb.
    destruct (struct_split s2 dc a b' Hst2 Hcap2 Hg2 Hdcr Hdc Ha2) as [Hst4 Hcap4].
    fold half in Hst4, Hcap4.
    set (s4 := split_state (dc + half) a b' s2) in *.
    set (q := length (heap s2)).
    assert (Haq : a ≠ q).
    { apply lookup_lt_Some in Ha2. unfold q. lia. }
    assert (Hblen : buckets_size s2 = 2 * half)
      by (rewrite <- Hpow; apply (si_dir s2 Hst2)).
    apply (ends_bind _ _ depth_inv); [|intros s3 H3; apply ends_Ok; exact H3].
    apply (reinsert_ends n a q _ _ (add_keeps_all n) IHn Haq (DataBucket.data b') s4 0).
    - split; assumption.
    - apply (depth_split s2 dc a b'); auto.
    - exists (DataBucket.mk (DataBucket.size b') (DataBucket.localDepth b' + 1) []),
             (DataBucket.mk (bucketSize s2) (globalDepth s2) []).
      split; [|split; [|split; [simpl; lia|]]].
      + unfold s4, split_state. simpl. apply list_lookup_insert_eq.
        apply lookup_lt_Some in Ha2. rewrite length_app. lia.
      + unfold s4, split_state. simpl. rewrite list_lookup_insert_ne by auto.
        rewrite lookup_app_r by (unfold q; lia). unfold q.
        rewrite Nat.sub_diag. reflexivity.
      + intros Hen. rewrite (key_rank_cell key s a b Hs Ha) in Hen.
        cbn [DataBucket.localDepth]. unfold rank in *.
        change (globalDepth s4) with (globalDepth s2). lia.
    - intros x Hx.
      change (globalDepth s4) with (globalDepth s2).
      assert (Hold : slot (x mod 2 ^ globalDepth s2) s2 = Some (Some a)).
      { apply (si_addr s2 Hst2 dc a (Cell b' false) x); auto. lia. }
      assert (Hxr : 0 <= x mod 2 ^ globalDepth s2 < 2 * half)
        by (rewrite <- Hpow; apply mod_pow2_range; lia).
      destruct (decide (x mod 2 ^ globalDepth s2 = dc + half)) as [Heq|Hne].
      + right. rewrite Heq. apply slot_split_eq. lia.
      + left. unfold s4. rewrite slot_split_ne by lia. exact Hold.
    - change (bucketSize s4) with (bucketSize s2). lia.
    - intros x Hx. apply Hkeys in Hx as [->|Hx]; [left; reflexivity|].
      right. exists (Z.to_nat r), a, b. auto.
    - intros x Hx. apply (stored_split_state _ a b' s2 x Ha2) in Hx.
      apply Hsub in Hx.
      apply (stored_store_insert key s (Z.to_nat r) a b b' Hs Ha Hkeys) in Hx. exact Hx. }
  destruct (DataBucket.localDepth b' =? globalDepth s) eqn:Heq.
  - destruct (decide (globalDepth s = 30)) as [H30|H30].
    + rewrite (extend_limit s1 H30). right. left. reflexivity.
    + pose proof (extend_extended s1 Hdir ltac:(simpl; lia)) as Hext.
      rewrite Hext, bind_Ok. apply Htail. exact Hext.
  - rewrite bind_Ok. apply Htail. reflexivity.
Qed.

Lemma key_rank_bound key s :
  table_inv s → depth_inv s →
  key_rank key s <= 32 * (30 - globalDepth s) + globalDepth s.
Proof.
  intros [Hst _] Hdep. pose proof (si_gd s Hst) as Hgd.
  assert (Hr : 0 <= key mod 2 ^ globalDepth s < 2 ^ globalDepth s)
    by (apply mod_pow2_range; lia).
  unfold key_rank, cell_rank.
  destruct (slot _ s) as [[a|]|] eqn:Hs; try lia.
  destruct (heap s !! a) as [c|] eqn:Ha; try lia.
  destruct (Hdep _ a c Hr Hs Ha) as [Hld _].
  pose proof (diverged_count_nonneg a s). unfold rank. lia.
Qed.

Lemma add_depth fuel key s r s' :
  table_inv s → depth_inv s → add fuel key s = Ok (r, s') → depth_inv s'.
Proof.
  intros Hinv Hdep Hadd.
  destruct (add_safe_all fuel key s Hinv Hdep)
    as [[Ho _]|[Hs|[(x & i & _ & _ & _ & Hf)|(v & Hv & Hpost)]]]; try congruence.
  rewrite Hadd in Hv. injection Hv as <-. exact Hpost.
Qed.

Lemma remove_depth key s s' :
  table_inv s → depth_inv s → remove key s = Ok s' → depth_inv s'.
Proof.
  intros Hinv Hdep Hrem.
  destruct (remove_steps key s s' Hinv Hrem)
    as (a & b & m & Hgd & _ & _ & Ha & [Hste Hcape] & Hm & [Hstm Hcapm] & Hgdm & Hs').
  cbv zeta in *.
  set (e := store (Some a) (DataBucket.erase key b) s) in *.
  assert (Hde : depth_inv e) by (apply (depth_store s a b); auto).
  assert (Hdm : depth_inv m).
  { destruct Hm as [->|(lo & pl & ph & bl & bh & ld & Hlo & Hsl & Hsh & Hne & Hpl & Hph
                        & Hld & Hldr & Hm)]; [exact Hde|].
    intros i a' c Hi Hs Hc. rewrite Hgdm in *.
    destruct (si_live m Hstm i ltac:(rewrite Hgdm; exact Hi)) as (a2 & b2 & Hs2 & Ha2 & _).
    rewrite Hs in Hs2. injection Hs2 as <-. rewrite Hc in Ha2. injection Ha2 as ->.
    assert (Hhalf : 0 < 2 ^ (globalDepth s - 1)) by (apply pow2_pos; lia).
    assert (Hpow : 2 ^ globalDepth s = 2 * 2 ^ (globalDepth s - 1)) by (apply pow2_pred; lia).
    assert (Hlen : (Z.to_nat (lo + 2 ^ (globalDepth s - 1)) < length (buckets e))%nat).
    { pose proof (si_dir e Hste) as Hd. unfold dir_ok, buckets_size in Hd.
      change (globalDepth e) with (globalDepth s) in Hd. lia. }
    assert (Hge : globalDepth m = globalDepth e) by (rewrite Hgdm; reflexivity).
    destruct (count_redirect e m lo pl Hge ltac:(simpl; lia) Hlo) as (Hoth & _ & Hdrop);
      [|exact Hsl|].
    { intros j Hj Hnj. subst m. unfold slot. simpl.
      apply list_lookup_insert_ne. change (globalDepth e) with (globalDepth s) in Hnj. lia. }
    change (globalDepth e) with (globalDepth s) in Hdrop.
    destruct (Hde lo pl (Cell bl false)) as [Hbl0 Hbl]; auto.
    { change (globalDepth e) with (globalDepth s). lia. }
    simpl in Hbl0, Hbl. change (globalDepth e) with (globalDepth s) in Hbl.
    assert (Hcnt : (a' = pl → diverged_count a' m + 1 <= diverged_count pl e)
                   ∧ (a' ≠ pl → diverged_count a' m <= diverged_count a' e)).
    { split; [intros ->|apply Hoth]. apply Hdrop.
      - rewrite Hsh. congruence.
      - rewrite Hm. unfold slot. simpl. apply list_lookup_insert_eq. exact Hlen. }
    revert Hcnt. generalize (diverged_count a' m). intros cnt [Hcnt1 Hcnt2].
    clear Hoth Hdrop.
    subst m. simpl in Hc, Hs. unfold slot in Hs. simpl in Hs.
    destruct (decide (a' = pl)) as [->|Hn1].
    - rewrite list_lookup_insert_eq in Hc
        by (rewrite length_insert; apply lookup_lt_Some in Hpl; exact Hpl).
      injection Hc as <-. specialize (Hcnt1 eq_refl). simpl. lia.
    - rewrite list_lookup_insert_ne in Hc by congruence.
      destruct (decide (a' = ph)) as [->|Hn2].
      { rewrite list_lookup_insert_eq in Hc by (apply lookup_lt_Some in Hph; exact Hph).
        discriminate. }
      rewrite list_lookup_insert_ne in Hc by congruence.
      apply list_lookup_insert_Some in Hs as [(_ & Heq & _)|(_ & Hs)]; [congruence|].
      destruct (Hde i a' (Cell b2 false) Hi Hs Hc) as [Hr0 Hr].
      specialize (Hcnt2 Hn1). simpl. simpl in Hr0, Hr.
      change (globalDepth e) with (globalDepth s) in Hr. lia. }
  destruct Hs' as [->|(Hall & -> & _)]; [exact Hdm|].
  intros i a' c Hi Hs Hc. simpl globalDepth in *.
  assert (Hhalf : 0 < 2 ^ (globalDepth m - 1)) by (apply pow2_pos; lia).
  rewrite slot_halved in Hs by exact Hi.
  assert (Hi' : 0 <= i < 2 ^ globalDepth m).
  { rewrite (pow2_pred (globalDepth m)) by lia. lia. }
  simpl in Hc.
  pose proof (all_depths_slot m _ i Hall (si_dir m Hstm) Hi' a' c Hs Hc) as Hd.
  destruct (Hdm i a' c Hi' Hs Hc) as [Hlow _].
  assert (Hcnt : diverged_count a' (halved m) <= diverged_count a' m).
  { apply count_prefix; [simpl; lia|]. simpl globalDepth. intros j Hj [H1 H2].
    assert (Hg2 : 2 <= globalDepth m).
    { destruct (decide (globalDepth m = 1)) as [H1'|H1']; [|lia].
      rewrite H1' in Hj. simpl in Hj. lia. }
    destruct (parent_range (globalDepth m - 1) j ltac:(lia) Hj) as [Hp Hpj].
    rewrite slot_halved in H1 by lia. rewrite slot_halved in H2 by lia.
    split; assumption. }
  lia.
Qed.

Lemma children_count y (n : nat) :
  (length (filter (λ j, parent j = y) (seqZ 1 (2 ^ Z.of_nat n - 1))) <= n)%nat.
Proof.
  induction n as [|n IH]; [reflexivity|].
  rewrite Nat2Z.inj_succ, <- Z.add_1_r.
  rewrite (seqZ_pow2_split (Z.of_nat n + 1) (Z.of_nat n)) by lia.
  rewrite filter_app, length_app.
  assert (H1 : (length (filter (λ j, parent j = y)
                  (seqZ (2 ^ Z.of_nat n) (2 ^ (Z.of_nat n + 1) - 2 ^ Z.of_nat n))) <= 1)%nat).
  { apply (filter_length_one _ _ (y + 2 ^ Z.of_nat n)); [apply NoDup_seqZ|].
    intros x Hx Hp. apply elem_of_seqZ in Hx.
    rewrite (parent_upper (Z.of_nat n)) in Hp by lia. lia. }
  lia.
Qed.

Lemma create_depth _globalDepth _size s :
  create _globalDepth _size = Ok s → depth_inv s.
Proof.
  intros Hc. destruct (create_spec _ _ _ Hc) as [Hgd ->].
  intros i a c Hi Hs Hc'. simpl in *.
  apply lookup_replicate in Hc' as [-> _]. simpl. split; [|lia].
  unfold diverged_count. simpl globalDepth.
  pose proof (children_count (Z.of_nat a) (Z.to_nat _globalDepth)) as Hch.
  rewrite Z2Nat.id in Hch by lia.
  pose proof (filter_length_mono (λ j, parent j = Z.of_nat a)
                (diverged a (EHM _globalDepth _size
                               (Some <$> seq 0 (Z.to_nat (2 ^ _globalDepth)))
                               (replicate (Z.to_nat (2 ^ _globalDepth))
                                  (Cell (DataBucket.mk _size _globalDepth []) false))))
                (seqZ 1 (2 ^ _globalDepth - 1))) as Hm.
  assert (Himp : ∀ x, x ∈ seqZ 1 (2 ^ _globalDepth - 1) →
            diverged a (EHM _globalDepth _size
                          (Some <$> seq 0 (Z.to_nat (2 ^ _globalDepth)))
                          (replicate (Z.to_nat (2 ^ _globalDepth))
                             (Cell (DataBucket.mk _size _globalDepth []) false))) x →
            parent x = Z.of_nat a).
  { intros x Hx [_ H2]. apply elem_of_seqZ in Hx.
    assert (Hg1 : 1 <= _globalDepth).
    { destruct (decide (_globalDepth = 0)) as [H0|H0]; [|lia].
      rewrite H0 in Hx. simpl in Hx. lia. }
    destruct (parent_range _globalDepth x Hg1 ltac:(lia)) as [Hp _].
    unfold slot in H2. simpl in H2. rewrite list_lookup_fmap in H2.
    destruct (seq 0 (Z.to_nat (2 ^ _globalDepth)) !! Z.to_nat (parent x)) as [k|] eqn:Hk;
      [|discriminate].
    simpl in H2. injection H2 as ->. apply lookup_seq in Hk as [-> _]. lia. }
  specialize (Hm Himp). lia.
Qed.

Lemma reachable_depth s : reachable s → depth_inv s.
Proof.
  induction 1 as [gd sz s Hsz Hc|sz s Hsz Hc|fuel key r s s' Hr IH Hadd|key s s' Hr IH Hrem].
  - apply (create_depth gd sz s Hc).
  - rewrite create0_create in Hc. apply (create_depth 0 sz s Hc).
  - apply (add_depth fuel key s r s' (reachable_inv s Hr) IH Hadd).
  - apply (remove_depth key s s' (reachable_inv s Hr) IH Hrem).
Qed.

(** X24.  In a reachable table the local depth of every bucket that a
    slot points to lies between 0 and the global depth. *)
Theorem X24_local_depths_are_bounded s i a b :
  reachable s →
  vec_get i s = Ok (Some a) → deref (Some a) s = Ok b →
  0 <= DataBucket.localDepth b <= globalDepth s.
Proof.
  intros Hreach Hv Hb.
  destruct (reachable_inv s Hreach) as [Hst _].
  destruct (vec_get_slot _ _ _ Hv) as [Hi Hs]. rewrite (si_dir s Hst) in Hi.
  apply deref_inv in Hb as (? & [= <-] & Ha).
  destruct (reachable_depth s Hreach i a (Cell b false) Hi Hs Ha) as [H1 H2].
  pose proof (diverged_count_nonneg a s). simpl in H1, H2. lia.
Qed.

(** X25.  On a reachable table [add] reads no slot beyond the end of the
    directory, follows no null or released pointer and leaves the [int]
    range nowhere, and it comes to an end.  It returns; or the directory
    can not be doubled again ([1 << 31], at global depth 30); or a
    negative key, the added one or one that the table holds, gives a
    negative index.  The nesting of [add] and [splitImage] that the fuel
    allows is used up only by a fuel of at most
    [32 * (30 - globalDepth) + globalDepth], so never by a fuel above
    960. *)
Theorem X25_add_fails_only_at_the_depth_limit fuel key s :
  reachable s →
  (add fuel key s = OutOfFuel
   ∧ Z.of_nat fuel <= 32 * (30 - globalDepth s) + globalDepth s)
  ∨ add fuel key s = Fault (BadShift 31)
  ∨ (∃ x i, (x = key ∨ present x s = true) ∧ x < 0 ∧ i < 0
            ∧ add fuel key s = Fault (BadIndex i))
  ∨ ∃ r s', add fuel key s = Ok (r, s').
Proof.
  intros Hreach.
  pose proof (reachable_inv s Hreach) as Hinv.
  pose proof (reachable_depth s Hreach) as Hdep.
  destruct (add_safe_all fuel key s Hinv Hdep)
    as [[Ho Hfuel]|[Hs|[(x & i & Hx & Hx0 & Hi & Hf)|([r s'] & Hv & _)]]]; auto.
  - left. split; [exact Ho|].
    pose proof (key_rank_bound key s Hinv Hdep). lia.
  - right. right. left. exists x, i.
    split; [destruct Hx as [->|Hx]; [left; reflexivity|right; apply present_stored; exact Hx]|].
    auto.
  - right. right. right. eauto.
Qed.

(** ** The ways in which [remove] ends *)

Lemma remove_erase_Ok key s i a b :
  dir_ok s → 1 <= globalDepth s <= 30 →
  _getBucketIndex key s = Ok i → 0 <= i < 2 ^ globalDepth s →
  vec_get i s = Ok (Some a) → deref (Some a) s = Ok b →
  remove_erase key s
  = Ok (i, (if i <? 2 ^ (globalDepth s - 1)
            then i + 2 ^ (globalDepth s - 1) else i - 2 ^ (globalDepth s - 1)),
        store (Some a) (DataBucket.erase key b) s).
Proof.
  intros Hdir Hgd Hi Hr Hv Hb.
  set (half := 2 ^ (globalDepth s - 1)).
  assert (Hhalf : 0 < half) by (apply pow2_pos; lia).
  assert (Hpow : 2 ^ globalDepth s = 2 * half) by (apply pow2_pred; lia).
  assert (Hp30 := pow2_le_30 (globalDepth s) ltac:(lia)).
  unfold remove_erase. rewrite Hi, bind_Ok.
  destruct (i <? half) eqn:Hlt; [apply Z.ltb_lt in Hlt|apply Z.ltb_ge in Hlt].
  - rewrite getImageIndex_lower by (auto; fold half; lia).
    rewrite bind_Ok, Hv, bind_Ok, Hb. reflexivity.
  - rewrite getImageIndex_upper by (fold half; unfold INT_MAX; lia).
    rewrite bind_Ok, Hv, bind_Ok, Hb. reflexivity.
Qed.

Lemma remove_ends key s :
  table_inv s → depth_inv s →
  1 <= globalDepth s → 0 <= Z.rem key (2 ^ globalDepth s) →
  (∃ s', remove key s = Ok s') ∨ (∃ a, remove key s = Fault (UseAfterFree a)).
Proof.
  intros [Hst Hcapinv] Hdep Hg1 Hnn.
  pose proof (si_gd s Hst) as Hgd. pose proof (si_dir s Hst) as Hdir.
  assert (Hpos := pow2_pos (globalDepth s) ltac:(lia)).
  set (half := 2 ^ (globalDepth s - 1)) in *.
  assert (Hhalf : 0 < half) by (apply pow2_pos; lia).
  assert (Hpow : 2 ^ globalDepth s = 2 * half) by (apply pow2_pred; lia).
  assert (Hi : _getBucketIndex key s = Ok (key mod 2 ^ globalDepth s)).
  { rewrite getBucketIndex_Ok by lia. f_equal. apply rem_nonneg_mod; lia. }
  set (i := key mod 2 ^ globalDepth s) in *.
  assert (Hr : 0 <= i < 2 ^ globalDepth s) by (apply mod_pow2_range; lia).
  destruct (si_live s Hst i Hr) as (a & b & Hs & Ha & Hsz).
  assert (Hv : vec_get i s = Ok (Some a)) by (apply slot_vec_get; [lia|exact Hs]).
  assert (Hb : deref (Some a) s = Ok b) by (apply (deref_Ok a s _ Ha); reflexivity).
  unfold remove.
  rewrite (remove_erase_Ok key s i a b Hdir ltac:(lia) Hi Hr Hv Hb), bind_Ok.
  fold half.
  set (image := if i <? half then i + half else i - half).
  set (e := store (Some a) (DataBucket.erase key b) s).
  assert (Himg : 0 <= image < 2 * half ∧ image ≠ i).
  { unfold image. destruct (i <? half) eqn:Hlt;
      [apply Z.ltb_lt in Hlt|apply Z.ltb_ge in Hlt]; lia. }
  assert (Hste : struct_inv e).
  { apply (struct_store s i a b); auto.
    intros x Hx. left. apply (elem_set_erase x key). exact Hx. }
  assert (Hcape : cap_inv_but None e).
  { apply (cap_store s a b); auto. intros _. simpl.
    pose proof (length_set_erase key (DataBucket.data b)).
    assert (Z.of_nat (length (DataBucket.data b)) <= bucketSize s).
    { apply (Hcapinv i a (Cell b false)); auto; congruence. }
    lia. }
  assert (Hde : depth_inv e) by (apply (depth_store s a b); auto).
  assert (Hlen : buckets_size e = 2 * half) by (rewrite <- Hpow; exact Hdir).
  pose proof (struct_live_dir e Hste) as Hlive.
  rewrite (merge_condition_spec i image e Hlive) by lia.
  rewrite bind_Ok.
  assert (Hshrink : ∀ m, struct_inv m → globalDepth m = globalDepth s →
                         ∃ s', shrink_check m = Ok s').
  { intros m Hstm Hgm.
    rewrite (shrink_check_spec m (struct_live_dir m Hstm) (si_dir m Hstm)) by lia.
    eauto. }
  destruct (negb (image =? i) && _ && _) eqn:Hc.
  2:{ left. rewrite bind_Ok. apply Hshrink; auto. }
  apply andb_true_iff in Hc as [Hc Hfi]. apply andb_true_iff in Hc as [_ Hfb].
  apply Z.leb_le in Hfi, Hfb.
  set (lo := Z.min i image). set (hi := Z.max i image).
  assert (Hsel : (if i >? image then merge image i e else merge i image e)
                 = merge lo hi e).
  { unfold lo, hi. destruct (i >? image) eqn:Hgt.
    - apply Z.gtb_lt in Hgt. rewrite Z.min_r, Z.max_l by lia. reflexivity.
    - rewrite Z.gtb_ltb in Hgt. apply Z.ltb_ge in Hgt.
      rewrite Z.min_l, Z.max_r by lia. reflexivity. }
  rewrite Hsel.
  assert (Hlohi : 0 <= lo < half ∧ hi = lo + half
                  ∧ (keys_at lo e <= to_size_t (bucketSize e ÷ 2))
                  ∧ (keys_at hi e <= to_size_t (bucketSize e ÷ 2))).
  { unfold lo, hi, image in *.
    destruct (i <? half) eqn:Hlt;
      [apply Z.ltb_lt in Hlt|apply Z.ltb_ge in Hlt].
    - rewrite Z.min_l, Z.max_r by lia. repeat split; auto; lia.
    - rewrite Z.min_r, Z.max_l by lia. repeat split; auto; lia. }
  destruct Hlohi as (Hlo & Hhi & Hflo & Hfhi).
  assert (Hge : globalDepth e = globalDepth s) by reflexivity.
  destruct (si_live e Hste lo ltac:(rewrite Hge, Hpow; lia))
    as (pl & bl & Hsl & Hpl & Hszl).
  destruct (si_live e Hste hi ltac:(rewrite Hge, Hpow; lia))
    as (ph & bh & Hsh & Hph & Hszh).
  assert (Hvl : vec_get lo e = Ok (Some pl)) by (apply slot_vec_get; [lia|exact Hsl]).
  assert (Hvh : vec_get hi e = Ok (Some ph)) by (apply slot_vec_get; [lia|exact Hsh]).
  destruct (decide (pl = ph)) as [<-|Hp].
  { right. exists pl.
    rewrite (merge_aliased lo hi e pl bl); auto. lia. }
  rewrite (merge_distinct lo hi e pl ph bl bh); auto; [|lia].
  destruct (Hde lo pl (Cell bl false)) as [Hmin Hmax]; auto.
  { rewrite Hge, Hpow. lia. }
  simpl in Hmin, Hmax.
  assert (Hone : 1 <= diverged_count pl e).
  { apply (count_pos pl e hi); [rewrite Hge, Hpow; lia|]. split.
    - rewrite Hsh. congruence.
    - rewrite Hhi, (parent_upper (globalDepth s - 1)) by
        (replace (globalDepth s - 1 + 1) with (globalDepth s) by lia; fold half; lia).
      fold half. replace (lo + half - half) with lo by lia. exact Hsl. }
  left. rewrite int_chk_Ok by (unfold INT_MIN, INT_MAX; lia). rewrite !bind_Ok.
  apply Hshrink; [|reflexivity].
  rewrite Hhi.
  destruct (merged_bucket_fields bl bh) as (Hmsz & Hmld & Hmdata).
  apply (struct_merge e lo pl ph bl bh
           (DataBucket.with_localDepth (DataBucket.localDepth bl - 1) (merged_bucket bl bh)));
    auto.
  - change (slot (lo + half) e = Some (Some ph)). rewrite <- Hhi. exact Hsh.
  - intros x Hx. simpl in Hx. apply elem_merged in Hx. exact Hx.
  - simpl. pose proof (length_merged bl bh).
    rewrite (keys_at_slot lo e pl bl) in Hflo by auto.
    rewrite (keys_at_slot hi e ph bh) in Hfhi by auto.
    pose proof (half_capacity (bucketSize e) _ _ (si_cap e Hste) Hflo Hfhi) as Hsum.
    change (bucketSize e) with (bucketSize s) in Hsum. lia.
Qed.

(** X26.  On a reachable table of global depth at least 1, [remove] of a
    key whose index is not negative returns, or it merges a bucket with
    itself and uses it after its release; no other fault occurs. *)
Theorem X26_remove_fails_only_on_a_shared_bucket key s :
  reachable s →
  1 <= globalDepth s → 0 <= Z.rem key (2 ^ globalDepth s) →
  (∃ s', remove key s = Ok s') ∨ (∃ a, remove key s = Fault (UseAfterFree a)).
Proof.
  intros Hreach. apply remove_ends; [apply reachable_inv|apply reachable_depth]; exact Hreach.
Qed.

(** ** Instances *)

Lemma live_dirb_true s : live_dirb s = true → live_dir s.
Proof.
  unfold live_dirb, live_dir. intros H i p Hp.
  rewrite forallb_forall in H.
  assert (Hin : In p (buckets s)).
  { apply list_elem_of_In. apply list_elem_of_lookup. eauto. }
  specialize (H p Hin). destruct p as [a|]; [|discriminate].
  destruct (heap s !! a) as [[b r]|] eqn:Ha; [|discriminate].
  simpl in H. destruct r; [discriminate|]. eauto.
Defined.



Lemma X27_witness :
  remove_erase 3 table_1_2_3 = Ok (1, 0, table_1_2_3_erased_3)
  ∧ live_dir table_1_2_3_erased_3
  ∧ dir_ok table_1_2_3_erased_3
  ∧ merge_condition 1 0 table_1_2_3_erased_3 = Ok true
  ∧ remove 3 table_1_2_3
    = (m ← merge 0 1 table_1_2_3_erased_3; shrink_check m)
  ∧ ∃ m, merge 0 1 table_1_2_3_erased_3 = Ok m
         ∧ vec_get 1 m = Ok (Some 0%nat)
         ∧ heap m !! 1%nat = Some (Cell (DataBucket.mk 2 1 []) true)
         ∧ shrink_check m
           = Ok (if all_depths (globalDepth m - 1) m then halved m else m).
Proof.
  assert (H1 : remove_erase 3 table_1_2_3 = Ok (1, 0, table_1_2_3_erased_3))
    by reflexivity.
  assert (H2 : live_dir table_1_2_3_erased_3)
    by (apply live_dirb_true; reflexivity).
  assert (H3 : dir_ok table_1_2_3_erased_3) by reflexivity.
  destruct (X27_remove_merges_once_then_shrinks 3 table_1_2_3 1 0
              table_1_2_3_erased_3 H1 H2 H3) as (Hc & Hr & Hm & Hs).
  split; [exact H1|]. split; [exact H2|]. split; [exact H3|].
  split; [exact Hc|]. split; [exact Hr|].
  destruct (Hm 0%nat 1%nat (DataBucket.mk 2 1 [2]) (DataBucket.mk 2 1 [1]))
    as (m & Hmerge & Hgd & Hsz & Hhi & _ & Hph & _);
    try reflexivity; try (simpl; lia); try (unfold INT_MIN, INT_MAX; simpl; lia).
  exists m. split; [exact Hmerge|]. split; [exact Hhi|]. split; [exact Hph|].
  apply Hs.
  - change (merge 0 1 table_1_2_3_erased_3 = Ok m) in Hmerge.
    rewrite (merge_distinct 0 1 table_1_2_3_erased_3 0%nat 1%nat
               (DataBucket.mk 2 1 [2]) (DataBucket.mk 2 1 [1])) in Hmerge;
      try reflexivity; try lia.
    injection Hmerge as <-. apply live_dirb_true. reflexivity.
  - unfold dir_ok. rewrite Hsz, Hgd. reflexivity.
  - rewrite Hgd. simpl. lia.
Defined.

Lemma C9_witness :
  reachable table_1_2
  ∧ add 3 3 table_1_2 = Ok (0, table_1_2_3)
  ∧ ∃ i, ∀ fuel', add (S fuel') 3 table_1_2_3 = Ok (i, table_1_2_3).
Proof.
  assert (H1 : reachable table_1_2).
  { apply (reachable_add 1 2 0
             (EHM 0 2 [Some 0%nat] [Cell (DataBucket.mk 2 0 [1]) false]) table_1_2);
      [|vm_compute; reflexivity].
    apply (reachable_add 1 1 0
             (EHM 0 2 [Some 0%nat] [Cell (DataBucket.mk 2 0 []) false]));
      [|vm_compute; reflexivity].
    apply (reachable_create 0 2); [unfold INT_MAX; lia|vm_compute; reflexivity]. }
  assert (H2 : add 3 3 table_1_2 = Ok (0, table_1_2_3)) by (vm_compute; reflexivity).
  split; [exact H1|]. split; [exact H2|].
  destruct (C9_second_add_is_a_duplicate 3 3 table_1_2 0 table_1_2_3 H1 H2)
    as (i & a & b & _ & _ & _ & _ & Hall).
  exists i. exact Hall.
Defined.

(** Two tables of [main] are reachable: after the insertions 1, 2, 3, and
    after the insertions 1, 2, 3, 4, 5. *)
Lemma reachable_table_1_2_3 : reachable table_1_2_3.
Proof.
  apply (run_main_reachable 3 [Add 1; Add 2; Add 3]). vm_compute. reflexivity.
Defined.

Lemma reachable_table_1_to_5 : reachable table_1_to_5.
Proof.
  apply (run_main_reachable 3 [Add 1; Add 2; Add 3; Add 4; Add 5]).
  vm_compute. reflexivity.
Defined.

Lemma X2_witness :
  ascending (DataBucket.data (DataBucket.mk 2 0 [1; 3])) = true
  ∧ DataBucket.erase 2 (DataBucket.insert 2 (DataBucket.mk 2 0 [1; 3])).2
    = DataBucket.mk 2 0 [1; 3]
  ∧ (DataBucket.insert 3 (DataBucket.erase 3 (DataBucket.mk 2 0 [1; 3]))).2
    = DataBucket.mk 2 0 [1; 3].
Proof.
  assert (H : ascending (DataBucket.data (DataBucket.mk 2 0 [1; 3])) = true)
    by reflexivity.
  split; [exact H|].
  destruct (X2_erase_undoes_insert 2 _ H) as (H1 & _).
  destruct (X2_erase_undoes_insert 3 _ H) as (_ & H2 & _).
  split; [apply H1|apply H2]; simpl.
  - intros Hin. apply elem_of_cons in Hin as [Hin|Hin]; [discriminate|].
    apply elem_of_cons in Hin as [Hin|Hin]; [discriminate|inversion Hin].
  - right. left.
Defined.

Lemma X3_witness :
  INT_MIN <= DataBucket.size (DataBucket.mk (-1) 0 [1; 2]) <= INT_MAX
  ∧ Z.of_nat (length (DataBucket.data (DataBucket.mk (-1) 0 [1; 2]))) < 2 ^ 32
  ∧ (DataBucket.insert 3 (DataBucket.mk (-1) 0 [1; 2])).1 ≠ 2.
Proof.
  assert (H1 : INT_MIN <= DataBucket.size (DataBucket.mk (-1) 0 [1; 2]) <= INT_MAX)
    by (unfold INT_MIN, INT_MAX; simpl; lia).
  assert (H2 : Z.of_nat (length (DataBucket.data (DataBucket.mk (-1) 0 [1; 2]))) < 2 ^ 32)
    by (simpl; lia).
  split; [exact H1|]. split; [exact H2|].
  intros H. apply (X3_overflow_compares_unsigned 3 _ H1 H2) in H as [_ H].
  simpl in H. lia.
Defined.

Lemma X4_witness :
  0 <= globalDepth table_1_2_3 <= 30
  ∧ ∃ i, _getBucketIndex 5 table_1_2_3 = Ok i ∧ 0 <= i < 2 ^ globalDepth table_1_2_3.
Proof.
  assert (H : 0 <= globalDepth table_1_2_3 <= 30) by (simpl; lia).
  split; [exact H|].
  destruct (X4_getBucketIndex_range 5 table_1_2_3 H) as (i & Hi & _ & Hpos & _).
  exists i. split; [exact Hi|]. apply Hpos. lia.
Defined.

Lemma X5_witness :
  0 <= globalDepth table_1_2_3 <= 30
  ∧ Z.rem (-1) (2 ^ globalDepth table_1_2_3) < 0
  ∧ add 1 (-1) table_1_2_3 = Fault (BadIndex (-1))
  ∧ remove (-1) table_1_2_3 = Fault (BadIndex (-1)).
Proof.
  assert (H1 : 0 <= globalDepth table_1_2_3 <= 30) by (simpl; lia).
  assert (H2 : Z.rem (-1) (2 ^ globalDepth table_1_2_3) < 0) by (vm_compute; reflexivity).
  split; [exact H1|]. split; [exact H2|].
  destruct (X5_negative_index_faults (-1) table_1_2_3 H1 H2) as [Hadd Hrem].
  split; [apply (Hadd 0%nat)|apply Hrem; simpl; lia].
Defined.

Lemma X6_witness :
  dir_ok table_1_2_3
  ∧ 0 <= globalDepth table_1_2_3 < 30
  ∧ ∃ s', extend table_1_2_3 = Ok s' ∧ globalDepth s' = 2 ∧ buckets_size s' = 4.
Proof.
  assert (H1 : dir_ok table_1_2_3) by reflexivity.
  assert (H2 : 0 <= globalDepth table_1_2_3 < 30) by (simpl; lia).
  split; [exact H1|]. split; [exact H2|].
  destruct (X6_extend_moves_no_key table_1_2_3 H1 H2) as (s' & He & Hg & Hn & _).
  exists s'. split; [exact He|]. split; [exact Hg|exact Hn].
Defined.

Lemma X7_witness :
  dir_ok table_1_2_3
  ∧ 0 <= globalDepth table_1_2_3 < 30
  ∧ (extend table_1_2_3 ≫= reduceDirectory) = Ok table_1_2_3.
Proof.
  assert (H1 : dir_ok table_1_2_3) by reflexivity.
  assert (H2 : 0 <= globalDepth table_1_2_3 < 30) by (simpl; lia).
  split; [exact H1|]. split; [exact H2|].
  apply (X7_reduceDirectory_undoes_extend table_1_2_3 H1 H2).
Defined.

Lemma X8_witness :
  dir_ok table_1_to_5
  ∧ 1 <= globalDepth table_1_to_5 <= 30
  ∧ 0 <= 1 < 2 ^ globalDepth table_1_to_5
  ∧ ∃ j, getImageIndex 1 table_1_to_5 = Ok j ∧ getImageIndex j table_1_to_5 = Ok 1.
Proof.
  assert (H1 : dir_ok table_1_to_5) by reflexivity.
  assert (H2 : 1 <= globalDepth table_1_to_5 <= 30) by (simpl; lia).
  assert (H3 : 0 <= 1 < 2 ^ globalDepth table_1_to_5) by (simpl; lia).
  split; [exact H1|]. split; [exact H2|]. split; [exact H3|].
  destruct (X8_getImageIndex_involution 1 table_1_to_5 H1 H2 H3) as (j & Hj & _ & _ & Hi).
  exists j. split; [exact Hj|exact Hi].
Defined.

Lemma X9_witness :
  0 <= 1 <= 30
  ∧ create 1 2
    = Ok (EHM 1 2 [Some 0; Some 1]%nat
              [Cell (DataBucket.mk 2 1 []) false; Cell (DataBucket.mk 2 1 []) false])
  ∧ ¬ 0 <= -1 <= 30
  ∧ create (-1) 2 = Fault (BadShift (-1)).
Proof.
  assert (H1 : 0 <= 1 <= 30) by lia.
  assert (H2 : ¬ 0 <= -1 <= 30) by lia.
  split; [exact H1|].
  split; [exact (proj1 (X9_create_builds_separate_empty_buckets 1 2) H1)|].
  split; [exact H2|].
  exact (proj1 (proj2 (X9_create_builds_separate_empty_buckets (-1) 2)) H2).
Defined.

Lemma X10_witness :
  live_dir table_1_to_5
  ∧ ¬ NoDup (buckets table_1_to_5)
  ∧ ∃ a, Some a ∈ buckets table_1_to_5
         ∧ destructor table_1_to_5 = Fault (UseAfterFree a).
Proof.
  assert (H1 : live_dir table_1_to_5) by (apply live_dirb_true; reflexivity).
  assert (H2 : ¬ NoDup (buckets table_1_to_5)).
  { simpl. intros H. apply NoDup_cons_1_1 in H. apply H. right. left. }
  split; [exact H1|]. split; [exact H2|].
  destruct (X10_destructor_frees_each_slot table_1_to_5 H1) as [_ Hdup].
  apply Hdup. exact H2.
Defined.

Lemma X11_witness :
  reachable table_1_2_3
  ∧ buckets_size table_1_2_3 = 2 ^ globalDepth table_1_2_3
  ∧ ∃ a b, vec_get 1 table_1_2_3 = Ok (Some a)
           ∧ deref (Some a) table_1_2_3 = Ok b
           ∧ Z.of_nat (length (DataBucket.data b)) <= bucketSize table_1_2_3.
Proof.
  split; [exact reachable_table_1_2_3|].
  destruct (X11_reachable_tables_are_well_formed table_1_2_3 reachable_table_1_2_3)
    as (_ & Hdir & Hslots).
  split; [exact Hdir|].
  destruct (Hslots 1) as (a & b & Hv & Hb & _ & Hlen & _);
    [unfold buckets_size; simpl; lia|].
  exists a, b. split; [exact Hv|]. split; [exact Hb|exact Hlen].
Defined.

Lemma X12_witness :
  add 3 3 table_1_2 = Ok (0, table_1_2_3)
  ∧ _getBucketIndex 3 table_1_2 = Ok 0
  ∧ globalDepth table_1_2 <= globalDepth table_1_2_3
  ∧ (length (heap table_1_2) <= length (heap table_1_2_3))%nat.
Proof.
  assert (H : add 3 3 table_1_2 = Ok (0, table_1_2_3)) by (vm_compute; reflexivity).
  split; [exact H|].
  destruct (X12_add_frees_nothing 3 3 table_1_2 0 table_1_2_3 H)
    as (Hi & Hg & _ & Hl & _).
  split; [exact Hi|]. split; [exact Hg|exact Hl].
Defined.

Lemma X13_witness :
  add 3 3 table_1_2 = Ok (0, table_1_2_3)
  ∧ ∀ x, present x table_1_2_3 = true → x = 3 ∨ present x table_1_2 = true.
Proof.
  assert (H : add 3 3 table_1_2 = Ok (0, table_1_2_3)) by (vm_compute; reflexivity).
  split; [exact H|].
  apply (X13_add_brings_in_no_other_key 3 3 table_1_2 0 table_1_2_3 H).
Defined.

Lemma X14_witness :
  reachable table_1_2_3
  ∧ 0 <= 4
  ∧ keys_at (4 mod 2 ^ globalDepth table_1_2_3) table_1_2_3 < bucketSize table_1_2_3
  ∧ ∃ s', add 1 4 table_1_2_3 = Ok (4 mod 2 ^ globalDepth table_1_2_3, s')
          ∧ present 4 s' = true.
Proof.
  assert (H2 : 0 <= 4) by lia.
  assert (H3 : keys_at (4 mod 2 ^ globalDepth table_1_2_3) table_1_2_3
               < bucketSize table_1_2_3) by (vm_compute; reflexivity).
  split; [exact reachable_table_1_2_3|]. split; [exact H2|]. split; [exact H3|].
  destruct (X14_add_with_room 4 table_1_2_3 reachable_table_1_2_3 H2 H3)
    as (s' & Hadd & _ & _ & Hkeys).
  exists s'. split; [apply (Hadd 0%nat)|].
  rewrite Hkeys. reflexivity.
Defined.

Lemma X16_witness :
  create 0 0 = Ok table_capacity_0
  ∧ ∀ fuel key,
      add fuel key table_capacity_0 = OutOfFuel
      ∨ ∃ f, add fuel key table_capacity_0 = Fault f.
Proof.
  assert (H : create 0 0 = Ok table_capacity_0) by reflexivity.
  split; [exact H|].
  apply (X16_capacity_zero_never_returns 0 table_capacity_0 H).
Defined.

Lemma X17_witness :
  globalDepth table_1_2 = 0 ∧ remove 1 table_1_2 = Fault (BadShift (-1)).
Proof.
  assert (H : globalDepth table_1_2 = 0) by reflexivity.
  split; [exact H|]. apply (X17_remove_at_depth_zero 1 table_1_2 H).
Defined.

Lemma X18_witness :
  reachable table_1_2_3
  ∧ remove 3 table_1_2_3 = Ok table_1_2_merged
  ∧ ∀ x, present x table_1_2_merged = present x table_1_2_3 && negb (x =? 3).
Proof.
  assert (H : remove 3 table_1_2_3 = Ok table_1_2_merged) by (vm_compute; reflexivity).
  split; [exact reachable_table_1_2_3|]. split; [exact H|].
  apply (X18_remove_takes_out_exactly_the_key 3 table_1_2_3 table_1_2_merged
           reachable_table_1_2_3 H).
Defined.

Lemma X19_witness :
  reachable table_1_2_3
  ∧ remove 3 table_1_2_3 = Ok table_1_2_merged
  ∧ globalDepth table_1_2_3 - 1 <= globalDepth table_1_2_merged <= globalDepth table_1_2_3
  ∧ length (heap table_1_2_merged) = length (heap table_1_2_3).
Proof.
  assert (H : remove 3 table_1_2_3 = Ok table_1_2_merged) by (vm_compute; reflexivity).
  split; [exact reachable_table_1_2_3|]. split; [exact H|].
  destruct (X19_remove_changes_the_depth_by_at_most_one 3 table_1_2_3 table_1_2_merged
              reachable_table_1_2_3 H) as (_ & _ & Hg & _ & _ & Hl).
  split; [exact Hg|exact Hl].
Defined.

Lemma X20_witness :
  reachable table_1_to_5
  ∧ _getBucketIndex 4 table_1_to_5 = Ok 0
  ∧ getImageIndex 0 table_1_to_5 = Ok 2
  ∧ vec_get 0 table_1_to_5 = Ok (Some 0%nat)
  ∧ vec_get 2 table_1_to_5 = Ok (Some 0%nat)
  ∧ deref (Some 0%nat) table_1_to_5 = Ok (DataBucket.mk 2 1 [2; 4])
  ∧ Z.of_nat (length (DataBucket.data (DataBucket.erase 4 (DataBucket.mk 2 1 [2; 4]))))
    <= bucketSize table_1_to_5 / 2
  ∧ remove 4 table_1_to_5 = Fault (UseAfterFree 0).
Proof.
  assert (H2 : _getBucketIndex 4 table_1_to_5 = Ok 0) by reflexivity.
  assert (H3 : getImageIndex 0 table_1_to_5 = Ok 2) by reflexivity.
  assert (H4 : vec_get 0 table_1_to_5 = Ok (Some 0%nat)) by reflexivity.
  assert (H5 : vec_get 2 table_1_to_5 = Ok (Some 0%nat)) by reflexivity.
  assert (H6 : deref (Some 0%nat) table_1_to_5 = Ok (DataBucket.mk 2 1 [2; 4]))
    by reflexivity.
  assert (H7 : Z.of_nat (length (DataBucket.data
                  (DataBucket.erase 4 (DataBucket.mk 2 1 [2; 4]))))
               <= bucketSize table_1_to_5 / 2) by (vm_compute; discriminate).
  split; [exact reachable_table_1_to_5|].
  split; [exact H2|]. split; [exact H3|]. split; [exact H4|]. split; [exact H5|].
  split; [exact H6|]. split; [exact H7|].
  apply (X20_remove_of_a_shared_bucket 4 table_1_to_5 0 2 0%nat _
           reachable_table_1_to_5 H2 H3 H4 H5 H6 H7).
Defined.

Lemma X21_witness :
  reachable table_1_2_3
  ∧ 0 <= 4
  ∧ present 4 table_1_2_3 = false
  ∧ keys_at (4 mod 2 ^ globalDepth table_1_2_3) table_1_2_3 < bucketSize table_1_2_3
  ∧ add 1 4 table_1_2_3 = Ok (0, table_1_2_3_4)
  ∧ remove 4 table_1_2_3_4 = Ok table_1_2_3
  ∧ ∀ x, present x table_1_2_3 = present x table_1_2_3.
Proof.
  assert (H2 : 0 <= 4) by lia.
  assert (H3 : present 4 table_1_2_3 = false) by reflexivity.
  assert (H4 : keys_at (4 mod 2 ^ globalDepth table_1_2_3) table_1_2_3
               < bucketSize table_1_2_3) by (vm_compute; reflexivity).
  assert (H5 : add 1 4 table_1_2_3 = Ok (0, table_1_2_3_4)) by (vm_compute; reflexivity).
  assert (H6 : remove 4 table_1_2_3_4 = Ok table_1_2_3) by (vm_compute; reflexivity).
  split; [exact reachable_table_1_2_3|].
  split; [exact H2|]. split; [exact H3|]. split; [exact H4|]. split; [exact H5|].
  split; [exact H6|].
  apply (X21_remove_undoes_add 4 table_1_2_3 table_1_2_3_4 table_1_2_3 0%nat 0
           reachable_table_1_2_3 H2 H3 H4 H5 H6).
Defined.

Lemma X22_witness :
  reachable table_1_2_3
  ∧ heap table_1_2_3 !! 1%nat = Some (Cell (DataBucket.mk 2 1 [1; 3]) false)
  ∧ ascending [1; 3] = true.
Proof.
  assert (H : heap table_1_2_3 !! 1%nat = Some (Cell (DataBucket.mk 2 1 [1; 3]) false))
    by reflexivity.
  split; [exact reachable_table_1_2_3|]. split; [exact H|].
  apply (X22_buckets_stay_ascending table_1_2_3 1%nat _ reachable_table_1_2_3 H).
Defined.

Lemma X23_witness :
  reachable table_1_2_3
  ∧ print table_1_2_3
    = Ok (endl +:+ "Bucket 1 / 2" +:+ endl +:+ "Data:" +:+ tab +:+ "2 " +:+ endl +:+ endl
          +:+ "Bucket 2 / 2" +:+ endl +:+ "Data:" +:+ tab +:+ "1 3 " +:+ endl +:+ endl).
Proof.
  split; [exact reachable_table_1_2_3|].
  rewrite (X23_print_lists_every_slot table_1_2_3 reachable_table_1_2_3).
  vm_compute. reflexivity.
Defined.

Lemma X24_witness :
  reachable table_1_2_3
  ∧ vec_get 1 table_1_2_3 = Ok (Some 1%nat)
  ∧ deref (Some 1%nat) table_1_2_3 = Ok (DataBucket.mk 2 1 [1; 3])
  ∧ 0 <= DataBucket.localDepth (DataBucket.mk 2 1 [1; 3]) <= globalDepth table_1_2_3.
Proof.
  assert (H2 : vec_get 1 table_1_2_3 = Ok (Some 1%nat)) by reflexivity.
  assert (H3 : deref (Some 1%nat) table_1_2_3 = Ok (DataBucket.mk 2 1 [1; 3]))
    by reflexivity.
  split; [exact reachable_table_1_2_3|]. split; [exact H2|]. split; [exact H3|].
  apply (X24_local_depths_are_bounded table_1_2_3 1 1%nat _ reachable_table_1_2_3 H2 H3).
Defined.

Lemma X25_witness :
  reachable table_1_2_3
  ∧ ((add 2 5 table_1_2_3 = OutOfFuel
      ∧ Z.of_nat 2 <= 32 * (30 - globalDepth table_1_2_3) + globalDepth table_1_2_3)
     ∨ add 2 5 table_1_2_3 = Fault (BadShift 31)
     ∨ (∃ x i, (x = 5 ∨ present x table_1_2_3 = true) ∧ x < 0 ∧ i < 0
               ∧ add 2 5 table_1_2_3 = Fault (BadIndex i))
     ∨ ∃ r s', add 2 5 table_1_2_3 = Ok (r, s')).
Proof.
  split; [exact reachable_table_1_2_3|].
  apply (X25_add_fails_only_at_the_depth_limit 2 5 table_1_2_3 reachable_table_1_2_3).
Defined.

Lemma X26_witness :
  reachable table_1_2_3
  ∧ 1 <= globalDepth table_1_2_3
  ∧ 0 <= Z.rem 3 (2 ^ globalDepth table_1_2_3)
  ∧ ((∃ s', remove 3 table_1_2_3 = Ok s')
     ∨ (∃ a, remove 3 table_1_2_3 = Fault (UseAfterFree a))).
Proof.
  assert (H2 : 1 <= globalDepth table_1_2_3) by (simpl; lia).
  assert (H3 : 0 <= Z.rem 3 (2 ^ globalDepth table_1_2_3)) by (vm_compute; discriminate).
  split; [exact reachable_table_1_2_3|]. split; [exact H2|]. split; [exact H3|].
  apply (X26_remove_fails_only_on_a_shared_bucket 3 table_1_2_3 reachable_table_1_2_3 H2 H3).
Defined.
